(** * Color API service: cache, adaptive sampling and distinct-name collection

    A shallow embedding of [src/services/colorApi.js] (the service behind the
    colour swatch grid) together with the properties its description states.

    Conventions of the embedding.
    - The module-level [cache] ([new Map()]) is a [gmap string colorData]
      keyed by the template string [`${hue},${saturation},${lightness}`].
    - An [async] function is a state transformer over the [world] (the cache
      and a ghost list of the [fetch] calls issued so far) returning either a
      thrown [js_error] or a value.
    - The network is a parameter: the outcome of the n-th [fetch] call.  An
      [AbortSignal] is a predicate telling whether the signal has fired by
      the time the n-th [fetch] call settles.
    - The closure variable [colorsByHue] of [fetchDistinctColors] is passed
      explicitly through [fetchBatch]. *)

From Stdlib Require Import Ascii.
From Stdlib Require PrimFloat SpecFloat FloatOps.
From stdpp Require Import base numbers option list list_numbers sorting.
From stdpp Require Import strings pretty gmap fin_maps fin_map_dom.

Open Scope Z_scope.

Module ColorApi.

(** ** JavaScript values that reach the service *)

(** Exceptions, told apart by [error.name] as the [catch] blocks do. *)
Inductive js_error : Type :=
  | AbortError
  | TypeError (message : string)
  | SyntaxError (message : string)
  | Error (message : string).

(** [{ red, green, blue }]; a channel the response lacks is [undefined]. *)
Record rgb_channels : Type := mk_rgb {
  red : option Z;
  green : option Z;
  blue : option Z
}.

(** The object built by [fetchColorData] and stored in the cache. *)
Record colorData : Type := mk_colorData {
  hue : Z;
  saturation : Z;
  lightness : Z;
  name : string;
  rgb : rgb_channels;
  hex : option string;
  hsl : option string
}.

(** The parsed body of a response of The Color API
    ([{ hex: { value }, rgb: { r, g, b }, hsl: { value }, name: { value } }]).
    Each of the four objects may be missing, and so may [value] inside one;
    a [value] that is present is a string, possibly empty. *)
Record api_rgb : Type := mk_api_rgb {
  r : option Z;
  g : option Z;
  b : option Z
}.

Record api_value : Type := mk_api_value { value : option string }.

Record api_data : Type := mk_api_data {
  data_rgb : option api_rgb;
  data_name : option api_value;
  data_hex : option api_value;
  data_hsl : option api_value
}.

(** What [await response.json()] yields. *)
Inductive json_body : Type :=
  | JsonThrows (e : js_error)
  | JsonNull
  | JsonObject (data : api_data).

(** What [await fetch(url, { signal })] yields. *)
Inductive fetch_result : Type :=
  | FetchThrows (e : js_error)
  | FetchResponse (ok : bool) (status : Z) (body : json_body).

Global Instance js_error_eq_dec : EqDecision js_error.
Proof. solve_decision. Defined.
Global Instance rgb_channels_eq_dec : EqDecision rgb_channels.
Proof. solve_decision. Defined.
Global Instance colorData_eq_dec : EqDecision colorData.
Proof. solve_decision. Defined.

(** ** The cache *)

(** [`${hue},${saturation},${lightness}`] *)
Definition cacheKey (hue saturation lightness : Z) : string :=
  pretty hue +:+ "," +:+ pretty saturation +:+ "," +:+ pretty lightness.

(** The module state: [cache], and the ghost list of remote lookups issued
    (one entry per call of [fetch], in the order of the calls). *)
Record world : Type := mk_world {
  cache : gmap string colorData;
  requests : list (Z * Z * Z)
}.

(** [cache.set(cacheKey, colorData)] *)
Definition cache_set (k : string) (v : colorData) (w : world) : world :=
  {| cache := <[k := v]> (cache w); requests := requests w |}.

(** [cache.clear()] *)
Definition clearCache (w : world) : world :=
  {| cache := ∅; requests := requests w |}.

(** ** A state-and-exception monad for [async] functions *)

Definition M (A : Type) : Type := world → world * (js_error + A).

Definition ret {A} (a : A) : M A := λ w, (w, inr a).
Definition throw {A} (e : js_error) : M A := λ w, (w, inl e).
Definition bind {A B} (m : M A) (k : A → M B) : M B :=
  λ w, match m w with
       | (w', inl e) => (w', inl e)
       | (w', inr a) => k a w'
       end.

Declare Scope async_scope.
Delimit Scope async_scope with async.
Notation "'await' x ':=' m 'in' k" := (bind m (λ x, k))
  (at level 10, x name, m at level 100, k at level 200,
   format "'[v' 'await'  x  :=  m  'in' '/' k ']'") : async_scope.

(** ** fetchColorData *)

(** An abort signal: [aborted n] holds when the signal has fired by the time
    the [n]-th [fetch] call settles.  [None] is [signal = null]. *)
Definition AbortSignal : Type := nat → bool.

Section Service.

(** The remote classifier: the outcome of the [n]-th [fetch] call, made for
    [hsl=hue,saturation,lightness], when it is not aborted. *)
Variable remote : nat → Z → Z → Z → fetch_result.

(** [fetch(url, { signal })]: a fired signal rejects with [AbortError]. *)
Definition fetch (signal : option AbortSignal) (n : nat)
    (hue saturation lightness : Z) : fetch_result :=
  match signal with
  | Some aborted =>
      if aborted n then FetchThrows AbortError
      else remote n hue saturation lightness
  | None => remote n hue saturation lightness
  end.

(** The body of [fetchColorData] after [await fetch(...)]: the status check,
    [response.json()], the structure check and the extraction.  The [catch]
    block rethrows whatever was thrown. *)
Definition fetchColorData_response (hue saturation lightness : Z)
    (res : fetch_result) : js_error + colorData :=
  match res with
  | FetchThrows e => inl e
  | FetchResponse ok status body =>
      if negb ok then inl (Error ("API error: " +:+ pretty status))
      else match body with
           | JsonThrows e => inl e
           | JsonNull => inl (Error "Invalid API response structure")
           | JsonObject data =>
               match data_rgb data, data_name data with
               | Some drgb, Some dname =>
                   match data_hex data, data_hsl data with
                   | Some dhex, Some dhsl =>
                       inr {| hue := hue;
                              saturation := saturation;
                              lightness := lightness;
                              name := match value dname with
                                      | Some (String c s) => String c s
                                      | Some EmptyString | None => "Unnamed"
                                      end;
                              rgb := {| red := r drgb;
                                        green := g drgb;
                                        blue := b drgb |};
                              hex := value dhex;
                              hsl := value dhsl |}
                   | _, _ =>
                       inl (TypeError
                              "Cannot read properties of undefined (reading 'value')")
                   end
               | _, _ => inl (Error "Invalid API response structure")
               end
           end
  end.

(** A call of [fetchColorData] between its start and its completion: either
    it returned the cached object at once, or its [fetch] is in flight. *)
Inductive started : Type :=
  | Settled (v : colorData)
  | InFlight (hue : Z) (res : fetch_result).

(** [fetchColorData] up to its first [await]: the cache check and, on a
    miss, the call of [fetch]. *)
Definition fetchColorData_start (signal : option AbortSignal)
    (hue saturation lightness : Z) (w : world) : world * started :=
  match cache w !! cacheKey hue saturation lightness with
  | Some v => (w, Settled v)
  | None =>
      ({| cache := cache w;
          requests := requests w ++ [(hue, saturation, lightness)] |},
       InFlight hue
         (fetch signal (length (requests w)) hue saturation lightness))
  end.

(** [fetchColorData] from the moment its [fetch] settles: on success the
    result is stored with [cache.set] and returned. *)
Definition fetchColorData_finish (saturation lightness : Z)
    (p : started) : M colorData :=
  match p with
  | Settled v => ret v
  | InFlight hue res =>
      match fetchColorData_response hue saturation lightness res with
      | inl e => throw e
      | inr colorData =>
          λ w, (cache_set (cacheKey hue saturation lightness) colorData w,
                inr colorData)
      end
  end.

(** A single awaited call: [await fetchColorData(hue, s, l, signal)]. *)
Definition fetchColorData (hue saturation lightness : Z)
    (signal : option AbortSignal) : M colorData :=
  λ w, let '(w1, p) := fetchColorData_start signal hue saturation lightness w in
       fetchColorData_finish saturation lightness p w1.

(** ** Promise.all over a chunk *)

(** [chunk.map(hue => fetchColorData(hue, s, l, signal))]: every call runs
    to its first [await] before any [fetch] settles, so every cache check
    sees the cache as it is when the chunk starts. *)
Fixpoint start_all (signal : option AbortSignal) (saturation lightness : Z)
    (chunk : list Z) (w : world) : world * list started :=
  match chunk with
  | [] => (w, [])
  | hue :: rest =>
      let '(w1, p) := fetchColorData_start signal hue saturation lightness w in
      let '(w2, ps) := start_all signal saturation lightness rest w1 in
      (w2, p :: ps)
  end.

(** The calls in flight settle one after the other (here in the order of the
    chunk); a call that fails does not stop the others from settling. *)
Fixpoint finish_all (saturation lightness : Z) (ps : list started)
    (w : world) : world * list (js_error + colorData) :=
  match ps with
  | [] => (w, [])
  | p :: rest =>
      let '(w1, o) := fetchColorData_finish saturation lightness p w in
      let '(w2, os) := finish_all saturation lightness rest w1 in
      (w2, o :: os)
  end.

(** The value of [Promise.all]: the array of results, or a rejection when
    one of the promises rejected.  Which rejection JavaScript reports
    depends on the order in which the promises settle; here it is that of
    the first promise of the chunk that rejected. *)
Fixpoint all_settled (os : list (js_error + colorData))
    : js_error + list colorData :=
  match os with
  | [] => inr []
  | inl e :: _ => inl e
  | inr v :: rest =>
      match all_settled rest with
      | inl e => inl e
      | inr vs => inr (v :: vs)
      end
  end.

(** [await Promise.all(chunk.map(hue => fetchColorData(hue, s, l, signal)))],
    observed once every promise of the chunk has settled. *)
Definition Promise_all (signal : option AbortSignal)
    (saturation lightness : Z) (chunk : list Z) : M (list colorData) :=
  λ w, let '(w1, ps) := start_all signal saturation lightness chunk w in
       let '(w2, os) := finish_all saturation lightness ps w1 in
       (w2, all_settled os).

(** ** The chunked loop shared by fetchBatch and fetchMultipleColors *)

Definition BATCH_SIZE : nat := 20.

(** [for (let i = 0; i < batch.length; i += BATCH_SIZE)] with
    [chunk = batch.slice(i, i + BATCH_SIZE)].  [fuel] bounds the number of
    iterations; [length batch] is always enough ([chunk_loop_fuel]). *)
Fixpoint chunk_loop (fuel : nat) (signal : option AbortSignal)
    (saturation lightness : Z) (batch : list Z) (i : nat)
    (results : list colorData) : M (list colorData) :=
  match fuel with
  | O => ret results
  | S fuel' =>
      if bool_decide (i < length batch)%nat then
        (await chunkResults :=
           Promise_all signal saturation lightness
             (take BATCH_SIZE (drop i batch)) in
         chunk_loop fuel' signal saturation lightness batch
           (i + BATCH_SIZE)%nat (results ++ chunkResults))%async
      else ret results
  end.

(** [fetchMultipleColors(hues, saturation, lightness)] (no signal). *)
Definition fetchMultipleColors (hues : list Z) (saturation lightness : Z)
    : M (list colorData) :=
  chunk_loop (length hues) None saturation lightness hues 0%nat [].

(** ** fetchDistinctColors *)

(** The first loop of [fetchBatch]: the hues not in the cache are collected
    in [batch]; for the others the cached object goes into [colorsByHue]. *)
Fixpoint split_cached (c : gmap string colorData) (saturation lightness : Z)
    (hues : list Z) (batch : list Z) (colorsByHue : gmap Z colorData)
    : list Z * gmap Z colorData :=
  match hues with
  | [] => (batch, colorsByHue)
  | hue :: rest =>
      match c !! cacheKey hue saturation lightness with
      | None =>
          split_cached c saturation lightness rest (batch ++ [hue]) colorsByHue
      | Some cached =>
          split_cached c saturation lightness rest batch
            (<[hue := cached]> colorsByHue)
      end
  end.

(** [results.forEach(color => colorsByHue.set(color.hue, color))] *)
Definition store_results (results : list colorData)
    (colorsByHue : gmap Z colorData) : gmap Z colorData :=
  foldl (λ m color, <[hue color := color]> m) colorsByHue results.

(** The helper [fetchBatch(hues)] of [fetchDistinctColors]; it returns the
    updated [colorsByHue]. *)
Definition fetchBatch (signal : option AbortSignal) (saturation lightness : Z)
    (hues : list Z) (colorsByHue : gmap Z colorData) : M (gmap Z colorData) :=
  λ w,
    let '(batch, colorsByHue1) :=
      split_cached (cache w) saturation lightness hues [] colorsByHue in
    match batch with
    | [] => (w, inr colorsByHue1)
    | _ :: _ =>
        (await results :=
           chunk_loop (length batch) signal saturation lightness batch 0%nat [] in
         ret (store_results results colorsByHue1))%async w
    end.

(** Phase 1: [for (let h = 0; h < 360; h += 10) coarseHues.push(h)]. *)
Definition coarseHues : list Z := (λ k, 10 * k) <$> seqZ 0 36.

(** [{ start, end }] *)
Record boundaryRange : Type := mk_range { range_start : Z; range_end : Z }.

Global Instance boundaryRange_eq_dec : EqDecision boundaryRange.
Proof. solve_decision. Defined.

(** Phase 2, one iteration of the loop over [i]. *)
Definition boundary_at (colorsByHue : gmap Z colorData) (i : nat)
    : list boundaryRange :=
  let currentHue := coarseHues !!! i in
  let nextHue := coarseHues !!! ((i + 1) `mod` length coarseHues)%nat in
  match colorsByHue !! currentHue, colorsByHue !! nextHue with
  | Some currentColor, Some nextColor =>
      if bool_decide (name currentColor ≠ "Unnamed")
         && bool_decide (name currentColor ≠ name nextColor)
      then [ {| range_start := currentHue; range_end := nextHue |} ]
      else []
  | _, _ => []
  end.

(** Phase 2: the ranges pushed to [boundaryRanges], in order. *)
Definition boundaryRanges (colorsByHue : gmap Z colorData)
    : list boundaryRange :=
  flat_map (boundary_at colorsByHue) (seq 0 (length coarseHues)).

(** Phase 3, the hues pushed to [fillHues] for one range:
    [if (end < start) end += 360;
     for (let h = start + 1; h < end; h++) fillHues.push(h % 360)]. *)
Definition fillHues (range : boundaryRange) : list Z :=
  let start := range_start range in
  let end_ :=
    if bool_decide (range_end range < start) then range_end range + 360
    else range_end range in
  (λ h, h `rem` 360) <$> seqZ (start + 1) (end_ - (start + 1)).

(** Phase 3: the loop over [boundaryRanges]. *)
Fixpoint fill_loop (signal : option AbortSignal) (saturation lightness : Z)
    (ranges : list boundaryRange) (colorsByHue : gmap Z colorData)
    : M (gmap Z colorData) :=
  match ranges with
  | [] => ret colorsByHue
  | range :: rest =>
      let hues := fillHues range in
      if bool_decide (0 < length hues)%nat then
        (await colorsByHue1 :=
           fetchBatch signal saturation lightness hues colorsByHue in
         fill_loop signal saturation lightness rest colorsByHue1)%async
      else fill_loop signal saturation lightness rest colorsByHue
  end.

(** [Array.from(colorsByHue.keys()).sort((a, b) => a - b)] *)
Definition sortedHues (colorsByHue : gmap Z colorData) : list Z :=
  merge_sort Z.le (map_to_list colorsByHue).*1.

(** Phase 4, the loop over the colours in the order of [sortedHues], with
    [seenNames] and [distinctColors]. *)
Fixpoint collect_loop (colors : list colorData) (seenNames : gset string)
    (distinctColors : list colorData) : list colorData :=
  match colors with
  | [] => distinctColors
  | color :: rest =>
      if bool_decide (name color = "" ∨ name color = "Unnamed") then
        collect_loop rest seenNames distinctColors
      else if bool_decide (name color ∈ seenNames) then
        collect_loop rest seenNames distinctColors
      else
        collect_loop rest ({[ name color ]} ∪ seenNames)
          (distinctColors ++ [color])
  end.

(** Phase 4: [colorsByHue.get(hue)] for each sorted hue, then the loop. *)
Definition collectDistinct (colorsByHue : gmap Z colorData) : list colorData :=
  collect_loop (omap (λ hue, colorsByHue !! hue) (sortedHues colorsByHue)) ∅ [].

(** Phases 1 to 3: the final [colorsByHue]. *)
Definition samplePhases (saturation lightness : Z)
    (signal : option AbortSignal) : M (gmap Z colorData) :=
  (await colorsByHue1 := fetchBatch signal saturation lightness coarseHues ∅ in
   fill_loop signal saturation lightness (boundaryRanges colorsByHue1)
     colorsByHue1)%async.

(** [fetchDistinctColors(saturation, lightness, signal)] *)
Definition fetchDistinctColors (saturation lightness : Z)
    (signal : option AbortSignal) : M (list colorData) :=
  (await colorsByHue := samplePhases saturation lightness signal in
   ret (collectDistinct colorsByHue))%async.

End Service.

Global Arguments cacheKey : simpl never.

(** ** Cache keys *)

Lemma string_app_length (s t : string) :
  String.length (s +:+ t) = (String.length s + String.length t)%nat.
Proof. induction s as [|a s IH]; simpl; [done|]. by rewrite IH. Qed.

Lemma string_app_inv_tail (s1 s2 t : string) :
  s1 +:+ t = s2 +:+ t → s1 = s2.
Proof.
  revert s2. induction s1 as [|a s1 IH]; intros [|a' s2] Heq.
  - done.
  - apply (f_equal String.length) in Heq.
    rewrite !string_app_length in Heq. simpl in Heq. lia.
  - apply (f_equal String.length) in Heq.
    rewrite !string_app_length in Heq. simpl in Heq. lia.
  - change (String a (s1 +:+ t) = String a' (s2 +:+ t)) in Heq.
    injection Heq as -> Heq. f_equal. by apply IH.
Qed.

(** For fixed saturation and lightness, distinct hues have distinct keys. *)
Lemma cacheKey_inj (s l h1 h2 : Z) :
  cacheKey h1 s l = cacheKey h2 s l → h1 = h2.
Proof.
  unfold cacheKey. intros Heq.
  apply string_app_inv_tail in Heq. by apply (inj pretty) in Heq.
Qed.

Lemma cacheKey_ne (s l h1 h2 : Z) :
  h1 ≠ h2 → cacheKey h1 s l ≠ cacheKey h2 s l.
Proof. intros Hne Heq. by apply Hne, (cacheKey_inj s l). Qed.

(** ** Phase 1 and Phase 3: the hues sampled *)

Lemma coarseHues_eq :
  coarseHues =
  [0; 10; 20; 30; 40; 50; 60; 70; 80; 90; 100; 110; 120; 130; 140; 150; 160;
   170; 180; 190; 200; 210; 220; 230; 240; 250; 260; 270; 280; 290; 300; 310;
   320; 330; 340; 350].
Proof. reflexivity. Qed.

Lemma elem_of_coarseHues (h : Z) :
  h ∈ coarseHues ↔ 0 ≤ h < 360 ∧ h `mod` 10 = 0.
Proof.
  unfold coarseHues. rewrite list_elem_of_fmap. split.
  - intros (k & -> & Hk). apply elem_of_seqZ in Hk.
    split; [lia|]. rewrite Z.mul_comm. apply Z_mod_mult.
  - intros [Hh Hmod]. exists (h `div` 10). split.
    + pose proof (Z_div_mod_eq_full h 10). lia.
    + apply elem_of_seqZ.
      pose proof (Z_div_mod_eq_full h 10). lia.
Qed.

Lemma NoDup_coarseHues : NoDup coarseHues.
Proof.
  unfold coarseHues. apply NoDup_fmap_2; [|apply NoDup_seqZ].
  intros x y ?. lia.
Qed.

(** The end of the range as the loop of Phase 3 uses it. *)
Definition unwrapped_end (range : boundaryRange) : Z :=
  if bool_decide (range_end range < range_start range)
  then range_end range + 360 else range_end range.

Lemma elem_of_fillHues_unwrapped (range : boundaryRange) (h : Z) :
  h ∈ fillHues range ↔
  ∃ k, range_start range < k < unwrapped_end range ∧ h = k `rem` 360.
Proof.
  unfold fillHues, unwrapped_end. rewrite list_elem_of_fmap. split.
  - intros (k & -> & Hk). apply elem_of_seqZ in Hk. exists k. split; [lia|done].
  - intros (k & Hk & ->). exists k. split; [done|]. apply elem_of_seqZ. lia.
Qed.

Lemma rem_360_small (k : Z) : 0 ≤ k < 360 → k `rem` 360 = k.
Proof. intros. apply Z.rem_small. lia. Qed.

Lemma rem_360_wrap (k : Z) : 360 ≤ k < 720 → k `rem` 360 = k - 360.
Proof.
  intros. rewrite Z.rem_mod_nonneg by lia.
  symmetry. apply (Z.mod_unique_pos k 360 1). all: lia.
Qed.

Lemma elem_of_fillHues (start end_ h : Z) :
  0 ≤ start < 360 → 0 ≤ end_ < 360 →
  h ∈ fillHues (mk_range start end_) ↔
  0 ≤ h < 360 ∧
  if bool_decide (end_ < start) then start < h ∨ h < end_
  else start < h < end_.
Proof.
  intros Hs He. rewrite elem_of_fillHues_unwrapped.
  unfold unwrapped_end. simpl. case_bool_decide.
  - split.
    + intros (k & Hk & ->).
      destruct (decide (k < 360)).
      * rewrite rem_360_small by lia. lia.
      * rewrite rem_360_wrap by lia. lia.
    + intros [Hh [Hlt|Hlt]].
      * exists h. rewrite rem_360_small by lia. lia.
      * exists (h + 360). rewrite rem_360_wrap by lia. lia.
  - split.
    + intros (k & Hk & ->). rewrite rem_360_small by lia. lia.
    + intros [Hh Hlt]. exists h. rewrite rem_360_small by lia. lia.
Qed.

Lemma NoDup_fillHues (start end_ : Z) :
  0 ≤ start < 360 → 0 ≤ end_ < 360 → NoDup (fillHues (mk_range start end_)).
Proof.
  intros Hs He. unfold fillHues. simpl.
  apply NoDup_fmap_2_strong; [|apply NoDup_seqZ].
  intros x y Hx Hy. apply elem_of_seqZ in Hx, Hy.
  case_bool_decide.
  - destruct (decide (x < 360)), (decide (y < 360));
      rewrite ?(rem_360_small x), ?(rem_360_small y),
              ?(rem_360_wrap x), ?(rem_360_wrap y) by lia; lia.
  - rewrite !rem_360_small by lia. done.
Qed.

Lemma length_fillHues (range : boundaryRange) :
  length (fillHues range)
  = Z.to_nat (unwrapped_end range - range_start range - 1).
Proof.
  unfold fillHues, unwrapped_end. rewrite length_fmap, length_seqZ.
  f_equal. lia.
Qed.

(** ** Phase 2: boundary detection *)

Lemma coarseHues_lookup_total (i : nat) :
  (i < 36)%nat → coarseHues !!! i = 10 * Z.of_nat i.
Proof.
  intros Hi. apply list_lookup_total_correct. unfold coarseHues.
  rewrite list_lookup_fmap, lookup_seqZ_lt by lia. done.
Qed.

Lemma length_coarseHues : length coarseHues = 36%nat.
Proof. reflexivity. Qed.

(** The test of the [if] of Phase 2, as a proposition. *)
Definition names_change (colorsByHue : gmap Z colorData) (start end_ : Z)
    : Prop :=
  ∃ currentColor nextColor,
    colorsByHue !! start = Some currentColor ∧
    colorsByHue !! end_ = Some nextColor ∧
    name currentColor ≠ "Unnamed" ∧
    name currentColor ≠ name nextColor.

Lemma elem_of_boundary_at (colorsByHue : gmap Z colorData) (i : nat)
    (range : boundaryRange) :
  (i < 36)%nat →
  range ∈ boundary_at colorsByHue i ↔
  range = mk_range (10 * Z.of_nat i) (10 * Z.of_nat ((i + 1) `mod` 36)) ∧
  names_change colorsByHue (range_start range) (range_end range).
Proof.
  intros Hi. unfold boundary_at, names_change.
  rewrite length_coarseHues.
  assert ((i + 1) `mod` 36 < 36)%nat as Hn by (apply Nat.mod_upper_bound; lia).
  rewrite !coarseHues_lookup_total by done.
  destruct (colorsByHue !! (10 * Z.of_nat i)) as [cur|] eqn:Hcur;
    destruct (colorsByHue !! (10 * Z.of_nat ((i + 1) `mod` 36)))
      as [next|] eqn:Hnext.
  - destruct (bool_decide (name cur ≠ "Unnamed")) eqn:H1;
      destruct (bool_decide (name cur ≠ name next)) eqn:H2; simpl.
    + apply bool_decide_eq_true in H1, H2. rewrite list_elem_of_singleton.
      split; [intros ->; simpl; eauto 10|]. by intros [-> _].
    + apply bool_decide_eq_false in H2. rewrite elem_of_nil.
      split; [done|]. intros [-> (c1 & c2 & ? & ? & ? & ?)].
      by simplify_eq/=.
    + apply bool_decide_eq_false in H1. rewrite elem_of_nil.
      split; [done|]. intros [-> (c1 & c2 & ? & ? & ? & ?)].
      by simplify_eq/=.
    + apply bool_decide_eq_false in H1. rewrite elem_of_nil.
      split; [done|]. intros [-> (c1 & c2 & ? & ? & ? & ?)].
      by simplify_eq/=.
  - rewrite elem_of_nil. split; [done|].
    intros [-> (c1 & c2 & ? & ? & ? & ?)]. by simplify_eq/=.
  - rewrite elem_of_nil. split; [done|].
    intros [-> (c1 & c2 & ? & ? & ? & ?)]. by simplify_eq/=.
  - rewrite elem_of_nil. split; [done|].
    intros [-> (c1 & c2 & ? & ? & ? & ?)]. by simplify_eq/=.
Qed.

(** What Phase 2 records: the pair of coarse point [i] and its cyclic
    successor, whenever the name at point [i] is not "Unnamed" and differs
    from the name at the successor. *)
Lemma elem_of_boundaryRanges (colorsByHue : gmap Z colorData)
    (range : boundaryRange) :
  range ∈ boundaryRanges colorsByHue ↔
  ∃ i, (i < 36)%nat ∧
    range = mk_range (10 * Z.of_nat i) (10 * Z.of_nat ((i + 1) `mod` 36)) ∧
    names_change colorsByHue (range_start range) (range_end range).
Proof.
  unfold boundaryRanges. rewrite length_coarseHues.
  rewrite list_elem_of_In, in_flat_map. split.
  - intros (i & Hi & Hin). apply in_seq in Hi.
    apply list_elem_of_In, elem_of_boundary_at in Hin; [|lia].
    exists i. split; [lia|done].
  - intros (i & Hi & Hr). exists i. split; [apply in_seq; lia|].
    apply list_elem_of_In, elem_of_boundary_at; done.
Qed.

(** Every recorded range joins a coarse point to its cyclic successor. *)
Lemma boundaryRanges_shape (colorsByHue : gmap Z colorData)
    (range : boundaryRange) :
  range ∈ boundaryRanges colorsByHue →
  0 ≤ range_start range < 360 ∧ 0 ≤ range_end range < 360 ∧
  range_start range `mod` 10 = 0 ∧
  range_end range = (range_start range + 10) `mod` 360.
Proof.
  intros (i & Hi & -> & _)%elem_of_boundaryRanges.
  cbn [range_start range_end].
  assert ((i + 1) `mod` 36 < 36)%nat as Hn by (apply Nat.mod_upper_bound; lia).
  split; [lia|]. split; [lia|]. split.
  - rewrite Z.mul_comm. apply Z_mod_mult.
  - destruct (decide (i = 35%nat)) as [->|Hne]; [done|].
    rewrite Nat.mod_small by lia.
    rewrite Z.mod_small by lia. lia.
Qed.

(** ** Phase 4: collection *)

Lemma collect_loop_spec (colors : list colorData) (seenNames : gset string)
    (distinctColors : list colorData) :
  ∃ added,
    collect_loop colors seenNames distinctColors = distinctColors ++ added ∧
    NoDup (name <$> added) ∧
    ∀ color, color ∈ added →
      name color ≠ "" ∧ name color ≠ "Unnamed" ∧ (name color ∉ seenNames) ∧
      (∃ before after,
         colors = before ++ color :: after ∧
         (∀ earlier, earlier ∈ before → name earlier ≠ name color)).
Proof.
  revert seenNames distinctColors.
  induction colors as [|color rest IH]; intros seen acc; simpl.
  { exists []. rewrite app_nil_r. split; [done|]. split; [constructor|].
    intros ? []%elem_of_nil. }
  assert (∀ added,
    NoDup (name <$> added) →
    (∀ c, c ∈ added →
       name c ≠ "" ∧ name c ≠ "Unnamed" ∧ (name c ∉ seen) ∧
       (∃ before after, rest = before ++ c :: after ∧
          (∀ earlier, earlier ∈ before → name earlier ≠ name c))) →
    (name color = "" ∨ name color = "Unnamed" ∨ name color ∈ seen) →
    ∀ c, c ∈ added →
       name c ≠ "" ∧ name c ≠ "Unnamed" ∧ (name c ∉ seen) ∧
       (∃ before after, color :: rest = before ++ c :: after ∧
          (∀ earlier, earlier ∈ before → name earlier ≠ name c))) as Hskip.
  { intros added _ Hadded Hcolor c Hc.
    destruct (Hadded c Hc) as (Hn1 & Hn2 & Hn3 & before & after & -> & Hb).
    repeat split; try done.
    exists (color :: before), after. split; [done|].
    intros earlier [->|Hin]%elem_of_cons; [|by apply Hb].
    intros Heq. rewrite Heq in Hcolor.
    destruct Hcolor as [?|[?|?]]; done. }
  case_bool_decide as Hsent.
  { destruct (IH seen acc) as (added & -> & Hnd & Hadded).
    exists added. split; [done|]. split; [done|].
    apply Hskip; [done|done|]. destruct Hsent; auto. }
  case_bool_decide as Hseen.
  { destruct (IH seen acc) as (added & -> & Hnd & Hadded).
    exists added. split; [done|]. split; [done|].
    apply Hskip; [done|done|]. auto. }
  destruct (IH ({[name color]} ∪ seen) (acc ++ [color]))
    as (added & -> & Hnd & Hadded).
  exists (color :: added). split; [by rewrite <-app_assoc|]. split.
  { rewrite fmap_cons. constructor; [|done].
    intros (c & Heq & Hc)%list_elem_of_fmap.
    destruct (Hadded c Hc) as (_ & _ & Hnotin & _).
    apply Hnotin. rewrite Heq. apply elem_of_union_l. by apply elem_of_singleton. }
  intros c [->|Hc]%elem_of_cons.
  { split; [by intros ?; apply Hsent; left|].
    split; [by intros ?; apply Hsent; right|]. split; [done|].
    exists [], rest. split; [done|]. intros ? []%elem_of_nil. }
  destruct (Hadded c Hc) as (Hn1 & Hn2 & Hn3 & before & after & -> & Hb).
  split; [done|]. split; [done|].
  split; [by intros ?; apply Hn3, elem_of_union_r|].
  exists (color :: before), after. split; [done|].
  intros earlier [->|Hin]%elem_of_cons; [|by apply Hb].
  intros Heq. apply Hn3. rewrite <-Heq.
  apply elem_of_union_l. by apply elem_of_singleton.
Qed.

Lemma omap_split {A B} (f : A → option B) (l : list A) (before after : list B)
    (y : B) :
  omap f l = before ++ y :: after →
  ∃ lbefore x lafter,
    l = lbefore ++ x :: lafter ∧ f x = Some y ∧
    omap f lbefore = before ∧ omap f lafter = after.
Proof.
  revert before. induction l as [|a l IH]; intros before Heq; simpl in Heq.
  { by destruct before. }
  destruct (f a) as [b0|] eqn:Hfa.
  - destruct before as [|b1 before]; simpl in Heq.
    + injection Heq as -> <-. exists [], a, l. by rewrite Hfa.
    + injection Heq as -> Heq.
      destruct (IH _ Heq) as (lb & x & la & -> & Hx & <- & <-).
      exists (a :: lb), x, la. simpl. by rewrite Hfa.
  - destruct (IH _ Heq) as (lb & x & la & -> & Hx & <- & <-).
    exists (a :: lb), x, la. simpl. by rewrite Hfa.
Qed.

Lemma sortedHues_sorted (colorsByHue : gmap Z colorData) :
  StronglySorted Z.le (sortedHues colorsByHue).
Proof. apply StronglySorted_merge_sort; apply _. Qed.

Lemma elem_of_sortedHues (colorsByHue : gmap Z colorData) (h : Z) :
  h ∈ sortedHues colorsByHue ↔ is_Some (colorsByHue !! h).
Proof.
  unfold sortedHues. rewrite merge_sort_Permutation.
  rewrite list_elem_of_fmap. split.
  - intros ([h' c] & -> & Hin). apply elem_of_map_to_list in Hin. eauto.
  - intros [c Hc]. exists (h, c). split; [done|].
    by apply elem_of_map_to_list.
Qed.

(** The three properties of the sequence Phase 4 returns. *)
Lemma collectDistinct_spec (colorsByHue : gmap Z colorData) :
  (∀ color, color ∈ collectDistinct colorsByHue →
     name color ≠ "" ∧ name color ≠ "Unnamed") ∧
  NoDup (name <$> collectDistinct colorsByHue) ∧
  (∀ color, color ∈ collectDistinct colorsByHue →
     ∃ h, colorsByHue !! h = Some color ∧
       ∀ h' color', colorsByHue !! h' = Some color' →
         name color' = name color → h ≤ h').
Proof.
  unfold collectDistinct.
  destruct (collect_loop_spec
              (omap (λ h, colorsByHue !! h) (sortedHues colorsByHue)) ∅ [])
    as (added & -> & Hnd & Hadded).
  simpl. split; [|split; [done|]].
  { intros c Hc. destruct (Hadded c Hc) as (? & ? & _). done. }
  intros c Hc.
  destruct (Hadded c Hc) as (_ & _ & _ & before & after & Hsplit & Hfirst).
  apply omap_split in Hsplit as (lb & h & la & Hsorted & Hh & <- & <-).
  exists h. split; [done|]. intros h' c' Hh' Hname.
  assert (h' ∈ sortedHues colorsByHue) as Hin
    by (apply elem_of_sortedHues; eauto).
  pose proof (sortedHues_sorted colorsByHue) as Hss.
  rewrite Hsorted in Hin, Hss.
  apply elem_of_app in Hin as [Hin|Hin].
  - exfalso. apply (Hfirst c'); [|done].
    apply list_elem_of_omap. eauto.
  - apply elem_of_cons in Hin as [->|Hin]; [lia|].
    apply StronglySorted_app in Hss as (_ & _ & Hss).
    apply StronglySorted_inv in Hss as [_ Hall].
    rewrite Forall_forall in Hall. by apply Hall.
Qed.

(** ** Settling a chunk of lookups *)

Section Runs.

Variable remote : nat → Z → Z → Z → fetch_result.
Variable signal : option AbortSignal.
Variables saturation lightness : Z.

Local Abbreviation key h := (cacheKey h saturation lightness).
Local Abbreviation triple h := (h, saturation, lightness).

(** What the [n]-th remote lookup, made for [hue], makes of its answer. *)
Definition response_of (n : nat) (hue : Z) : js_error + colorData :=
  fetchColorData_response hue saturation lightness
    (fetch remote signal n hue saturation lightness).

(** The answers to the lookups for [hues], the first being the [n]-th. *)
Fixpoint responses (n : nat) (hues : list Z)
    : list (js_error + colorData) :=
  match hues with
  | [] => []
  | hue :: rest => response_of n hue :: responses (S n) rest
  end.

(** The cache once those of the lookups that succeeded are stored. *)
Fixpoint stored (n : nat) (hues : list Z) (c : gmap string colorData)
    : gmap string colorData :=
  match hues with
  | [] => c
  | hue :: rest =>
      stored (S n) rest
        match response_of n hue with
        | inr colorData => <[key hue := colorData]> c
        | inl _ => c
        end
  end.

(** The lookups in flight for a chunk of uncached hues. *)
Fixpoint in_flight (n : nat) (hues : list Z) : list started :=
  match hues with
  | [] => []
  | hue :: rest =>
      InFlight hue (fetch remote signal n hue saturation lightness)
      :: in_flight (S n) rest
  end.

Lemma start_all_miss (chunk : list Z) (w : world) :
  (∀ h, h ∈ chunk → cache w !! key h = None) →
  start_all remote signal saturation lightness chunk w
  = ({| cache := cache w;
        requests := requests w ++ ((λ h, triple h) <$> chunk) |},
     in_flight (length (requests w)) chunk).
Proof.
  revert w. induction chunk as [|h chunk IH]; intros w Hmiss; simpl.
  { rewrite app_nil_r. by destruct w. }
  unfold fetchColorData_start. rewrite Hmiss by left.
  rewrite IH; simpl.
  - rewrite length_app, <-app_assoc. simpl.
    by replace (length (requests w) + 1)%nat with (S (length (requests w)))
      by lia.
  - intros h' Hh'. apply Hmiss. by right.
Qed.

Lemma finish_all_in_flight (n : nat) (hues : list Z) (w : world) :
  finish_all saturation lightness (in_flight n hues) w
  = ({| cache := stored n hues (cache w); requests := requests w |},
     responses n hues).
Proof.
  revert n w. induction hues as [|h hues IH]; intros n w; simpl.
  { by destruct w. }
  fold (response_of n h). destruct (response_of n h) as [e|cd]; simpl.
  - unfold throw. by rewrite IH.
  - by rewrite IH.
Qed.

(** A chunk of uncached hues: every hue is looked up, every lookup that
    succeeds is stored, and the promise is that of the answers. *)
Lemma Promise_all_miss (chunk : list Z) (w : world) :
  (∀ h, h ∈ chunk → cache w !! key h = None) →
  Promise_all remote signal saturation lightness chunk w
  = ({| cache := stored (length (requests w)) chunk (cache w);
        requests := requests w ++ ((λ h, triple h) <$> chunk) |},
     all_settled (responses (length (requests w)) chunk)).
Proof.
  intros Hmiss. unfold Promise_all.
  rewrite start_all_miss by done. by rewrite finish_all_in_flight.
Qed.

(** *** Facts about [responses], [stored] and [all_settled] *)

Lemma responses_app (n : nat) (hues1 hues2 : list Z) :
  responses n (hues1 ++ hues2)
  = responses n hues1 ++ responses (n + length hues1) hues2.
Proof.
  revert n. induction hues1 as [|h hues1 IH]; intros n; simpl.
  { by rewrite Nat.add_0_r. }
  rewrite IH. by replace (S n + length hues1)%nat with (n + S (length hues1))%nat
    by lia.
Qed.

Lemma stored_app (n : nat) (hues1 hues2 : list Z) (c : gmap string colorData) :
  stored n (hues1 ++ hues2) c
  = stored (n + length hues1) hues2 (stored n hues1 c).
Proof.
  revert n c. induction hues1 as [|h hues1 IH]; intros n c; simpl.
  { by rewrite Nat.add_0_r. }
  rewrite IH. by replace (S n + length hues1)%nat with (n + S (length hues1))%nat
    by lia.
Qed.

Lemma responses_lookup (n : nat) (hues : list Z) (j : nat) (h : Z) :
  hues !! j = Some h → responses n hues !! j = Some (response_of (n + j) h).
Proof.
  revert n j. induction hues as [|h' hues IH]; intros n [|j] Hj;
    simplify_eq/=.
  - by rewrite Nat.add_0_r.
  - rewrite (IH (S n) j) by done. do 2 f_equal. lia.
Qed.

Lemma length_responses (n : nat) (hues : list Z) :
  length (responses n hues) = length hues.
Proof. revert n. induction hues; intros; simpl; auto. Qed.

(** A key that is none of the keys looked up keeps its entry. *)
Lemma stored_lookup_other (n : nat) (hues : list Z)
    (c : gmap string colorData) (k : string) :
  (∀ h, h ∈ hues → k ≠ key h) → stored n hues c !! k = c !! k.
Proof.
  revert n c. induction hues as [|h hues IH]; intros n c Hk; simpl; [done|].
  rewrite IH by (intros; apply Hk; by right).
  destruct (response_of n h); [done|].
  rewrite lookup_insert_ne; [done|]. intros Heq. by apply (Hk h); [left|].
Qed.

Lemma stored_lookup_not_elem (n : nat) (hues : list Z)
    (c : gmap string colorData) (h : Z) :
  h ∉ hues → stored n hues c !! key h = c !! key h.
Proof.
  intros Hh. apply stored_lookup_other. intros h' Hh' Heq.
  apply cacheKey_inj in Heq. by subst.
Qed.

(** Storing the answers to lookups of uncached hues only adds entries. *)
Lemma stored_subseteq (n : nat) (hues : list Z) (c : gmap string colorData) :
  (∀ h, h ∈ hues → c !! key h = None) → c ⊆ stored n hues c.
Proof.
  intros Hmiss. apply map_subseteq_spec. intros k v Hk.
  rewrite stored_lookup_other; [done|].
  intros h Hh ->. rewrite Hmiss in Hk; done.
Qed.

(** Each lookup that succeeded is in the cache afterwards, when no hue is
    looked up twice. *)
Lemma stored_lookup_success (n : nat) (hues : list Z)
    (c : gmap string colorData) (j : nat) (h : Z) (v : colorData) :
  NoDup hues → hues !! j = Some h → response_of (n + j) h = inr v →
  stored n hues c !! key h = Some v.
Proof.
  revert n c j. induction hues as [|h' hues IH]; intros n c [|j] Hnd Hj Hv;
    simplify_eq/=; apply NoDup_cons in Hnd as [Hnotin Hnd].
  - rewrite Nat.add_0_r in Hv. rewrite Hv.
    rewrite stored_lookup_not_elem by done. apply lookup_insert_eq.
  - apply (IH (S n) _ j); [done|done|].
    by replace (S n + j)%nat with (n + S j)%nat by lia.
Qed.

(** A lookup that failed leaves its key as it was. *)
Lemma stored_lookup_failure (n : nat) (hues : list Z)
    (c : gmap string colorData) (j : nat) (h : Z) (e : js_error) :
  NoDup hues → hues !! j = Some h → response_of (n + j) h = inl e →
  stored n hues c !! key h = c !! key h.
Proof.
  revert n c j. induction hues as [|h' hues IH]; intros n c [|j] Hnd Hj He;
    simplify_eq/=; apply NoDup_cons in Hnd as [Hnotin Hnd].
  - rewrite Nat.add_0_r in He. rewrite He.
    by rewrite stored_lookup_not_elem.
  - rewrite (IH (S n) _ j); [|done|done|].
    + destruct (response_of n h'); [done|].
      apply lookup_insert_ne, cacheKey_ne.
      intros ->. apply Hnotin. by eapply list_elem_of_lookup_2.
    + by replace (S n + j)%nat with (n + S j)%nat by lia.
Qed.

Lemma all_settled_app (os1 os2 : list (js_error + colorData)) :
  all_settled (os1 ++ os2)
  = match all_settled os1 with
    | inl e => inl e
    | inr vs1 =>
        match all_settled os2 with
        | inl e => inl e
        | inr vs2 => inr (vs1 ++ vs2)
        end
    end.
Proof.
  induction os1 as [|[e|v] os1 IH]; simpl.
  - by destruct (all_settled os2).
  - done.
  - rewrite IH. destruct (all_settled os1); [done|].
    by destruct (all_settled os2).
Qed.

(** [Promise.all] fulfils exactly when every promise does, with the values
    in the order of the promises. *)
Lemma all_settled_inr (os : list (js_error + colorData))
    (vs : list colorData) :
  all_settled os = inr vs ↔ os = inr <$> vs.
Proof.
  revert vs. induction os as [|[e|v] os IH]; intros vs; simpl.
  - split; [by intros [= <-]|]. by destruct vs.
  - split; [done|]. by destruct vs.
  - destruct (all_settled os) as [e|vs'] eqn:Hos.
    + split; [done|]. destruct vs as [|v' vs]; [done|].
      intros [= -> Hvs]. by apply IH in Hvs.
    + split.
      * intros [= <-]. simpl. f_equal. by apply IH.
      * destruct vs as [|v' vs]; [done|]. intros [= -> Hvs].
        apply IH in Hvs. by simplify_eq.
Qed.

(** [Promise.all] rejects exactly when some promise does, and then with
    the error of one of them. *)
Lemma all_settled_inl (os : list (js_error + colorData)) (e : js_error) :
  all_settled os = inl e → inl e ∈ os.
Proof.
  induction os as [|[e'|v] os IH]; simpl; [done| |].
  - intros [= ->]. by left.
  - destruct (all_settled os); [|done]. intros [= ->]. right. by apply IH.
Qed.

Lemma all_settled_rejects (os : list (js_error + colorData)) (e : js_error) :
  inl e ∈ os → ∃ e', all_settled os = inl e'.
Proof.
  induction os as [|[e'|v] os IH]; simpl.
  - by intros ?%elem_of_nil.
  - eauto.
  - intros [?|Hin]%elem_of_cons; [done|].
    destruct (IH Hin) as [e' ->]. eauto.
Qed.

Lemma fetchColorData_response_fields (h : Z) (res : fetch_result)
    (v : colorData) :
  fetchColorData_response h saturation lightness res = inr v →
  hue v = h ∧ ColorApi.saturation v = saturation
  ∧ ColorApi.lightness v = lightness.
Proof.
  unfold fetchColorData_response. intros Hv.
  repeat case_match; by simplify_eq/=.
Qed.

(** The loop needs no more iterations than there are hues left: any two
    amounts of fuel that cover them give the same run. *)
Lemma chunk_loop_fuel (fuel fuel' : nat) (batch : list Z) (i : nat)
    (results : list colorData) (w : world) :
  (length batch - i ≤ fuel)%nat → (length batch - i ≤ fuel')%nat →
  chunk_loop remote fuel signal saturation lightness batch i results w
  = chunk_loop remote fuel' signal saturation lightness batch i results w.
Proof.
  revert fuel' i results w. induction fuel as [|fuel IH];
    intros [|fuel'] i results w Hf Hf'; simpl; try done.
  - by rewrite bool_decide_eq_false_2 by lia.
  - by rewrite bool_decide_eq_false_2 by lia.
  - case_bool_decide; [|done]. unfold bind.
    destruct (Promise_all remote signal saturation lightness
                (take BATCH_SIZE (drop i batch)) w) as [w1 [e|vs]]; [done|].
    apply IH; unfold BATCH_SIZE; lia.
Qed.

(** ** A stretch of a run *)

(** The hues not yet in the cache [c]. *)
Definition uncached (c : gmap string colorData) (h : Z) : Prop :=
  c !! key h = None.

Local Instance uncached_dec c h : Decision (uncached c h).
Proof. unfold uncached. apply _. Defined.

(** [lookups w w' hues]: between [w] and [w'] exactly the remote lookups for
    [hues] were issued, in this order, none twice and each for a key that
    was not cached in [w]; the cache of [w'] is that of [w] with the answers
    of the successful ones stored. *)
Record lookups (w w' : world) (hues : list Z) : Prop := mk_lookups {
  lookups_requests :
    requests w' = requests w ++ ((λ h, triple h) <$> hues);
  lookups_cache :
    cache w' = stored (length (requests w)) hues (cache w);
  lookups_NoDup : NoDup hues;
  lookups_miss : ∀ h, h ∈ hues → uncached (cache w) h
}.

Lemma lookups_nil (w : world) : lookups w w [].
Proof.
  split; simpl; [by rewrite app_nil_r|done|constructor|].
  by intros ? ?%elem_of_nil.
Qed.

Lemma lookups_nil_inv (w w' : world) : lookups w w' [] → w' = w.
Proof.
  intros [Hr Hc _ _]. simpl in *. rewrite app_nil_r in Hr.
  destruct w, w'; simpl in *; by subst.
Qed.

Lemma lookups_subseteq (w w' : world) (hues : list Z) :
  lookups w w' hues → cache w ⊆ cache w'.
Proof. intros [_ -> _ Hmiss]. by apply stored_subseteq. Qed.

Lemma lookups_length (w w' : world) (hues : list Z) :
  lookups w w' hues →
  length (requests w') = (length (requests w) + length hues)%nat.
Proof. intros [-> _ _ _]. by rewrite length_app, length_fmap. Qed.

(** Every lookup of the stretch that succeeded is cached at its end. *)
Lemma lookups_success (w w' : world) (hues : list Z) (j : nat) (h : Z)
    (v : colorData) :
  lookups w w' hues → hues !! j = Some h →
  response_of (length (requests w) + j) h = inr v →
  cache w' !! key h = Some v.
Proof. intros [_ -> Hnd _] Hj Hv. by eapply stored_lookup_success. Qed.

Lemma lookups_all_success (w w' : world) (hues : list Z)
    (vs : list colorData) :
  lookups w w' hues →
  all_settled (responses (length (requests w)) hues) = inr vs →
  ∀ h, h ∈ hues → is_Some (cache w' !! key h).
Proof.
  intros Hl Hvs h Hh. apply all_settled_inr in Hvs.
  apply list_elem_of_lookup in Hh as [j Hj].
  pose proof (responses_lookup (length (requests w)) _ _ _ Hj) as Hr.
  rewrite Hvs, list_lookup_fmap in Hr.
  destruct (vs !! j) as [v|] eqn:Hv; simplify_eq/=.
  exists v. by eapply lookups_success.
Qed.

(** Two stretches compose when the lookups of the first all succeeded. *)
Lemma lookups_app (w w1 w2 : world) (hues1 hues2 : list Z)
    (vs : list colorData) :
  lookups w w1 hues1 → lookups w1 w2 hues2 →
  all_settled (responses (length (requests w)) hues1) = inr vs →
  lookups w w2 (hues1 ++ hues2).
Proof.
  intros H1 H2 Hvs.
  pose proof (lookups_all_success _ _ _ _ H1 Hvs) as Hcached.
  pose proof (lookups_subseteq _ _ _ H1) as Hsub.
  pose proof (lookups_length _ _ _ H1) as Hlen.
  destruct H1 as [Hr1 Hc1 Hnd1 Hm1], H2 as [Hr2 Hc2 Hnd2 Hm2]. split.
  - by rewrite Hr2, Hr1, fmap_app, app_assoc.
  - by rewrite Hc2, Hc1, stored_app, Hlen.
  - apply NoDup_app. split; [done|]. split; [|done].
    intros h Hh1 Hh2. destruct (Hcached h Hh1) as [v Hv].
    specialize (Hm2 h Hh2). unfold uncached in Hm2. by rewrite Hv in Hm2.
  - intros h [Hh|Hh]%elem_of_app; [by apply Hm1|].
    specialize (Hm2 h Hh). unfold uncached in *.
    destruct (cache w !! key h) as [v|] eqn:Hv; [|done].
    eapply lookup_weaken in Hv; [|done]. by rewrite Hv in Hm2.
Qed.

(** The outcome of a stretch: the first failure among its lookups, or all
    the values. *)
Definition stretch_result {A} (w : world) (hues : list Z)
    (out : js_error + A) (on_success : A → Prop) : Prop :=
  match all_settled (responses (length (requests w)) hues) with
  | inl e => out = inl e
  | inr _ => ∃ a, out = inr a ∧ on_success a
  end.

(** ** The chunked loop *)

Lemma chunk_loop_spec (fuel : nat) (batch : list Z) (i : nat)
    (results : list colorData) (w w' : world)
    (out : js_error + list colorData) :
  NoDup batch →
  (∀ h, h ∈ drop i batch → uncached (cache w) h) →
  (length batch - i ≤ fuel)%nat →
  chunk_loop remote fuel signal saturation lightness batch i results w
    = (w', out) →
  ∃ hues,
    lookups w w' hues ∧ hues `prefix_of` drop i batch ∧
    match all_settled (responses (length (requests w)) hues) with
    | inl e => out = inl e
    | inr vs => hues = drop i batch ∧ out = inr (results ++ vs)
    end.
Proof.
  revert i results w. induction fuel as [|fuel IH];
    intros i results w Hnd Hmiss Hfuel Hrun; simpl in Hrun.
  { injection Hrun as <- <-. exists []. split; [apply lookups_nil|].
    rewrite drop_ge by lia. split; [done|]. simpl. by rewrite app_nil_r. }
  case_bool_decide as Hi; cycle 1.
  { injection Hrun as <- <-. exists []. split; [apply lookups_nil|].
    rewrite drop_ge by lia. split; [done|]. simpl. by rewrite app_nil_r. }
  set (chunk := take BATCH_SIZE (drop i batch)) in *.
  assert (drop i batch = chunk ++ drop (i + BATCH_SIZE) batch) as Hsplit.
  { unfold chunk. by rewrite <-drop_drop, take_drop. }
  assert (NoDup (drop i batch)) as Hnd'.
  { eapply sublist_NoDup; [done|apply sublist_drop]. }
  rewrite Hsplit in Hnd'. apply NoDup_app in Hnd' as (Hndc & Hdisj & _).
  assert (∀ h, h ∈ chunk → uncached (cache w) h) as Hmissc.
  { intros h Hh. apply Hmiss. rewrite Hsplit. apply elem_of_app. by left. }
  unfold bind in Hrun. rewrite Promise_all_miss in Hrun by done.
  set (w1 := {| cache := stored (length (requests w)) chunk (cache w);
                requests := requests w ++ ((λ h, triple h) <$> chunk) |})
    in *.
  assert (lookups w w1 chunk) as Hl1 by (by split).
  destruct (all_settled (responses (length (requests w)) chunk))
    as [e|vs] eqn:Hvs.
  { injection Hrun as <- <-. exists chunk. split; [done|]. split.
    - rewrite Hsplit. by apply prefix_app_r.
    - by rewrite Hvs. }
  apply IH in Hrun as (hues & Hl2 & Hpre & Hout);
    [|done| |unfold BATCH_SIZE; lia].
  - exists (chunk ++ hues). split; [by eapply lookups_app|]. split.
    + rewrite Hsplit. by apply prefix_app.
    + rewrite responses_app, all_settled_app, Hvs.
      rewrite <-(lookups_length _ _ _ Hl1).
      destruct (all_settled (responses (length (requests w1)) hues));
        [done|].
      destruct Hout as [-> ->]. by rewrite Hsplit, app_assoc.
  - intros h Hh. unfold uncached. simpl.
    rewrite stored_lookup_not_elem.
    + apply Hmiss. rewrite Hsplit. apply elem_of_app. by right.
    + intros Hc. by apply (Hdisj h).
Qed.

(** ** fetchBatch *)

(** [colorsByHue] once the cached objects of [hues] are set in it. *)
Definition with_cached (c : gmap string colorData) (hues : list Z)
    (colorsByHue : gmap Z colorData) : gmap Z colorData :=
  foldl (λ m h, match c !! key h with
                | Some cached => <[h := cached]> m
                | None => m
                end) colorsByHue hues.

Lemma split_cached_eq (c : gmap string colorData) (hues batch : list Z)
    (colorsByHue : gmap Z colorData) :
  split_cached c saturation lightness hues batch colorsByHue
  = (batch ++ filter (uncached c) hues, with_cached c hues colorsByHue).
Proof.
  revert batch colorsByHue.
  induction hues as [|h hues IH]; intros batch m; simpl.
  { by rewrite app_nil_r. }
  destruct (c !! key h) as [v|] eqn:Hh.
  - rewrite IH, filter_cons_False; [done|]. unfold uncached. by rewrite Hh.
  - rewrite IH, filter_cons_True by done. by rewrite <-app_assoc.
Qed.

Lemma with_cached_lookup (c : gmap string colorData) (hues : list Z)
    (colorsByHue : gmap Z colorData) (h : Z) :
  with_cached c hues colorsByHue !! h
  = if decide (h ∈ hues ∧ is_Some (c !! key h)) then c !! key h
    else colorsByHue !! h.
Proof.
  revert colorsByHue. unfold with_cached.
  induction hues as [|h' hues IH]; intros m; simpl.
  { destruct (decide (h ∈ [] ∧ is_Some (c !! key h))) as [[Hin _]|]; [|done].
    by apply elem_of_nil in Hin. }
  rewrite IH. destruct (decide (h ∈ hues ∧ is_Some (c !! key h))) as [[Hin Hs]|Hn].
  - rewrite decide_True; [done|]. split; [by right|done].
  - destruct (decide (h = h')) as [->|Hne].
    + destruct (c !! key h') as [v|] eqn:Hv.
      * rewrite lookup_insert_eq. rewrite decide_True; [done|].
        split; [by left|eauto].
      * rewrite decide_False; [done|]. by intros [_ [? ?]].
    + rewrite decide_False.
      * destruct (c !! key h'); [|done]. by rewrite lookup_insert_ne.
      * intros [[->|Hin]%elem_of_cons Hs]; [done|]. by apply Hn.
Qed.

Lemma store_results_not_elem (n : nat) (hues : list Z) (vs : list colorData)
    (colorsByHue : gmap Z colorData) (h : Z) :
  responses n hues = inr <$> vs → h ∉ hues →
  store_results vs colorsByHue !! h = colorsByHue !! h.
Proof.
  revert n vs colorsByHue. unfold store_results.
  induction hues as [|h' hues IH]; intros n [|v vs] m Hvs Hh;
    simplify_eq/=; [done|].
  apply fetchColorData_response_fields in H as (Hhue & _).
  rewrite (IH (S n)); [|done|]. 
  - rewrite lookup_insert_ne; [done|]. rewrite Hhue. intros ->.
    apply Hh. by left.
  - intros Hin. apply Hh. by right.
Qed.

Lemma store_results_lookup (n : nat) (hues : list Z) (vs : list colorData)
    (colorsByHue : gmap Z colorData) (j : nat) (h : Z) :
  responses n hues = inr <$> vs → NoDup hues → hues !! j = Some h →
  store_results vs colorsByHue !! h = vs !! j.
Proof.
  revert n vs colorsByHue j. unfold store_results.
  induction hues as [|h' hues IH]; intros n [|v vs] m [|j] Hvs Hnd Hj;
    simplify_eq/=; apply NoDup_cons in Hnd as [Hnotin Hnd].
  - apply fetchColorData_response_fields in H as (Hhue & _).
    fold (store_results vs (<[hue v := v]> m)).
    rewrite (store_results_not_elem (S n) hues) by done.
    rewrite Hhue. apply lookup_insert_eq.
  - by apply (IH (S n)).
Qed.

Lemma fetchBatch_spec (hues : list Z) (colorsByHue : gmap Z colorData)
    (w w' : world) (out : js_error + gmap Z colorData) :
  NoDup hues →
  fetchBatch remote signal saturation lightness hues colorsByHue w
    = (w', out) →
  ∃ looked_up,
    lookups w w' looked_up ∧
    looked_up `prefix_of` filter (uncached (cache w)) hues ∧
    stretch_result w looked_up out (λ colorsByHue',
      looked_up = filter (uncached (cache w)) hues ∧
      (∀ h, h ∈ hues → is_Some (cache w' !! key h)) ∧
      (∀ h, colorsByHue' !! h
            = if decide (h ∈ hues) then cache w' !! key h
              else colorsByHue !! h)).
Proof.
  intros Hnd Hrun. unfold fetchBatch in Hrun.
  rewrite split_cached_eq in Hrun. simpl in Hrun.
  set (batch := filter (uncached (cache w)) hues) in *.
  assert (∀ h, with_cached (cache w) hues colorsByHue !! h
               = if decide (h ∈ hues ∧ ¬ uncached (cache w) h)
                 then cache w !! key h else colorsByHue !! h) as Hwc.
  { intros h. rewrite with_cached_lookup. unfold uncached.
    destruct (decide (h ∈ hues ∧ is_Some (cache w !! key h))) as [[? Hs]|Hn].
    - rewrite decide_True; [done|]. split; [done|].
      intros Hnone. rewrite Hnone in Hs. by destruct Hs.
    - rewrite decide_False; [done|]. intros [? Hs]. apply Hn. split; [done|].
      by destruct (cache w !! key h); [eauto|]. }
  destruct batch as [|h0 batch0] eqn:Hbatch.
  { injection Hrun as <- <-. exists []. split; [apply lookups_nil|].
    split; [done|]. unfold stretch_result. simpl. eexists. split; [done|].
    split; [done|].
    assert (∀ h, h ∈ hues → ¬ uncached (cache w) h) as Hall.
    { intros h Hh Hu.
      assert (h ∈ filter (uncached (cache w)) hues) as Hin
        by (by apply list_elem_of_filter).
      fold batch in Hin. rewrite Hbatch in Hin. by apply elem_of_nil in Hin. }
    split.
    - intros h Hh. specialize (Hall h Hh). unfold uncached in Hall.
      by destruct (cache w !! key h); [eauto|].
    - intros h. rewrite Hwc. destruct (decide (h ∈ hues)) as [Hh|Hh].
      + rewrite decide_True; [done|]. split; [done|]. by apply Hall.
      + rewrite decide_False; [done|]. by intros [? _]. }
  rewrite <-Hbatch in *. clear Hbatch h0 batch0.
  unfold bind in Hrun.
  destruct (chunk_loop remote (length batch) signal saturation lightness
              batch 0 [] w) as [w1 r] eqn:Hloop.
  assert (NoDup batch) as Hndb by (by apply NoDup_filter).
  apply chunk_loop_spec in Hloop as (looked & Hl & Hpre & Hres);
    [|done| |lia]; cycle 1.
  { intros h Hh. rewrite drop_0 in Hh.
    by apply list_elem_of_filter in Hh as [? _]. }
  rewrite drop_0 in Hpre, Hres.
  exists looked. unfold stretch_result.
  destruct (all_settled (responses (length (requests w)) looked))
    as [e|vs] eqn:Hvs.
  { subst r. injection Hrun as <- <-. done. }
  destruct Hres as [-> ->]. injection Hrun as <- <-.
  split; [done|]. split; [done|]. eexists. split; [done|]. split; [done|].
  pose proof (lookups_subseteq _ _ _ Hl) as Hsub.
  pose proof (lookups_all_success _ _ _ _ Hl Hvs) as Hcached.
  split.
  - intros h Hh. destruct (decide (uncached (cache w) h)) as [Hu|Hu].
    + apply Hcached. by apply list_elem_of_filter.
    + unfold uncached in Hu. destruct (cache w !! key h) as [v|] eqn:Hv;
        [|done]. exists v. by eapply lookup_weaken.
  - intros h. simpl. apply all_settled_inr in Hvs.
    destruct (decide (h ∈ batch)) as [Hb|Hb].
    + pose proof Hb as Hb'. apply list_elem_of_filter in Hb' as [Hu Hh].
      rewrite decide_True by done.
      apply list_elem_of_lookup in Hb as [j Hj].
      rewrite (store_results_lookup _ _ _ _ _ _ Hvs Hndb Hj).
      pose proof (responses_lookup (length (requests w)) _ _ _ Hj) as Hr.
      rewrite Hvs, list_lookup_fmap in Hr.
      destruct (vs !! j) as [v|] eqn:Hv; simplify_eq/=.
      symmetry. by eapply lookups_success.
    + rewrite (store_results_not_elem _ _ _ _ _ Hvs Hb). rewrite Hwc.
      destruct (decide (h ∈ hues)) as [Hh|Hh].
      * assert (¬ uncached (cache w) h) as Hu.
        { intros Hu. apply Hb. by apply list_elem_of_filter. }
        rewrite decide_True by done. unfold uncached in Hu.
        destruct (cache w !! key h) as [v|] eqn:Hv; [|done].
        symmetry. by eapply lookup_weaken.
      * rewrite decide_False; [done|]. by intros [? _].
Qed.

(** A batch whose hues are all cached issues no lookup at all. *)
Lemma fetchBatch_cached (hues : list Z) (colorsByHue : gmap Z colorData)
    (w : world) :
  (∀ h, h ∈ hues → is_Some (cache w !! key h)) →
  fetchBatch remote signal saturation lightness hues colorsByHue w
  = (w, inr (with_cached (cache w) hues colorsByHue)).
Proof.
  intros Hall. unfold fetchBatch. rewrite split_cached_eq. simpl.
  replace (filter (uncached (cache w)) hues) with (@nil Z); [done|].
  symmetry. induction hues as [|h hues IH]; [done|].
  rewrite filter_cons_False.
  - apply IH. intros h' Hh'. apply Hall. by right.
  - unfold uncached. destruct (Hall h) as [v ->]; [by left|done].
Qed.

(** ** The session map *)

(** [resolved colorsByHue c hues]: every hue of [hues] is cached in [c], and
    [colorsByHue] maps exactly these hues, each to its cached object. *)
Definition resolved (colorsByHue : gmap Z colorData)
    (c : gmap string colorData) (hues : list Z) : Prop :=
  (∀ h, h ∈ hues → is_Some (c !! key h)) ∧
  (∀ h, colorsByHue !! h = if decide (h ∈ hues) then c !! key h else None).

Lemma resolved_nil (c : gmap string colorData) : resolved ∅ c [].
Proof.
  split; [by intros ? ?%elem_of_nil|]. intros h. rewrite lookup_empty.
  by rewrite decide_False by apply not_elem_of_nil.
Qed.

Lemma resolved_unique (m1 m2 : gmap Z colorData) (c : gmap string colorData)
    (hues : list Z) :
  resolved m1 c hues → resolved m2 c hues → m1 = m2.
Proof. intros [_ H1] [_ H2]. apply map_eq. intros h. by rewrite H1, H2. Qed.

Lemma resolved_weaken (m : gmap Z colorData) (c c' : gmap string colorData)
    (hues : list Z) :
  resolved m c hues → c ⊆ c' → resolved m c' hues.
Proof.
  intros [Hc Hm] Hsub. split.
  - intros h Hh. destruct (Hc h Hh) as [v Hv]. exists v.
    by eapply lookup_weaken.
  - intros h. rewrite Hm. case_decide as Hh; [|done].
    destruct (Hc h Hh) as [v Hv]. rewrite Hv. symmetry.
    by eapply lookup_weaken.
Qed.

Lemma resolved_app (m m' : gmap Z colorData) (c c' : gmap string colorData)
    (hues0 hues : list Z) :
  resolved m c hues0 → c ⊆ c' →
  (∀ h, h ∈ hues → is_Some (c' !! key h)) →
  (∀ h, m' !! h = if decide (h ∈ hues) then c' !! key h else m !! h) →
  resolved m' c' (hues0 ++ hues).
Proof.
  intros Hres Hsub Hc Hm'.
  destruct (resolved_weaken _ _ _ _ Hres Hsub) as [Hc0 Hm]. split.
  - intros h [?|?]%elem_of_app; auto.
  - intros h. rewrite Hm', Hm.
    destruct (decide (h ∈ hues)) as [Hh|Hh].
    + rewrite decide_True; [done|]. apply elem_of_app. by right.
    + destruct (decide (h ∈ hues0)) as [Hh0|Hh0].
      * rewrite decide_True; [done|]. apply elem_of_app. by left.
      * rewrite decide_False; [done|]. by intros [?|?]%elem_of_app.
Qed.

Lemma with_cached_app (c : gmap string colorData) (hues1 hues2 : list Z)
    (m : gmap Z colorData) :
  with_cached c (hues1 ++ hues2) m = with_cached c hues2 (with_cached c hues1 m).
Proof. unfold with_cached. by rewrite foldl_app. Qed.

Lemma with_cached_resolved (c : gmap string colorData) (hues : list Z) :
  (∀ h, h ∈ hues → is_Some (c !! key h)) →
  resolved (with_cached c hues ∅) c hues.
Proof.
  intros Hc. split; [done|]. intros h. rewrite with_cached_lookup.
  destruct (decide (h ∈ hues)) as [Hh|Hh].
  - rewrite decide_True; [done|]. split; auto.
  - rewrite decide_False; [by rewrite lookup_empty|]. by intros [? _].
Qed.

Lemma filter_ext_elem {A} (P Q : A → Prop) `{∀ x, Decision (P x)}
    `{∀ x, Decision (Q x)} (l : list A) :
  (∀ x, x ∈ l → P x ↔ Q x) → filter P l = filter Q l.
Proof.
  induction l as [|x l IH]; intros Hext; [done|].
  rewrite !filter_cons. rewrite IH by (intros; apply Hext; by right).
  destruct (decide (P x)) as [HP|HP], (decide (Q x)) as [HQ|HQ]; try done.
  - exfalso. apply HQ, Hext; [by left|done].
  - exfalso. apply HP, Hext; [by left|done].
Qed.

(** Hues that were not looked up meanwhile are uncached after a stretch
    exactly when they were uncached before it. *)
Lemma filter_uncached_later (w w1 : world) (looked_up later : list Z) :
  lookups w w1 looked_up →
  (∀ h, h ∈ looked_up → h ∉ later) →
  filter (uncached (cache w1)) later = filter (uncached (cache w)) later.
Proof.
  intros [_ -> _ _] Hdisj. apply filter_ext_elem. intros h Hh.
  unfold uncached. rewrite stored_lookup_not_elem; [done|].
  intros Hin. by apply (Hdisj h).
Qed.

(** Sequencing two stretches whose first one succeeded. *)
Lemma stretch_result_app {A} (w w1 : world) (hues1 hues2 : list Z)
    (vs : list colorData) (out : js_error + A) (P Q : A → Prop) :
  lookups w w1 hues1 →
  all_settled (responses (length (requests w)) hues1) = inr vs →
  stretch_result w1 hues2 out P →
  (∀ a, P a → Q a) →
  stretch_result w (hues1 ++ hues2) out Q.
Proof.
  intros Hl Hvs Hres HPQ. unfold stretch_result in *.
  rewrite responses_app, all_settled_app, Hvs.
  rewrite <-(lookups_length _ _ _ Hl).
  destruct (all_settled (responses (length (requests w1)) hues2)); [done|].
  destruct Hres as (a & -> & Ha). eauto.
Qed.

(** ** Phase 3 *)

Lemma fill_loop_spec (ranges : list boundaryRange)
    (colorsByHue : gmap Z colorData) (hues0 : list Z) (w w' : world)
    (out : js_error + gmap Z colorData) :
  NoDup (flat_map fillHues ranges) →
  resolved colorsByHue (cache w) hues0 →
  fill_loop remote signal saturation lightness ranges colorsByHue w
    = (w', out) →
  ∃ looked_up,
    lookups w w' looked_up ∧
    looked_up `prefix_of`
      filter (uncached (cache w)) (flat_map fillHues ranges) ∧
    stretch_result w looked_up out (λ colorsByHue',
      looked_up = filter (uncached (cache w)) (flat_map fillHues ranges) ∧
      resolved colorsByHue' (cache w') (hues0 ++ flat_map fillHues ranges)).
Proof.
  revert colorsByHue hues0 w.
  induction ranges as [|range ranges IH]; intros m hues0 w Hnd Hres Hrun;
    simpl in Hrun.
  { injection Hrun as <- <-. exists []. split; [apply lookups_nil|].
    split; [done|]. unfold stretch_result. simpl. eexists.
    split; [done|]. split; [done|]. by rewrite app_nil_r. }
  simpl in Hnd. apply NoDup_app in Hnd as (Hnd1 & Hdisj & Hnd2).
  assert (fetchBatch remote signal saturation lightness (fillHues range) m w
          = (w, inr m) ∨ (0 < length (fillHues range))%nat) as Hcase.
  { destruct (fillHues range); [by left|right; simpl; lia]. }
  assert (∃ w1 out1,
    fetchBatch remote signal saturation lightness (fillHues range) m w
      = (w1, out1) ∧
    match out1 with
    | inl e => w' = w1 ∧ out = inl e
    | inr m1 =>
        fill_loop remote signal saturation lightness ranges m1 w1 = (w', out)
    end) as (w1 & out1 & Hbatch & Hrest).
  { case_bool_decide as Hlen.
    - unfold bind in Hrun.
      destruct (fetchBatch remote signal saturation lightness
                  (fillHues range) m w) as [w1 [e|m1]] eqn:Hb.
      + injection Hrun as <- <-. by exists w1, (inl e).
      + by exists w1, (inr m1).
    - destruct Hcase as [Hb|?]; [|lia]. by exists w, (inr m). }
  clear Hrun Hcase.
  apply fetchBatch_spec in Hbatch as (looked1 & Hl1 & Hpre1 & Hres1);
    [|done].
  simpl. rewrite filter_app. unfold stretch_result in Hres1.
  destruct (all_settled (responses (length (requests w)) looked1))
    as [e|vs] eqn:Hvs.
  { subst out1. destruct Hrest as [-> ->]. exists looked1.
    split; [done|]. split; [by apply prefix_app_r|].
    unfold stretch_result. by rewrite Hvs. }
  destruct Hres1 as (m1 & -> & -> & Hcached & Hm1).
  pose proof (lookups_subseteq _ _ _ Hl1) as Hsub.
  apply (IH m1 (hues0 ++ fillHues range)) in Hrest
    as (looked2 & Hl2 & Hpre2 & Hres2);
    [|done|by eapply resolved_app].
  assert (filter (uncached (cache w1)) (flat_map fillHues ranges)
          = filter (uncached (cache w)) (flat_map fillHues ranges)) as Heq.
  { eapply filter_uncached_later; [done|].
    intros h [_ Hh]%list_elem_of_filter. by apply Hdisj. }
  rewrite Heq in Hpre2, Hres2.
  exists (filter (uncached (cache w)) (fillHues range) ++ looked2).
  split; [by eapply lookups_app|]. split; [by apply prefix_app|].
  eapply stretch_result_app; [done..|].
  intros m' [-> Hres']. split; [done|]. by rewrite app_assoc.
Qed.

Lemma fill_loop_cached (ranges : list boundaryRange)
    (colorsByHue : gmap Z colorData) (w : world) :
  (∀ h, h ∈ flat_map fillHues ranges → is_Some (cache w !! key h)) →
  fill_loop remote signal saturation lightness ranges colorsByHue w
  = (w, inr (with_cached (cache w) (flat_map fillHues ranges) colorsByHue)).
Proof.
  revert colorsByHue. induction ranges as [|range ranges IH];
    intros m Hall; simpl; [done|].
  assert (∀ h, h ∈ fillHues range → is_Some (cache w !! key h)) as H1.
  { intros h Hh. apply Hall. simpl. apply elem_of_app. by left. }
  assert (∀ h, h ∈ flat_map fillHues ranges → is_Some (cache w !! key h))
    as H2.
  { intros h Hh. apply Hall. simpl. apply elem_of_app. by right. }
  rewrite with_cached_app. case_bool_decide as Hlen.
  - unfold bind. rewrite fetchBatch_cached by done. by apply IH.
  - destruct (fillHues range); [|simpl in Hlen; lia]. by apply IH.
Qed.

(** ** Phases 1 to 3 *)

(** The 36 pairs of a coarse point and its cyclic successor. *)
Definition coarsePairs : list boundaryRange :=
  (λ i : nat, mk_range (10 * Z.of_nat i) (10 * Z.of_nat ((i + 1) `mod` 36)))
  <$> seq 0 36.

Lemma boundary_at_sublist (colorsByHue : gmap Z colorData) (l : list nat) :
  (∀ i, i ∈ l → (i < 36)%nat) →
  flat_map (boundary_at colorsByHue) l
  `sublist_of`
  ((λ i : nat, mk_range (10 * Z.of_nat i) (10 * Z.of_nat ((i + 1) `mod` 36)))
   <$> l).
Proof.
  induction l as [|i l IH]; intros Hl; [done|].
  rewrite fmap_cons. cbn [flat_map].
  assert (i < 36)%nat as Hi by (apply Hl; by left).
  assert (flat_map (boundary_at colorsByHue) l `sublist_of`
          ((λ i : nat, mk_range (10 * Z.of_nat i)
                         (10 * Z.of_nat ((i + 1) `mod` 36))) <$> l)) as IH'.
  { apply IH. intros j Hj. apply Hl. by right. }
  unfold boundary_at at 1. rewrite length_coarseHues.
  assert ((i + 1) `mod` 36 < 36)%nat as Hn by (apply Nat.mod_upper_bound; lia).
  rewrite !coarseHues_lookup_total by done.
  repeat case_match; simpl; try (by apply sublist_cons).
  by apply sublist_skip.
Qed.

Lemma boundaryRanges_sublist (colorsByHue : gmap Z colorData) :
  boundaryRanges colorsByHue `sublist_of` coarsePairs.
Proof.
  unfold boundaryRanges, coarsePairs. rewrite length_coarseHues.
  apply boundary_at_sublist. intros i Hi%elem_of_seq. lia.
Qed.

Lemma flat_map_sublist {A B} (f : A → list B) (l1 l2 : list A) :
  l1 `sublist_of` l2 → flat_map f l1 `sublist_of` flat_map f l2.
Proof.
  induction 1 as [|x l1 l2 _ IH|x l1 l2 _ IH]; simpl.
  - done.
  - by apply sublist_app.
  - by apply sublist_inserts_l.
Qed.

Lemma NoDup_all_hues : NoDup (coarseHues ++ flat_map fillHues coarsePairs).
Proof.
  apply (bool_decide_unpack
           (NoDup (coarseHues ++ flat_map fillHues coarsePairs))).
  vm_compute. exact I.
Qed.

(** Whatever Phase 2 records, no hue is sampled twice by Phases 1 and 3. *)
Lemma NoDup_sampled (colorsByHue : gmap Z colorData) :
  NoDup (coarseHues ++ flat_map fillHues (boundaryRanges colorsByHue)).
Proof.
  eapply sublist_NoDup; [apply NoDup_all_hues|].
  apply sublist_app; [done|].
  apply flat_map_sublist, boundaryRanges_sublist.
Qed.

(** The hues a call needs, given the cache that holds the coarse results:
    the coarse hues, then the interior of every range Phase 2 records. *)
Definition neededHues (c : gmap string colorData) : list Z :=
  coarseHues
  ++ flat_map fillHues (boundaryRanges (with_cached c coarseHues ∅)).

Lemma NoDup_neededHues (c : gmap string colorData) : NoDup (neededHues c).
Proof. apply NoDup_sampled. Qed.

Lemma samplePhases_spec (w w' : world) (out : js_error + gmap Z colorData) :
  samplePhases remote saturation lightness signal w = (w', out) →
  ∃ looked_up,
    lookups w w' looked_up ∧
    stretch_result w looked_up out (λ colorsByHue,
      looked_up = filter (uncached (cache w)) (neededHues (cache w')) ∧
      resolved colorsByHue (cache w') (neededHues (cache w'))).
Proof.
  unfold samplePhases, bind. intros Hrun.
  destruct (fetchBatch remote signal saturation lightness coarseHues ∅ w)
    as [w1 out1] eqn:Hbatch.
  apply fetchBatch_spec in Hbatch as (looked1 & Hl1 & Hpre1 & Hres1);
    [|apply NoDup_coarseHues].
  unfold stretch_result in Hres1.
  destruct (all_settled (responses (length (requests w)) looked1))
    as [e|vs] eqn:Hvs.
  { subst out1. injection Hrun as <- <-. exists looked1. split; [done|].
    unfold stretch_result. by rewrite Hvs. }
  destruct Hres1 as (m1 & -> & -> & Hcached & Hm1).
  pose proof (lookups_subseteq _ _ _ Hl1) as Hsub1.
  assert (resolved m1 (cache w1) coarseHues) as Hres1.
  { apply (resolved_app ∅ m1 (cache w) (cache w1) [] coarseHues);
      [apply resolved_nil|done..]. }
  pose proof (NoDup_sampled m1) as Hnd.
  apply NoDup_app in Hnd as (_ & Hdisj & Hndf).
  apply (fill_loop_spec _ _ coarseHues) in Hrun
    as (looked2 & Hl2 & Hpre2 & Hres2); [|done..].
  pose proof (lookups_subseteq _ _ _ Hl2) as Hsub2.
  assert (m1 = with_cached (cache w') coarseHues ∅) as Hm1'.
  { eapply resolved_unique; [by eapply resolved_weaken|].
    apply with_cached_resolved. intros h Hh.
    destruct (Hcached h Hh) as [v Hv]. exists v. by eapply lookup_weaken. }
  assert (filter (uncached (cache w1))
            (flat_map fillHues (boundaryRanges m1))
          = filter (uncached (cache w))
              (flat_map fillHues (boundaryRanges m1))) as Heq.
  { eapply filter_uncached_later; [done|].
    intros h [_ Hh]%list_elem_of_filter. by apply Hdisj. }
  rewrite Heq in Hres2.
  exists (filter (uncached (cache w)) coarseHues ++ looked2).
  split; [by eapply lookups_app|].
  eapply stretch_result_app; [done..|].
  intros m' [-> Hres']. unfold neededHues. rewrite <-Hm1'.
  by rewrite filter_app.
Qed.

(** When every needed hue is cached the phases leave the world as it is. *)
Lemma samplePhases_cached (w : world) :
  (∀ h, h ∈ neededHues (cache w) → is_Some (cache w !! key h)) →
  samplePhases remote saturation lightness signal w
  = (w, inr (with_cached (cache w) (neededHues (cache w)) ∅)).
Proof.
  intros Hall. unfold samplePhases, bind, neededHues in *.
  rewrite fetchBatch_cached.
  - rewrite fill_loop_cached; [by rewrite with_cached_app|].
    intros h Hh. apply Hall, elem_of_app. by right.
  - intros h Hh. apply Hall, elem_of_app. by left.
Qed.

(** ** fetchDistinctColors *)

Lemma fetchDistinctColors_inr (w w' : world) (distinctColors : list colorData) :
  fetchDistinctColors remote saturation lightness signal w
    = (w', inr distinctColors) →
  ∃ colorsByHue,
    samplePhases remote saturation lightness signal w = (w', inr colorsByHue)
    ∧ distinctColors = collectDistinct colorsByHue.
Proof.
  unfold fetchDistinctColors, bind. intros Hrun.
  destruct (samplePhases remote saturation lightness signal w)
    as [w1 [e|m]]; [done|].
  injection Hrun as <- <-. eauto.
Qed.

Lemma fetchDistinctColors_inl (w w' : world) (e : js_error) :
  fetchDistinctColors remote saturation lightness signal w = (w', inl e) →
  samplePhases remote saturation lightness signal w = (w', inl e).
Proof.
  unfold fetchDistinctColors, bind. intros Hrun.
  destruct (samplePhases remote saturation lightness signal w)
    as [w1 [e'|m]]; [|done].
  by injection Hrun as <- <-.
Qed.

(** A call for which every needed hue is cached: the world is unchanged and
    the sequence is collected from the cached objects. *)
Lemma fetchDistinctColors_cached (w : world) :
  (∀ h, h ∈ neededHues (cache w) → is_Some (cache w !! key h)) →
  fetchDistinctColors remote saturation lightness signal w
  = (w, inr (collectDistinct
               (with_cached (cache w) (neededHues (cache w)) ∅))).
Proof.
  intros Hall. unfold fetchDistinctColors, bind.
  by rewrite samplePhases_cached.
Qed.

(** The [i]-th remote lookup overall was issued between [w] and [w'], for
    [hue]. *)
Definition issued (w w' : world) (i : nat) (hue : Z) : Prop :=
  (length (requests w) ≤ i)%nat ∧ requests w' !! i = Some (triple hue).

Lemma issued_lookups (w w' : world) (looked_up : list Z) (i : nat) (h : Z) :
  lookups w w' looked_up →
  issued w w' i h ↔
  ∃ j, i = (length (requests w) + j)%nat ∧ looked_up !! j = Some h.
Proof.
  intros [Hr _ _ _]. unfold issued. rewrite Hr. split.
  - intros [Hi Hlook]. exists (i - length (requests w))%nat.
    split; [lia|]. rewrite lookup_app_r in Hlook by done.
    rewrite list_lookup_fmap in Hlook.
    destruct (looked_up !! (i - length (requests w))%nat); by simplify_eq/=.
  - intros (j & -> & Hj). split; [lia|].
    rewrite lookup_app_r by lia.
    replace (length (requests w) + j - length (requests w))%nat with j by lia.
    by rewrite list_lookup_fmap, Hj.
Qed.

(** The overall description of a call: which lookups it issued, what became
    of the cache, and how its outcome follows from the answers. *)
Lemma fetchDistinctColors_spec (w w' : world)
    (out : js_error + list colorData) :
  fetchDistinctColors remote saturation lightness signal w = (w', out) →
  ∃ looked_up,
    lookups w w' looked_up ∧
    stretch_result w looked_up out (λ distinctColors,
      looked_up = filter (uncached (cache w)) (neededHues (cache w')) ∧
      ∃ colorsByHue,
        resolved colorsByHue (cache w') (neededHues (cache w')) ∧
        distinctColors = collectDistinct colorsByHue).
Proof.
  intros Hrun. destruct out as [e|distinctColors].
  - apply fetchDistinctColors_inl, samplePhases_spec in Hrun
      as (looked & Hl & Hres).
    exists looked. split; [done|]. unfold stretch_result in *.
    destruct (all_settled _); [by injection Hres as ->|].
    by destruct Hres as (? & ? & _).
  - apply fetchDistinctColors_inr in Hrun as (m & Hrun & ->).
    apply samplePhases_spec in Hrun as (looked & Hl & Hres).
    exists looked. split; [done|]. unfold stretch_result in *.
    destruct (all_settled _); [done|].
    destruct Hres as (m' & [= <-] & -> & Hm). eauto 10.
Qed.

(** A failed call failed with the error of one of its lookups. *)
Lemma stretch_result_inl {A} (w w' : world) (looked_up : list Z)
    (e : js_error) (P : A → Prop) :
  lookups w w' looked_up →
  stretch_result w looked_up (inl e) P →
  ∃ i h, issued w w' i h ∧ response_of i h = inl e.
Proof.
  intros Hl Hres. unfold stretch_result in Hres.
  destruct (all_settled _) as [e'|vs] eqn:Hall.
  - injection Hres as <-. apply all_settled_inl in Hall.
    apply list_elem_of_lookup in Hall as [j Hj].
    assert (j < length looked_up)%nat as Hlt.
    { apply lookup_lt_Some in Hj. by rewrite length_responses in Hj. }
    apply lookup_lt_is_Some in Hlt as [h Hh].
    rewrite (responses_lookup _ _ _ _ Hh) in Hj. injection Hj as Hj.
    exists (length (requests w) + j)%nat, h. split; [|done].
    eapply issued_lookups; eauto.
  - by destruct Hres as (? & ? & _).
Qed.

(** A call one of whose lookups failed has failed. *)
Lemma stretch_result_failed {A} (w w' : world) (looked_up : list Z)
    (out : js_error + A) (P : A → Prop) (i : nat) (h : Z) (e : js_error) :
  lookups w w' looked_up →
  stretch_result w looked_up out P →
  issued w w' i h → response_of i h = inl e →
  ∃ e', out = inl e'.
Proof.
  intros Hl Hres Hi He. unfold stretch_result in Hres.
  eapply issued_lookups in Hi as (j & -> & Hj); [|done].
  destruct (all_settled_rejects
              (responses (length (requests w)) looked_up) e) as [e' He'].
  { apply list_elem_of_lookup. exists j.
    by rewrite (responses_lookup _ _ _ _ Hj), He. }
  rewrite He' in Hres. eauto.
Qed.

End Runs.

(** ** Sample data *)

(** A well-formed answer of The Color API carrying the given name. *)
Definition api_answer (n : option string) : fetch_result :=
  FetchResponse true 200
    (JsonObject
       {| data_rgb := Some {| r := Some 191; g := Some 64; b := Some 64 |};
          data_name := Some {| value := n |};
          data_hex := Some {| value := Some "#BF4040" |};
          data_hsl := Some {| value := Some "hsl(0, 50%, 50%)" |} |}).

(** A classifier that names the hues below 20 "Red" and the others
    "Orange". *)
Definition red_orange_remote (n : nat) (h s l : Z) : fetch_result :=
  api_answer (Some (if bool_decide (h < 20) then "Red" else "Orange")).

(** A classifier that names every hue "Red" but has no name for hue 10. *)
Definition unnamed_at_10_remote (n : nat) (h s l : Z) : fetch_result :=
  api_answer (if bool_decide (h = 10) then None else Some "Red").

(** A classifier whose answer changes from one lookup to the next: the
    name is the number of the lookup. *)
Definition numbering_remote (n : nat) (h s l : Z) : fetch_result :=
  api_answer (Some (pretty n)).

(** A classifier that is down. *)
Definition failing_remote (n : nat) (h s l : Z) : fetch_result :=
  FetchThrows (TypeError "Failed to fetch").

(** The module as loaded: empty cache, no lookup issued yet. *)
Definition empty_world : world := {| cache := ∅; requests := [] |}.

(** The world after one complete call for S=50, L=50. *)
Definition warm_world : world :=
  (fetchDistinctColors red_orange_remote 50 50 None empty_world).1.

(** A signal that fires once 40 lookups have been issued, which is in the
    middle of Phase 3 of a first call. *)
Definition fires_at_40 : AbortSignal := λ n, bool_decide (40 ≤ n)%nat.

(** ** The properties of the service *)

(** *** Phase 3 enumerates the interior of a range *)

(** C4.  For a range between two points of the hue circle, Phase 3
    enumerates exactly the integer points strictly between [start] and
    [end], both ends excluded: [end] is taken as [end + 360] when
    [end < start] and every generated point is reduced modulo 360.  No point
    is enumerated twice, and the range from 350 to 0 yields the nine points
    351, ..., 359. *)
Theorem fillHues_interior (start end_ : Z) :
  0 ≤ start < 360 → 0 ≤ end_ < 360 →
  (∀ h, h ∈ fillHues (mk_range start end_) ↔
        ∃ k, start < k < (if bool_decide (end_ < start) then end_ + 360
                          else end_)
             ∧ h = k `mod` 360) ∧
  (∀ h, h ∈ fillHues (mk_range start end_) ↔
        0 ≤ h < 360 ∧
        if bool_decide (end_ < start) then start < h ∨ h < end_
        else start < h < end_) ∧
  NoDup (fillHues (mk_range start end_)) ∧
  fillHues (mk_range 350 0) = [351; 352; 353; 354; 355; 356; 357; 358; 359].
Proof.
  intros Hs He. split; [|split; [|split]].
  - intros h. rewrite elem_of_fillHues_unwrapped. unfold unwrapped_end.
    simpl. split; intros (k & Hk & ->); exists k; split; try done.
    + apply Z.rem_mod_nonneg; lia.
    + symmetry. apply Z.rem_mod_nonneg; lia.
  - intros h. by apply elem_of_fillHues.
  - by apply NoDup_fillHues.
  - reflexivity.
Qed.

Lemma fillHues_interior_witness :
  0 ≤ 350 < 360 ∧ 0 ≤ 0 < 360 ∧
  (359 ∈ fillHues (mk_range 350 0) ↔
   0 ≤ 359 < 360 ∧
   if bool_decide (0 < 350) then 350 < 359 ∨ 359 < 0 else 350 < 359 < 0).
Proof.
  split; [lia|]. split; [lia|].
  apply (fillHues_interior 350 0); lia.
Defined.

(** *** Phase 2 looks at the name of the current point only *)

(** C1.  Phase 2 run on the coarse results of [unnamed_at_10_remote]: hue 0
    is named "Red" and hue 10 has the sentinel name "Unnamed", and the
    range from 0 to 10 is recorded all the same (while the range from 10 to
    20, whose first point is the unnamed one, is not). *)
Theorem boundary_recorded_with_unnamed_successor :
  ∃ w colorsByHue currentColor nextColor,
    fetchBatch unnamed_at_10_remote None 50 50 coarseHues ∅ empty_world
      = (w, inr colorsByHue) ∧
    colorsByHue !! 0 = Some currentColor ∧ name currentColor = "Red" ∧
    colorsByHue !! 10 = Some nextColor ∧ name nextColor = "Unnamed" ∧
    boundaryRanges colorsByHue = [mk_range 0 10].
Proof.
  eexists _, _, _, _.
  split; [vm_compute; reflexivity|].
  split; [vm_compute; reflexivity|]. split; [reflexivity|].
  split; [vm_compute; reflexivity|]. split; [reflexivity|].
  vm_compute. reflexivity.
Qed.

(** *** The sequence returned by a call *)

(** C6.  The sequence a successful call returns, read against the session
    map [colorsByHue] the call ends with (the needed hues, each with its
    cached object): no entry is named "" or "Unnamed", no two entries have
    the same name, and each entry is the object at the smallest hue of the
    session that carries its name. *)
Theorem distinct_names_smallest_hue
    (remote : nat → Z → Z → Z → fetch_result) (s l : Z)
    (signal : option AbortSignal) (w w' : world)
    (distinctColors : list colorData) :
  fetchDistinctColors remote s l signal w = (w', inr distinctColors) →
  ∃ colorsByHue,
    samplePhases remote s l signal w = (w', inr colorsByHue) ∧
    resolved s l colorsByHue (cache w') (neededHues s l (cache w')) ∧
    (∀ color, color ∈ distinctColors →
       name color ≠ "" ∧ name color ≠ "Unnamed") ∧
    NoDup (name <$> distinctColors) ∧
    (∀ color, color ∈ distinctColors →
       ∃ h, colorsByHue !! h = Some color ∧
         ∀ h' color', colorsByHue !! h' = Some color' →
           name color' = name color → h ≤ h').
Proof.
  intros Hrun.
  apply fetchDistinctColors_inr in Hrun as (colorsByHue & Hrun & ->).
  exists colorsByHue. split; [done|]. split.
  - apply samplePhases_spec in Hrun as (looked & Hl & Hres).
    unfold stretch_result in Hres. destruct (all_settled _); [done|].
    by destruct Hres as (m & [= <-] & _ & Hm).
  - apply collectDistinct_spec.
Qed.

Lemma distinct_names_smallest_hue_witness :
  ∃ w' distinctColors,
    fetchDistinctColors red_orange_remote 50 50 None empty_world
      = (w', inr distinctColors) ∧
    NoDup (name <$> distinctColors).
Proof.
  eexists _, _.
  assert (fetchDistinctColors red_orange_remote 50 50 None empty_world
          = ((fetchDistinctColors red_orange_remote 50 50 None
                empty_world).1,
             inr [ {| hue := 0; saturation := 50; lightness := 50;
                      name := "Red";
                      rgb := {| red := Some 191; green := Some 64;
                                blue := Some 64 |};
                      hex := Some "#BF4040";
                      hsl := Some "hsl(0, 50%, 50%)" |};
                   {| hue := 20; saturation := 50; lightness := 50;
                      name := "Orange";
                      rgb := {| red := Some 191; green := Some 64;
                                blue := Some 64 |};
                      hex := Some "#BF4040";
                      hsl := Some "hsl(0, 50%, 50%)" |} ])) as Hrun
    by (vm_compute; reflexivity).
  split; [exact Hrun|].
  destruct (distinct_names_smallest_hue _ _ _ _ _ _ _ Hrun)
    as (m & _ & _ & _ & Hnd & _).
  exact Hnd.
Defined.

(** *** Names are never empty *)

(** Every object in the cache has a non-empty name. *)
Definition cache_named (w : world) : Prop :=
  ∀ k c, cache w !! k = Some c → name c ≠ "".

Lemma fetchColorData_response_name (hue s l : Z) (res : fetch_result)
    (v : colorData) :
  fetchColorData_response hue s l res = inr v →
  name v ≠ "" ∧
  ∀ ok status data dname,
    res = FetchResponse ok status (JsonObject data) →
    data_name data = Some dname →
    name v = match value dname with
             | Some (String a n) => String a n
             | Some EmptyString | None => "Unnamed"
             end.
Proof.
  unfold fetchColorData_response. intros Hv.
  destruct res as [e|[] status [e| |data]]; simplify_eq/=.
  destruct (data_rgb data); [|done].
  destruct (data_name data) as [dn|] eqn:Hn; [|done].
  destruct (data_hex data); [|done]. destruct (data_hsl data); [|done].
  injection Hv as <-. simpl. split.
  - by destruct (value dn) as [[|? ?]|].
  - intros ok' status' data' dname [= <- <- <-] Hd.
    rewrite Hn in Hd. by injection Hd as <-.
Qed.

Lemma stored_named (remote : nat → Z → Z → Z → fetch_result)
    (signal : option AbortSignal) (s l : Z) (n : nat) (hues : list Z)
    (c : gmap string colorData) :
  (∀ k v, c !! k = Some v → name v ≠ "") →
  ∀ k v, stored remote signal s l n hues c !! k = Some v → name v ≠ "".
Proof.
  revert n c. induction hues as [|h hues IH]; intros n c Hc; simpl; [done|].
  apply IH. destruct (response_of remote signal s l n h) as [e|cd] eqn:Hr;
    [done|].
  intros k v. destruct (decide (cacheKey h s l = k)) as [<-|Hne].
  - rewrite lookup_insert_eq. intros [= <-].
    by apply fetchColorData_response_name in Hr as [? _].
  - rewrite lookup_insert_ne by done. apply Hc.
Qed.

(** C9.  Starting from a cache whose objects all have a non-empty name:
    every object [fetchColorData] returns has a non-empty name, a missing or
    empty name value of the response being replaced by "Unnamed"; the cache
    keeps the property; and so does the session map of a call. *)
Theorem classifier_label_nonempty
    (remote : nat → Z → Z → Z → fetch_result) (s l : Z)
    (signal : option AbortSignal) (w : world) :
  cache_named w →
  (∀ hue w' v,
     fetchColorData remote hue s l signal w = (w', inr v) →
     name v ≠ "" ∧ cache_named w' ∧
     ∀ ok status data dname,
       cache w !! cacheKey hue s l = None →
       fetch remote signal (length (requests w)) hue s l
         = FetchResponse ok status (JsonObject data) →
       data_name data = Some dname →
       value dname = None ∨ value dname = Some "" →
       name v = "Unnamed") ∧
  (∀ w' colorsByHue,
     samplePhases remote s l signal w = (w', inr colorsByHue) →
     cache_named w' ∧
     ∀ h c, colorsByHue !! h = Some c → name c ≠ "").
Proof.
  intros Hnamed. split.
  - intros hue w' v. unfold fetchColorData, fetchColorData_start.
    destruct (cache w !! cacheKey hue s l) as [cached|] eqn:Hc; simpl.
    { intros [= <- <-]. split; [by eapply Hnamed|]. split; [done|].
      intros; done. }
    destruct (fetchColorData_response hue s l
                (fetch remote signal (length (requests w)) hue s l))
      as [e|cd] eqn:Hr; simpl; [done|].
    intros [= <- <-].
    apply fetchColorData_response_name in Hr as [Hne Hnorm].
    split; [done|]. split.
    + intros k c. simpl. destruct (decide (cacheKey hue s l = k)) as [<-|Hk].
      * rewrite lookup_insert_eq. by intros [= <-].
      * rewrite lookup_insert_ne by done. apply Hnamed.
    + intros ok status data dname _ Hres Hname Hval.
      rewrite (Hnorm _ _ _ _ Hres Hname). by destruct Hval as [-> | ->].
  - intros w' colorsByHue Hrun.
    apply samplePhases_spec in Hrun as (looked & Hl & Hres).
    assert (cache_named w') as Hnamed'.
    { destruct Hl as [_ Hc _ _]. unfold cache_named. rewrite Hc.
      by apply stored_named. }
    split; [done|]. intros h c Hh.
    unfold stretch_result in Hres. destruct (all_settled _); [done|].
    destruct Hres as (m & [= <-] & _ & _ & Hm).
    rewrite Hm in Hh. case_decide; [|done]. by eapply Hnamed'.
Qed.

Lemma classifier_label_nonempty_witness :
  cache_named empty_world ∧
  ∃ w' v,
    fetchColorData unnamed_at_10_remote 10 50 50 None empty_world
      = (w', inr v) ∧
    name v ≠ "".
Proof.
  assert (cache_named empty_world) as Hnamed.
  { intros k c Hk. vm_compute in Hk. discriminate Hk. }
  split; [exact Hnamed|].
  eexists _, _. split; [vm_compute; reflexivity|].
  refine (proj1 (proj1 (classifier_label_nonempty unnamed_at_10_remote
                          50 50 None empty_world Hnamed) 10 _ _ _)).
  vm_compute. reflexivity.
Defined.

(** *** Calls served from the cache *)

(** C10.  When the coarse hues and the interior hues of the ranges Phase 2
    finds among the cached coarse results are all cached, a call issues no
    remote lookup, leaves the cache as it is and returns the sequence
    collected from the cached objects.  This holds for every signal, so also
    for one that has fired before the call: the signal is only ever handed
    to [fetch], and [fetch] is not called. *)
Theorem cached_call_ignores_cancellation
    (remote : nat → Z → Z → Z → fetch_result) (s l : Z)
    (signal : option AbortSignal) (w : world) :
  (∀ h, h ∈ neededHues s l (cache w) → is_Some (cache w !! cacheKey h s l)) →
  fetchDistinctColors remote s l signal w
  = (w, inr (collectDistinct
               (with_cached s l (cache w) (neededHues s l (cache w)) ∅)))
  ∧ fetchDistinctColors remote s l (Some (λ _, true)) w
    = fetchDistinctColors remote s l None w.
Proof.
  intros Hall. split.
  - by apply fetchDistinctColors_cached.
  - rewrite (fetchDistinctColors_cached remote (Some (λ _, true))) by done.
    by rewrite (fetchDistinctColors_cached remote None).
Qed.

Lemma warm_world_cached :
  ∀ h, h ∈ neededHues 50 50 (cache warm_world) →
       is_Some (cache warm_world !! cacheKey h 50 50).
Proof.
  apply Forall_forall.
  apply (bool_decide_unpack
           (Forall (λ h, is_Some (cache warm_world !! cacheKey h 50 50))
              (neededHues 50 50 (cache warm_world)))).
  vm_compute. exact I.
Defined.

Lemma cached_call_ignores_cancellation_witness :
  (∀ h, h ∈ neededHues 50 50 (cache warm_world) →
        is_Some (cache warm_world !! cacheKey h 50 50)) ∧
  (fetchDistinctColors failing_remote 50 50 (Some (λ _, true)) warm_world).1
  = warm_world.
Proof.
  split; [exact warm_world_cached|].
  exact (f_equal fst
           (proj1 (cached_call_ignores_cancellation failing_remote 50 50
                     (Some (λ _, true)) warm_world warm_world_cached))).
Defined.

(** C7.  After a call that succeeded, a second call for the same saturation
    and lightness issues no remote lookup (the world, and with it the list
    of lookups issued, is unchanged) and returns the same sequence, whatever
    the classifier would answer now and whatever the signal. *)
Theorem second_call_served_from_cache
    (remote remote' : nat → Z → Z → Z → fetch_result) (s l : Z)
    (signal signal' : option AbortSignal) (w w1 : world)
    (distinctColors : list colorData) :
  fetchDistinctColors remote s l signal w = (w1, inr distinctColors) →
  fetchDistinctColors remote' s l signal' w1 = (w1, inr distinctColors).
Proof.
  intros Hrun.
  apply fetchDistinctColors_spec in Hrun as (looked & Hl & Hres).
  unfold stretch_result in Hres. destruct (all_settled _); [done|].
  destruct Hres as (out & [= <-] & _ & m & Hm & ->).
  assert (∀ h, h ∈ neededHues s l (cache w1) →
               is_Some (cache w1 !! cacheKey h s l)) as Hall
    by apply Hm.
  rewrite (fetchDistinctColors_cached remote' signal' s l w1 Hall).
  do 3 f_equal. eapply resolved_unique; [|done].
  by apply with_cached_resolved.
Qed.

Lemma second_call_served_from_cache_witness :
  ∃ distinctColors,
    fetchDistinctColors red_orange_remote 50 50 None empty_world
      = (warm_world, inr distinctColors) ∧
    fetchDistinctColors failing_remote 50 50 None warm_world
      = (warm_world, inr distinctColors).
Proof.
  eexists.
  assert (fetchDistinctColors red_orange_remote 50 50 None empty_world
          = (warm_world,
             inr [ {| hue := 0; saturation := 50; lightness := 50;
                      name := "Red";
                      rgb := {| red := Some 191; green := Some 64;
                                blue := Some 64 |};
                      hex := Some "#BF4040";
                      hsl := Some "hsl(0, 50%, 50%)" |};
                   {| hue := 20; saturation := 50; lightness := 50;
                      name := "Orange";
                      rgb := {| red := Some 191; green := Some 64;
                                blue := Some 64 |};
                      hex := Some "#BF4040";
                      hsl := Some "hsl(0, 50%, 50%)" |} ])) as Hrun
    by (vm_compute; reflexivity).
  split; [exact Hrun|].
  exact (second_call_served_from_cache red_orange_remote failing_remote
           50 50 None None empty_world warm_world _ Hrun).
Defined.

(** *** Failure and cancellation *)

Lemma NoDup_issued (remote : nat → Z → Z → Z → fetch_result)
    (signal : option AbortSignal) (s l : Z) (w w' : world)
    (looked_up : list Z) :
  lookups remote signal s l w w' looked_up →
  NoDup (drop (length (requests w)) (requests w')).
Proof.
  intros [Hr _ Hnd _]. rewrite Hr, drop_app_length.
  apply NoDup_fmap_2; [|done]. by intros h1 h2 [= ->].
Qed.

Lemma issued_success_cached (remote : nat → Z → Z → Z → fetch_result)
    (signal : option AbortSignal) (s l : Z) (w w' : world)
    (looked_up : list Z) (j : nat) (h : Z) (v : colorData) :
  lookups remote signal s l w w' looked_up →
  issued s l w w' j h → response_of remote signal s l j h = inr v →
  cache w' !! cacheKey h s l = Some v.
Proof.
  intros Hl Hi Hv. eapply issued_lookups in Hi as (j' & -> & Hj); [|done].
  by eapply lookups_success.
Qed.

Lemma issued_failure_uncached (remote : nat → Z → Z → Z → fetch_result)
    (signal : option AbortSignal) (s l : Z) (w w' : world)
    (looked_up : list Z) (j : nat) (h : Z) (e : js_error) :
  lookups remote signal s l w w' looked_up →
  issued s l w w' j h → response_of remote signal s l j h = inl e →
  cache w' !! cacheKey h s l = None.
Proof.
  intros Hl Hi He. eapply issued_lookups in Hi as (j' & -> & Hj); [|done].
  destruct Hl as [_ -> Hnd Hmiss].
  rewrite (stored_lookup_failure _ _ _ _ _ _ _ _ _ _ Hnd Hj He).
  apply Hmiss. by eapply list_elem_of_lookup_2.
Qed.

(** The ways a remote lookup fails: [fetch] rejects (network failure or
    abort), the status is not a success, the body does not parse, or the
    body lacks one of the objects [rgb], [name], [hex], [hsl]. *)
Lemma fetchColorData_response_inl (hue s l : Z) (res : fetch_result) :
  (∃ e, fetchColorData_response hue s l res = inl e) ↔
  (∃ e, res = FetchThrows e) ∨
  (∃ status body, res = FetchResponse false status body) ∨
  (∃ status e, res = FetchResponse true status (JsonThrows e)) ∨
  (∃ status, res = FetchResponse true status JsonNull) ∨
  (∃ status data, res = FetchResponse true status (JsonObject data) ∧
     (data_rgb data = None ∨ data_name data = None ∨
      data_hex data = None ∨ data_hsl data = None)).
Proof.
  unfold fetchColorData_response. split.
  - intros [e He]. destruct res as [e'|[] status [e'| |data]]; eauto 10.
    do 4 right. exists status, data. split; [done|].
    destruct (data_rgb data); [|by left].
    destruct (data_name data); [|by right; left].
    destruct (data_hex data); [|by right; right; left].
    destruct (data_hsl data); [done|by right; right; right].
  - intros [[e ->]|[(status & body & ->)|[(status & e & ->)|
             [[status ->]|(status & data & -> & Hmiss)]]]]; simpl; eauto.
    destruct (data_rgb data), (data_name data), (data_hex data),
      (data_hsl data); eauto.
    destruct Hmiss as [?|[?|[?|?]]]; done.
Qed.

(** C5.  If a remote lookup issued by a call fails, the call ends with an
    error, which is the error of one of its failed lookups, and returns no
    sequence.  No lookup is issued twice within the call, so the failed one
    is not tried again; its key stays out of the cache.  Every object that
    was cached when the call started is still cached, and so is the result
    of every lookup of the call that succeeded. *)
Theorem failed_lookup_aborts_call
    (remote : nat → Z → Z → Z → fetch_result) (s l : Z)
    (signal : option AbortSignal) (w w' : world)
    (out : js_error + list colorData) (i : nat) (h : Z) (e : js_error) :
  fetchDistinctColors remote s l signal w = (w', out) →
  issued s l w w' i h →
  response_of remote signal s l i h = inl e →
  (∃ e' i' h', out = inl e' ∧ issued s l w w' i' h' ∧
               response_of remote signal s l i' h' = inl e') ∧
  NoDup (drop (length (requests w)) (requests w')) ∧
  cache w' !! cacheKey h s l = None ∧
  cache w ⊆ cache w' ∧
  (∀ j h' v, issued s l w w' j h' →
             response_of remote signal s l j h' = inr v →
             cache w' !! cacheKey h' s l = Some v).
Proof.
  intros Hrun Hi He.
  apply fetchDistinctColors_spec in Hrun as (looked & Hl & Hres).
  split; [|split; [|split; [|split]]].
  - destruct (stretch_result_failed _ _ _ _ _ _ _ _ _ _ _ _ Hl Hres Hi He)
      as [e' ->].
    destruct (stretch_result_inl _ _ _ _ _ _ _ _ _ Hl Hres)
      as (i' & h' & Hi' & He').
    eauto 10.
  - by eapply NoDup_issued.
  - by eapply issued_failure_uncached.
  - by eapply lookups_subseteq.
  - intros j h' v. by eapply issued_success_cached.
Qed.

Lemma failed_lookup_aborts_call_witness :
  ∃ w' out,
    fetchDistinctColors failing_remote 50 50 None empty_world = (w', out) ∧
    issued 50 50 empty_world w' 0 0 ∧
    response_of failing_remote None 50 50 0 0
      = inl (TypeError "Failed to fetch") ∧
    ∃ e' i' h', out = inl e' ∧ issued 50 50 empty_world w' i' h' ∧
                response_of failing_remote None 50 50 i' h' = inl e'.
Proof.
  eexists _, _.
  assert (fetchDistinctColors failing_remote 50 50 None empty_world
          = ((fetchDistinctColors failing_remote 50 50 None empty_world).1,
             inl (TypeError "Failed to fetch"))) as Hrun
    by (vm_compute; reflexivity).
  assert (issued 50 50 empty_world
            (fetchDistinctColors failing_remote 50 50 None empty_world).1
            0 0) as Hi
    by (split; [simpl; lia|vm_compute; reflexivity]).
  assert (response_of failing_remote None 50 50 0 0
          = inl (TypeError "Failed to fetch")) as He by reflexivity.
  split; [exact Hrun|]. split; [exact Hi|]. split; [exact He|].
  exact (proj1 (failed_lookup_aborts_call _ _ _ _ _ _ _ _ _ _ Hrun Hi He)).
Defined.

(** C3.  If the signal has fired by the time a lookup issued by a call
    settles, the call returns no sequence, of whatever length: it ends with
    an error, and that error is [AbortError] when every lookup of the call
    that the signal did not reach got a well-formed answer.  Every object
    that was cached when the call started is still cached, and so is the
    result of every lookup of the call that succeeded. *)
Theorem cancellation_yields_no_result
    (remote : nat → Z → Z → Z → fetch_result) (s l : Z)
    (aborted : AbortSignal) (w w' : world)
    (out : js_error + list colorData) (i : nat) (h : Z) :
  fetchDistinctColors remote s l (Some aborted) w = (w', out) →
  issued s l w w' i h →
  aborted i = true →
  (∃ e, out = inl e) ∧
  ((∀ j h', issued s l w w' j h' → aborted j = false →
            ∃ v, fetchColorData_response h' s l (remote j h' s l) = inr v) →
   out = inl AbortError) ∧
  cache w ⊆ cache w' ∧
  (∀ j h' v, issued s l w w' j h' →
             response_of remote (Some aborted) s l j h' = inr v →
             cache w' !! cacheKey h' s l = Some v).
Proof.
  intros Hrun Hi Hab.
  apply fetchDistinctColors_spec in Hrun as (looked & Hl & Hres).
  assert (response_of remote (Some aborted) s l i h = inl AbortError) as He.
  { unfold response_of, fetch. by rewrite Hab. }
  destruct (stretch_result_failed _ _ _ _ _ _ _ _ _ _ _ _ Hl Hres Hi He)
    as [e' ->].
  split; [eauto|]. split; [|split].
  - intros Hall.
    destruct (stretch_result_inl _ _ _ _ _ _ _ _ _ Hl Hres)
      as (i' & h' & Hi' & He').
    unfold response_of, fetch in He'.
    destruct (aborted i') eqn:Hreached.
    + by injection He' as <-.
    + destruct (Hall _ _ Hi' Hreached) as [v Hv]. by rewrite Hv in He'.
  - by eapply lookups_subseteq.
  - intros j h' v. by eapply issued_success_cached.
Qed.

(** The world left by a first call cancelled in Phase 3. *)
Definition cancelled_world : world :=
  (fetchDistinctColors red_orange_remote 50 50 (Some fires_at_40)
     empty_world).1.

Lemma cancellation_yields_no_result_witness :
  issued 50 50 empty_world cancelled_world 40 15 ∧
  fires_at_40 40%nat = true ∧
  (fetchDistinctColors red_orange_remote 50 50 (Some fires_at_40)
     empty_world).2 = inl AbortError ∧
  cache empty_world ⊆ cache cancelled_world.
Proof.
  assert (fetchDistinctColors red_orange_remote 50 50 (Some fires_at_40)
            empty_world
          = (cancelled_world,
             (fetchDistinctColors red_orange_remote 50 50 (Some fires_at_40)
                empty_world).2)) as Hrun
    by (unfold cancelled_world; apply surjective_pairing).
  assert (issued 50 50 empty_world cancelled_world 40 15) as Hi
    by (split; [simpl; lia|vm_compute; reflexivity]).
  assert (fires_at_40 40%nat = true) as Hab by reflexivity.
  assert (∀ j h', issued 50 50 empty_world cancelled_world j h' →
            fires_at_40 j = false →
            ∃ v, fetchColorData_response h' 50 50
                   (red_orange_remote j h' 50 50) = inr v) as Hok
    by (intros j h' _ _; eexists; reflexivity).
  destruct (cancellation_yields_no_result _ _ _ _ _ _ _ _ _ Hrun Hi Hab)
    as (_ & Hout & Hkept & _).
  split; [exact Hi|]. split; [exact Hab|].
  split; [exact (Hout Hok)|exact Hkept].
Defined.

(** *** Writing to the cache *)

(** C2, as stated, fails: [cache.set] replaces.  Two lookups for the key of
    hue 7 are started by [fetchMultipleColors] before either settles, so
    both miss the cache and both store.  The first store writes [v1], the
    second writes a different [v2] under the same key, and the cache then
    holds [v2], not the first value written. *)
Lemma second_store_replaces_first :
  ∃ w v1 v2,
    fetchMultipleColors numbering_remote [7; 7] 50 50 empty_world
      = (w, inr [v1; v2]) ∧
    v1 ≠ v2 ∧
    cache (cache_set (cacheKey 7 50 50) v1 empty_world) !! cacheKey 7 50 50
      = Some v1 ∧
    cache (cache_set (cacheKey 7 50 50) v2
             (cache_set (cacheKey 7 50 50) v1 empty_world))
      !! cacheKey 7 50 50 = Some v2 ∧
    cache w !! cacheKey 7 50 50 = Some v2 ∧
    cache w !! cacheKey 7 50 50 ≠ Some v1.
Proof.
  eexists _, _, _.
  split; [vm_compute; reflexivity|].
  split; [by intros [=]|].
  split; [vm_compute; reflexivity|].
  split; [vm_compute; reflexivity|].
  split; [vm_compute; reflexivity|].
  vm_compute. by intros [=].
Qed.

(** C2, amended.  [cache.set] replaces.  Two lookups for one key that are
    both started before either settles both miss the check of the cache;
    each stores its result when it settles, and after each store a read of
    the key returns the result just stored, so that the cache ends with the
    result of the lookup that settles last, in whichever order the two
    settle.  What keeps a stored value is the check made when a lookup
    starts: a [fetchColorData] started while the key is cached returns the
    cached object and leaves the world as it is (no remote lookup, no
    store), whatever the classifier and the signal; and once an awaited
    [fetchColorData] has returned an object, the key is cached with it. *)
Theorem store_replaces_check_keeps
    (remote : nat → Z → Z → Z → fetch_result) (hue s l : Z)
    (signal : option AbortSignal) (w : world) (v1 v2 : colorData) :
  cache w !! cacheKey hue s l = None →
  response_of remote signal s l (length (requests w)) hue = inr v1 →
  response_of remote signal s l (S (length (requests w))) hue = inr v2 →
  let one :=
    InFlight hue (fetch remote signal (length (requests w)) hue s l) in
  let other :=
    InFlight hue (fetch remote signal (S (length (requests w))) hue s l) in
  ∃ wa wb,
    fetchColorData_start remote signal hue s l w = (wa, one) ∧
    fetchColorData_start remote signal hue s l wa = (wb, other) ∧
    (∃ w1 w2,
       fetchColorData_finish s l one wb = (w1, inr v1) ∧
       cache w1 !! cacheKey hue s l = Some v1 ∧
       fetchColorData_finish s l other w1 = (w2, inr v2) ∧
       cache w2 !! cacheKey hue s l = Some v2) ∧
    (∃ w1 w2,
       fetchColorData_finish s l other wb = (w1, inr v2) ∧
       cache w1 !! cacheKey hue s l = Some v2 ∧
       fetchColorData_finish s l one w1 = (w2, inr v1) ∧
       cache w2 !! cacheKey hue s l = Some v1) ∧
    (∀ remote' signal' w' v,
       cache w' !! cacheKey hue s l = Some v →
       fetchColorData remote' hue s l signal' w' = (w', inr v)) ∧
    (∀ remote' signal' w0 w1 v,
       fetchColorData remote' hue s l signal' w0 = (w1, inr v) →
       cache w1 !! cacheKey hue s l = Some v).
Proof.
  intros Hmiss Hv1 Hv2 one other. unfold response_of in Hv1, Hv2.
  eexists _, _.
  split; [unfold fetchColorData_start; by rewrite Hmiss|].
  split.
  { unfold fetchColorData_start. cbn [cache requests].
    rewrite Hmiss, length_app. cbn [length].
    by rewrite Nat.add_1_r. }
  split; [|split; [|split]].
  - eexists _, _. unfold one, other. cbn [fetchColorData_finish].
    rewrite Hv1, Hv2. split; [done|].
    split; [apply lookup_insert_eq|]. split; [done|].
    apply lookup_insert_eq.
  - eexists _, _. unfold one, other. cbn [fetchColorData_finish].
    rewrite Hv1, Hv2. split; [done|].
    split; [apply lookup_insert_eq|]. split; [done|].
    apply lookup_insert_eq.
  - intros remote' signal' w' v Hv.
    unfold fetchColorData, fetchColorData_start. by rewrite Hv.
  - intros remote' signal' w0 w1 v.
    unfold fetchColorData, fetchColorData_start.
    intros Hrun.
    destruct (cache w0 !! cacheKey hue s l) as [cached|] eqn:Hc;
      simpl in Hrun.
    + by injection Hrun as <- <-.
    + destruct (fetchColorData_response hue s l (fetch remote' _ _ _ _ _));
        simpl in Hrun; [done|].
      injection Hrun as <- <-. apply lookup_insert_eq.
Qed.

(** The object built from the answer of [numbering_remote] that carries the
    name [n], for hue 7. *)
Definition numbered (n : string) : colorData :=
  {| hue := 7; saturation := 50; lightness := 50; name := n;
     rgb := {| red := Some 191; green := Some 64; blue := Some 64 |};
     hex := Some "#BF4040"; hsl := Some "hsl(0, 50%, 50%)" |}.

Lemma store_replaces_check_keeps_witness :
  numbered "0" ≠ numbered "1" ∧
  ∃ wb one other,
    (∃ w1 w2,
       fetchColorData_finish 50 50 one wb = (w1, inr (numbered "0")) ∧
       cache w1 !! cacheKey 7 50 50 = Some (numbered "0") ∧
       fetchColorData_finish 50 50 other w1 = (w2, inr (numbered "1")) ∧
       cache w2 !! cacheKey 7 50 50 = Some (numbered "1")) ∧
    (∃ w1 w2,
       fetchColorData_finish 50 50 other wb = (w1, inr (numbered "1")) ∧
       cache w1 !! cacheKey 7 50 50 = Some (numbered "1") ∧
       fetchColorData_finish 50 50 one w1 = (w2, inr (numbered "0")) ∧
       cache w2 !! cacheKey 7 50 50 = Some (numbered "0")).
Proof.
  split; [by intros [=]|].
  destruct (store_replaces_check_keeps numbering_remote 7 50 50 None
              empty_world (numbered "0") (numbered "1")
              eq_refl eq_refl eq_refl)
    as (wa & wb & _ & _ & Hfirst & Hsecond & _).
  eexists wb, _, _. split; [exact Hfirst|exact Hsecond].
Defined.

(** *** The Red, Red, Orange scenario *)

(** Phase 2 depends on the names at the coarse hues only. *)
Lemma boundaryRanges_names (m1 m2 : gmap Z colorData) :
  (∀ h, h ∈ coarseHues → name <$> m1 !! h = name <$> m2 !! h) →
  boundaryRanges m1 = boundaryRanges m2.
Proof.
  intros Hnames. unfold boundaryRanges. rewrite length_coarseHues.
  assert (∀ l : list nat, (∀ i, i ∈ l → (i < 36)%nat) →
            flat_map (boundary_at m1) l = flat_map (boundary_at m2) l) as Hl.
  { induction l as [|i l IH]; intros Hlt; [done|]. cbn [flat_map].
    rewrite IH by (intros; apply Hlt; by right). f_equal.
    assert (i < 36)%nat as Hi by (apply Hlt; by left).
    assert ((i + 1) `mod` 36 < 36)%nat as Hn
      by (apply Nat.mod_upper_bound; lia).
    unfold boundary_at. rewrite length_coarseHues.
    rewrite !coarseHues_lookup_total by done.
    assert (10 * Z.of_nat i ∈ coarseHues) as H1.
    { apply elem_of_coarseHues. split; [lia|].
      rewrite Z.mul_comm. apply Z_mod_mult. }
    assert (10 * Z.of_nat ((i + 1) `mod` 36) ∈ coarseHues) as H2.
    { apply elem_of_coarseHues. split; [lia|].
      rewrite Z.mul_comm. apply Z_mod_mult. }
    apply Hnames in H1, H2.
    generalize dependent (10 * Z.of_nat ((i + 1) `mod` 36)).
    generalize dependent (10 * Z.of_nat i). intros a Ha b Hb.
    destruct (m1 !! a) as [c1|], (m2 !! a) as [c1'|]; simplify_eq/=;
      [|done].
    destruct (m1 !! b) as [c2|], (m2 !! b) as [c2'|]; simplify_eq/=;
      [|done].
    by rewrite Ha, Hb. }
  apply Hl. intros i Hi%elem_of_seq. lia.
Qed.

(** The session map after Phase 1 of the scenario, names only. *)
Definition red_red_orange : gmap Z colorData :=
  list_to_map
    ((λ h, (h, {| hue := h; saturation := 50; lightness := 50;
                  name := if bool_decide (h < 20) then "Red" else "Orange";
                  rgb := {| red := None; green := None; blue := None |};
                  hex := None; hsl := None |})) <$> coarseHues).

Lemma red_red_orange_names :
  ∀ h, h ∈ coarseHues →
    name <$> red_red_orange !! h
    = Some (if bool_decide (h < 20) then "Red" else "Orange").
Proof.
  apply Forall_forall.
  apply (bool_decide_unpack
           (Forall (λ h, name <$> red_red_orange !! h
                         = Some (if bool_decide (h < 20) then "Red"
                                 else "Orange")) coarseHues)).
  vm_compute. exact I.
Qed.

(** With "Red" at 0 and "Orange" at 20, and every coarse point resolved,
    Phase 2 never records the range from 10 to 20 alone: walking on from 20,
    the name has to change again before the walk is back at 0. *)
Lemma never_single_range (colorsByHue : gmap Z colorData) :
  (∀ h, h ∈ coarseHues → is_Some (colorsByHue !! h)) →
  name <$> colorsByHue !! 0 = Some "Red" →
  name <$> colorsByHue !! 20 = Some "Orange" →
  boundaryRanges colorsByHue ≠ [mk_range 10 20].
Proof.
  intros Hall H0 H20 Heq.
  assert (∀ i, (2 ≤ i < 36)%nat →
            ¬ names_change colorsByHue (10 * Z.of_nat i)
                (10 * Z.of_nat ((i + 1) `mod` 36))) as Hno.
  { intros i Hi Hch.
    assert (mk_range (10 * Z.of_nat i) (10 * Z.of_nat ((i + 1) `mod` 36))
            ∈ boundaryRanges colorsByHue) as Hin.
    { apply elem_of_boundaryRanges. exists i. split; [lia|]. by split. }
    rewrite Heq in Hin. apply list_elem_of_singleton in Hin.
    injection Hin as Hin _. lia. }
  assert (∀ k, (k ≤ 33)%nat →
            name <$> colorsByHue !! (10 * Z.of_nat (k + 2)) = Some "Orange")
    as Horange.
  { induction k as [|k IH]; intros Hk; [done|].
    specialize (IH ltac:(lia)).
    specialize (Hno (k + 2)%nat ltac:(lia)).
    rewrite Nat.mod_small in Hno by lia.
    replace (k + 2 + 1)%nat with (S k + 2)%nat in Hno by lia.
    destruct (colorsByHue !! (10 * Z.of_nat (k + 2))) as [c1|] eqn:Hc1;
      [|done].
    destruct (Hall (10 * Z.of_nat (S k + 2))) as [c2 Hc2].
    { apply elem_of_coarseHues. split; [lia|].
      rewrite Z.mul_comm. apply Z_mod_mult. }
    rewrite Hc2. simpl in *. injection IH as IH. f_equal.
    destruct (decide (name c1 = name c2)) as [<-|Hne]; [done|].
    exfalso. apply Hno. exists c1, c2.
    repeat split; try done. by rewrite IH. }
  specialize (Horange 33%nat ltac:(lia)).
  specialize (Hno 35%nat ltac:(lia)).
  change (10 * Z.of_nat (33 + 2)) with 350 in Horange.
  change (10 * Z.of_nat 35) with 350 in Hno.
  change (10 * Z.of_nat ((35 + 1) `mod` 36)) with 0 in Hno.
  destruct (colorsByHue !! 350) as [c1|] eqn:Hc1; [|done].
  destruct (colorsByHue !! 0) as [c2|] eqn:Hc2; [|done].
  simpl in *. injection Horange as Horange. injection H0 as H0.
  apply Hno. exists c1, c2. repeat split; try done.
  - by rewrite Horange.
  - by rewrite Horange, H0.
Qed.

(** The side condition of the scenario cannot be met.  Phase 2 pairs the
    coarse points round the circle, 350 with 0 included: if every pair
    other than 10 and 20 carries equal names, "Orange" at 20 is carried on
    to 350 and from there to 0, where the name is "Red". *)
Lemma scenario_premise_unsatisfiable (colorsByHue : gmap Z colorData) :
  name <$> colorsByHue !! 0 = Some "Red" →
  name <$> colorsByHue !! 10 = Some "Red" →
  name <$> colorsByHue !! 20 = Some "Orange" →
  ¬ (∀ i, (i < length coarseHues)%nat → i ≠ 1%nat →
       name <$> colorsByHue !! (coarseHues !!! i)
       = name <$> colorsByHue
                  !! (coarseHues !!! ((i + 1) `mod` length coarseHues)%nat)).
Proof.
  rewrite length_coarseHues. intros H0 _ H20 Hagree.
  assert (∀ k, (k ≤ 33)%nat →
            name <$> colorsByHue !! (10 * Z.of_nat (k + 2)) = Some "Orange")
    as Horange.
  { induction k as [|k IH]; intros Hk; [done|].
    specialize (IH ltac:(lia)).
    specialize (Hagree (k + 2)%nat ltac:(lia) ltac:(lia)).
    rewrite Nat.mod_small in Hagree by lia.
    rewrite !coarseHues_lookup_total in Hagree by lia.
    replace (k + 2 + 1)%nat with (S k + 2)%nat in Hagree by lia.
    by rewrite <-Hagree. }
  specialize (Horange 33%nat ltac:(lia)).
  specialize (Hagree 35%nat ltac:(lia) ltac:(lia)).
  rewrite !coarseHues_lookup_total in Hagree
    by (try apply Nat.mod_upper_bound; lia).
  change (10 * Z.of_nat (33 + 2)) with 350 in Horange.
  change (10 * Z.of_nat 35) with 350 in Hagree.
  change (10 * Z.of_nat ((35 + 1) `mod` 36)) with 0 in Hagree.
  rewrite Horange, H0 in Hagree. discriminate Hagree.
Qed.

(** The nearest run.  A first call against [red_orange_remote]: the coarse
    phase yields "Red" at 0 and 10 and "Orange" at 20 and at every later
    coarse point; the names then disagree on the pair 10, 20 and on the
    pair 350, 0.  Phase 2 records two ranges, from 10 to 20 and from 350
    round to 0, and the lookups of Phase 3 are those for 11 to 19 and for
    351 to 359. *)
Lemma red_red_orange_records_two_ranges :
  ∃ w1 colorsByHue,
    fetchBatch red_orange_remote None 50 50 coarseHues ∅ empty_world
      = (w1, inr colorsByHue) ∧
    name <$> colorsByHue !! 0 = Some "Red" ∧
    name <$> colorsByHue !! 10 = Some "Red" ∧
    Forall (λ h, name <$> colorsByHue !! h = Some "Orange")
      (drop 2 coarseHues) ∧
    boundaryRanges colorsByHue = [mk_range 10 20; mk_range 350 0] ∧
    boundaryRanges colorsByHue ≠ [mk_range 10 20] ∧
    drop 36 (requests warm_world)
    = (λ h, (h, 50, 50)) <$> (seqZ 11 9 ++ seqZ 351 9).
Proof.
  eexists _, _.
  split; [vm_compute; reflexivity|].
  split; [vm_compute; reflexivity|].
  split; [vm_compute; reflexivity|].
  split.
  { apply (bool_decide_unpack (Forall _ _)). vm_compute. exact I. }
  split; [vm_compute; reflexivity|].
  split; [vm_compute; by intros [=]|].
  vm_compute. reflexivity.
Qed.

Lemma boundaryRanges_red_red_orange :
  boundaryRanges red_red_orange = [mk_range 10 20; mk_range 350 0].
Proof. vm_compute. reflexivity. Qed.

(** If Phases 1 to 3 succeed and the coarse phase yields
    "Red" at 0 and 10 and "Orange" at 20 and at every later coarse point,
    then Phase 2 records exactly the two ranges from 10 to 20 and from 350
    to 0; Phase 3 resolves exactly the points 11 to 19 and 351 to 359; and
    the remote lookups of the call are those for the coarse points and
    these interior points that were not cached when the call started, in
    this order. *)
Theorem red_red_orange_scenario
    (remote : nat → Z → Z → Z → fetch_result) (s l : Z)
    (signal : option AbortSignal) (w w' : world)
    (colorsByHue : gmap Z colorData) :
  samplePhases remote s l signal w = (w', inr colorsByHue) →
  (∀ h, h ∈ coarseHues →
     name <$> colorsByHue !! h
     = Some (if bool_decide (h < 20) then "Red" else "Orange")) →
  boundaryRanges colorsByHue = [mk_range 10 20; mk_range 350 0] ∧
  (∀ h, is_Some (colorsByHue !! h) ↔
        h ∈ coarseHues ++ seqZ 11 9 ++ seqZ 351 9) ∧
  requests w'
  = requests w
    ++ ((λ h, (h, s, l))
        <$> filter (uncached s l (cache w))
              (coarseHues ++ seqZ 11 9 ++ seqZ 351 9)).
Proof.
  intros Hrun Hnames.
  apply samplePhases_spec in Hrun as (looked & Hl & Hres).
  unfold stretch_result in Hres. destruct (all_settled _); [done|].
  destruct Hres as (m & [= <-] & -> & Hcached & Hm).
  assert (boundaryRanges colorsByHue = [mk_range 10 20; mk_range 350 0])
    as Hranges.
  { rewrite <-boundaryRanges_red_red_orange. apply boundaryRanges_names.
    intros h Hh. by rewrite Hnames, red_red_orange_names. }
  assert (neededHues s l (cache w')
          = coarseHues ++ seqZ 11 9 ++ seqZ 351 9) as Hneeded.
  { unfold neededHues. f_equal.
    replace (boundaryRanges (with_cached s l (cache w') coarseHues ∅))
      with (boundaryRanges colorsByHue); [by rewrite Hranges|].
    apply boundaryRanges_names. intros h Hh.
    rewrite Hm, with_cached_lookup.
    assert (h ∈ neededHues s l (cache w')) as Hin
      by (apply elem_of_app; by left).
    rewrite !decide_True; [done|by auto|done]. }
  rewrite Hneeded in *. split; [done|]. split.
  - intros h. rewrite Hm. destruct (decide _) as [Hin|Hnin].
    + split; [done|]. intros _. by apply Hcached.
    + split; [by intros [? ?]|done].
  - by destruct Hl as [-> _ _ _].
Qed.

(** The session map of a first call against [red_orange_remote]. *)
Definition warm_session : gmap Z colorData :=
  match (samplePhases red_orange_remote 50 50 None empty_world).2 with
  | inr colorsByHue => colorsByHue
  | inl _ => ∅
  end.

Lemma red_red_orange_scenario_witness :
  samplePhases red_orange_remote 50 50 None empty_world
    = (warm_world, inr warm_session) ∧
  (∀ h, h ∈ coarseHues →
     name <$> warm_session !! h
     = Some (if bool_decide (h < 20) then "Red" else "Orange")) ∧
  requests warm_world
  = (λ h, (h, 50, 50)) <$> (coarseHues ++ seqZ 11 9 ++ seqZ 351 9).
Proof.
  assert (samplePhases red_orange_remote 50 50 None empty_world
          = (warm_world, inr warm_session)) as Hrun
    by (vm_compute; reflexivity).
  assert (∀ h, h ∈ coarseHues →
            name <$> warm_session !! h
            = Some (if bool_decide (h < 20) then "Red" else "Orange"))
    as Hnames.
  { apply Forall_forall.
    apply (bool_decide_unpack
             (Forall (λ h, name <$> warm_session !! h
                           = Some (if bool_decide (h < 20) then "Red"
                                   else "Orange")) coarseHues)).
    vm_compute. exact I. }
  split; [exact Hrun|]. split; [exact Hnames|].
  exact (proj2 (proj2 (red_red_orange_scenario _ _ _ _ _ _ _ Hrun Hnames))).
Defined.

(** * Further properties of the service *)

(** ** Cache keys never collide *)

(** Whether a string contains a comma. *)
Fixpoint has_comma (s : string) : bool :=
  match s with
  | EmptyString => false
  | String c rest => bool_decide (c = ","%char) || has_comma rest
  end.

Lemma pretty_N_char_no_comma (x : N) : pretty_N_char x ≠ ","%char.
Proof. unfold pretty_N_char. by repeat case_match. Qed.

Lemma pretty_N_go_no_comma (x : N) (s : string) :
  has_comma s = false → has_comma (pretty_N_go x s) = false.
Proof.
  revert s. induction (N.lt_wf_0 x) as [x _ IH]; intros s Hs.
  destruct (decide (x = 0)%N) as [->|Hx]; [by rewrite pretty_N_go_0|].
  rewrite pretty_N_go_step by lia. apply IH.
  - apply N.div_lt; lia.
  - simpl. rewrite Hs, orb_false_r. apply bool_decide_eq_false.
    apply pretty_N_char_no_comma.
Qed.

Lemma pretty_N_no_comma (x : N) : has_comma (pretty x) = false.
Proof.
  unfold pretty, pretty_N. case_decide; [done|].
  by apply pretty_N_go_no_comma.
Qed.

Lemma pretty_Z_no_comma (x : Z) : has_comma (pretty x) = false.
Proof.
  destruct x as [|p|p]; [done|apply pretty_N_no_comma|].
  change (pretty (Z.neg p)) with (String "-"%char (pretty (N.pos p))).
  simpl. apply pretty_N_no_comma.
Qed.

(** Two strings without comma that are followed by a comma and some text
    are told apart by the first comma. *)
Lemma comma_split (a a' t t' : string) :
  has_comma a = false → has_comma a' = false →
  a +:+ "," +:+ t = a' +:+ "," +:+ t' → a = a' ∧ t = t'.
Proof.
  revert a'. induction a as [|c a IH]; intros [|c' a'] Ha Ha' Heq.
  - change (String ","%char t = String ","%char t') in Heq.
    by injection Heq as Heq.
  - change (String ","%char t = String c' (a' +:+ "," +:+ t')) in Heq.
    injection Heq as <- _. simpl in Ha'.
    try rewrite bool_decide_eq_true_2 in Ha' by done. done.
  - change (String c (a +:+ "," +:+ t) = String ","%char t') in Heq.
    injection Heq as -> _. simpl in Ha.
    try rewrite bool_decide_eq_true_2 in Ha by done. done.
  - change (String c (a +:+ "," +:+ t) = String c' (a' +:+ "," +:+ t'))
      in Heq.
    injection Heq as -> Heq. simpl in Ha, Ha'.
    apply orb_false_iff in Ha as [_ Ha], Ha' as [_ Ha'].
    destruct (IH a' Ha Ha' Heq) as [-> ->]. done.
Qed.

(** The three numbers can be read back from a cache key. *)
Lemma cacheKey_eq_inv (h s l h' s' l' : Z) :
  cacheKey h s l = cacheKey h' s' l' → h = h' ∧ s = s' ∧ l = l'.
Proof.
  unfold cacheKey. intros Heq.
  apply comma_split in Heq as [Hh Heq]; [|apply pretty_Z_no_comma..].
  apply (inj pretty) in Hh as ->.
  change (pretty s +:+ "," +:+ pretty l = pretty s' +:+ "," +:+ pretty l')
    in Heq.
  apply comma_split in Heq as [Hs Hl]; [|apply pretty_Z_no_comma..].
  apply (inj pretty) in Hs as ->. apply (inj pretty) in Hl as ->. done.
Qed.

(** X1.  Two lookups share a cache key only if they agree on hue, saturation
    and lightness. *)
Theorem cacheKey_inj_triple (h s l h' s' l' : Z) :
  cacheKey h s l = cacheKey h' s' l' → h = h' ∧ s = s' ∧ l = l'.
Proof. apply cacheKey_eq_inv. Qed.

Lemma cacheKey_inj_triple_witness :
  cacheKey 1 23 4 = cacheKey 1 23 4 ∧ (1 = 1 ∧ 23 = 23 ∧ 4 = 4) ∧
  cacheKey 12 3 4 ≠ cacheKey 1 23 4.
Proof.
  split; [reflexivity|]. split.
  - apply (cacheKey_inj_triple 1 23 4 1 23 4). reflexivity.
  - intros Heq. destruct (cacheKey_inj_triple 12 3 4 1 23 4 Heq) as [Hh _].
    lia.
Defined.

(** ** areAllColorsCached and the cache invariant *)

(** [areAllColorsCached(hues, saturation, lightness)]:
    [hues.every(hue => cache.has(cacheKey))]. *)
Definition areAllColorsCached (hues : list Z) (saturation lightness : Z)
    (w : world) : bool :=
  forallb (λ hue,
    bool_decide (is_Some (cache w !! cacheKey hue saturation lightness)))
    hues.

(** Every object of the cache sits under the key made of its own hue,
    saturation and lightness. *)
Definition cache_keyed (w : world) : Prop :=
  ∀ k v, cache w !! k = Some v →
         k = cacheKey (hue v) (saturation v) (lightness v).

(** The fields [fetchColorData] copies from its arguments. *)
Definition is_for (s l h : Z) (v : colorData) : Prop :=
  hue v = h ∧ saturation v = s ∧ lightness v = l.

Lemma areAllColorsCached_true (hues : list Z) (s l : Z) (w : world) :
  areAllColorsCached hues s l w = true ↔
  ∀ h, h ∈ hues → is_Some (cache w !! cacheKey h s l).
Proof.
  unfold areAllColorsCached. rewrite forallb_forall. split.
  - intros Hall h Hh. apply list_elem_of_In in Hh.
    by apply Hall, bool_decide_eq_true in Hh.
  - intros Hall h Hh. apply bool_decide_eq_true, Hall.
    by apply list_elem_of_In.
Qed.

Section MoreRuns.

Variable remote : nat → Z → Z → Z → fetch_result.
Variable signal : option AbortSignal.
Variables saturation lightness : Z.

Local Abbreviation key h := (cacheKey h saturation lightness).
Local Abbreviation triple h := (h, saturation, lightness).
Local Abbreviation uncached_in c := (uncached saturation lightness c).

(** What a started call settles to. *)
Definition outcome (p : started) : js_error + colorData :=
  match p with
  | Settled v => inr v
  | InFlight h res => fetchColorData_response h saturation lightness res
  end.

(** A started call agrees with the cache it was started on. *)
Definition started_for (c : gmap string colorData) (h : Z) (p : started)
    : Prop :=
  match p with
  | Settled v => c !! key h = Some v
  | InFlight h' _ => h' = h ∧ c !! key h = None
  end.

Lemma start_all_general (chunk : list Z) (w w1 : world) (ps : list started) :
  start_all remote signal saturation lightness chunk w = (w1, ps) →
  cache w1 = cache w ∧
  requests w1
  = requests w ++ ((λ h, triple h) <$> filter (uncached_in (cache w)) chunk) ∧
  Forall2 (started_for (cache w)) chunk ps.
Proof.
  revert w w1 ps. induction chunk as [|h chunk IH]; intros w w1 ps Hrun;
    simpl in Hrun.
  { injection Hrun as <- <-. by rewrite app_nil_r. }
  unfold fetchColorData_start in Hrun.
  destruct (cache w !! key h) as [v|] eqn:Hh.
  - destruct (start_all remote signal saturation lightness chunk w)
      as [w2 ps'] eqn:Hrest.
    injection Hrun as <- <-. apply IH in Hrest as (Hc & Hr & Hps).
    split; [done|]. split.
    + rewrite filter_cons_False; [done|]. unfold uncached. by rewrite Hh.
    + by constructor.
  - match type of Hrun with
    | (let '(_, _) := start_all _ _ _ _ _ ?w' in _) = _ =>
        destruct (start_all remote signal saturation lightness chunk w')
          as [w2 ps'] eqn:Hrest
    end.
    injection Hrun as <- <-. apply IH in Hrest as (Hc & Hr & Hps).
    simpl in *. split; [done|]. split.
    + rewrite filter_cons_True by done. by rewrite Hr, <-app_assoc.
    + by constructor.
Qed.

Lemma finish_all_general (ps : list started) (w w2 : world)
    (os : list (js_error + colorData)) :
  finish_all saturation lightness ps w = (w2, os) →
  requests w2 = requests w ∧
  os = outcome <$> ps ∧
  (∀ k, (∀ h res, InFlight h res ∈ ps → key h ≠ k) →
        cache w2 !! k = cache w !! k) ∧
  (∀ k, is_Some (cache w !! k) → is_Some (cache w2 !! k)) ∧
  (∀ h res v, InFlight h res ∈ ps →
     fetchColorData_response h saturation lightness res = inr v →
     is_Some (cache w2 !! key h)) ∧
  (cache_keyed w → cache_keyed w2).
Proof.
  revert w w2 os. induction ps as [|p ps IH]; intros w w2 os Hrun;
    simpl in Hrun.
  { injection Hrun as <- <-. repeat split; try done.
    by intros ? ? ? ?%elem_of_nil. }
  destruct (fetchColorData_finish saturation lightness p w) as [w1 o]
    eqn:Hp.
  destruct (finish_all saturation lightness ps w1) as [w3 os'] eqn:Hrest.
  injection Hrun as <- <-.
  apply IH in Hrest as (Hr & -> & Hother & Hsome & Hstored & Hkeyed).
  assert (requests w1 = requests w ∧ o = outcome p ∧
          (∀ k, (∀ h res, p = InFlight h res → key h ≠ k) →
                cache w1 !! k = cache w !! k) ∧
          (∀ k, is_Some (cache w !! k) → is_Some (cache w1 !! k)) ∧
          (∀ h res v, p = InFlight h res →
             fetchColorData_response h saturation lightness res = inr v →
             is_Some (cache w1 !! key h)) ∧
          (cache_keyed w → cache_keyed w1))
    as (Hr1 & -> & Hother1 & Hsome1 & Hstored1 & Hkeyed1).
  { destruct p as [v|h res]; simpl in Hp.
    - injection Hp as <- <-. repeat split; try done; by intros.
    - destruct (fetchColorData_response h saturation lightness res)
        as [e|cd] eqn:Hres; simpl in Hp; injection Hp as <- <-.
      + repeat split; try done. intros h' res' v [= <- <-] Hv.
        by rewrite Hres in Hv.
      + unfold cache_set. simpl. repeat split; try done.
        * intros k Hk. apply lookup_insert_ne. by eapply Hk.
        * intros k Hk. destruct (decide (key h = k)) as [<-|Hne].
          -- rewrite lookup_insert_eq. eauto.
          -- by rewrite lookup_insert_ne.
        * intros h' res' v [= <- <-] _. rewrite lookup_insert_eq. eauto.
        * intros Hw k v. simpl.
          destruct (decide (key h = k)) as [<-|Hne].
          -- rewrite lookup_insert_eq. intros [= <-].
             apply fetchColorData_response_fields in Hres
               as (-> & -> & ->). done.
          -- rewrite lookup_insert_ne by done. apply Hw. }
  split; [congruence|]. split; [done|]. split; [|split; [|split]].
  - intros k Hk. rewrite Hother; [rewrite Hother1; [done|]|].
    + intros h res Hp'. apply (Hk h res). rewrite Hp'. by left.
    + intros h res Hin. apply (Hk h res). by right.
  - auto.
  - intros h res v [Hp'|Hin]%elem_of_cons Hv.
    + apply Hsome. by eapply Hstored1.
    + by eapply Hstored.
  - auto.
Qed.

(** What holds of any chunk handed to [Promise.all], whether or not its
    hues are cached and whether or not a hue occurs twice. *)
Lemma Promise_all_general (chunk : list Z) (w w' : world)
    (out : js_error + list colorData) :
  Promise_all remote signal saturation lightness chunk w = (w', out) →
  cache w ⊆ cache w' ∧
  requests w'
  = requests w ++ ((λ h, triple h) <$> filter (uncached_in (cache w)) chunk) ∧
  (cache_keyed w → cache_keyed w') ∧
  ∀ vs, out = inr vs →
    length vs = length chunk ∧
    (∀ h, h ∈ chunk → is_Some (cache w' !! key h)) ∧
    (cache_keyed w → Forall2 (is_for saturation lightness) chunk vs).
Proof.
  unfold Promise_all. intros Hrun.
  destruct (start_all remote signal saturation lightness chunk w)
    as [w1 ps] eqn:Hstart.
  destruct (finish_all saturation lightness ps w1) as [w2 os] eqn:Hfinish.
  injection Hrun as <- <-.
  apply start_all_general in Hstart as (Hc1 & Hr1 & Hps).
  apply finish_all_general in Hfinish
    as (Hr2 & -> & Hother & Hsome & Hstored & Hkeyed).
  rewrite Hc1 in *.
  assert (cache w ⊆ cache w2) as Hsub.
  { apply map_subseteq_spec. intros k v Hk. rewrite Hother; [done|].
    intros h res Hin <-.
    apply list_elem_of_lookup in Hin as [i Hi].
    destruct (Forall2_lookup_r _ _ _ _ _ Hps Hi) as (h' & _ & [-> Hnone]).
    by rewrite Hnone in Hk. }
  split; [done|]. split; [by rewrite Hr2, Hr1|]. split.
  { intros Hw. apply Hkeyed. intros k v. rewrite Hc1. apply Hw. }
  intros vs Hvs. apply all_settled_inr in Hvs.
  assert (length vs = length chunk) as Hlen.
  { apply (f_equal length) in Hvs. rewrite !length_fmap in Hvs.
    by rewrite <-Hvs, (Forall2_length _ _ _ Hps). }
  split; [done|]. split.
  - intros h Hh. apply list_elem_of_lookup in Hh as [i Hi].
    destruct (Forall2_lookup_l _ _ _ _ _ Hps Hi) as (p & Hp & Hfor).
    destruct p as [v|h' res]; simpl in Hfor.
    + apply Hsome. eauto.
    + destruct Hfor as [-> _].
      assert (outcome (InFlight h res) ∈ outcome <$> ps) as Hin.
      { apply list_elem_of_fmap. exists (InFlight h res). split; [done|].
        by eapply list_elem_of_lookup_2. }
      rewrite Hvs in Hin. apply list_elem_of_fmap in Hin as (v & Hv & _).
      eapply Hstored; [by eapply list_elem_of_lookup_2|done].
  - intros Hw. apply Forall2_same_length_lookup. split; [done|].
    intros i h v Hi Hv.
    destruct (Forall2_lookup_l _ _ _ _ _ Hps Hi) as (p & Hp & Hfor).
    assert (outcome p = inr v) as Hout.
    { apply (f_equal (λ l, l !! i)) in Hvs.
      rewrite !list_lookup_fmap, Hp, Hv in Hvs. by injection Hvs. }
    destruct p as [v'|h' res]; simpl in Hfor, Hout.
    + injection Hout as ->. specialize (Hw _ _ Hfor).
      apply cacheKey_eq_inv in Hw as (? & ? & ?).
      unfold is_for. split; [|split]; symmetry; assumption.
    + destruct Hfor as [-> _].
      by apply fetchColorData_response_fields in Hout.
Qed.

Lemma start_all_cached (chunk : list Z) (w : world) :
  (∀ h, h ∈ chunk → is_Some (cache w !! key h)) →
  ∃ vs, start_all remote signal saturation lightness chunk w
        = (w, Settled <$> vs)
        ∧ Forall2 (λ h v, cache w !! key h = Some v) chunk vs.
Proof.
  induction chunk as [|h chunk IH]; intros Hall.
  { exists []. split; [done|]. constructor. }
  destruct (Hall h) as [v Hv]; [by left|].
  destruct IH as (vs & Hrun & Hvs); [intros; apply Hall; by right|].
  exists (v :: vs). split; [|by constructor].
  rewrite fmap_cons. cbn [start_all]. unfold fetchColorData_start.
  by rewrite Hv, Hrun.
Qed.

Lemma finish_all_settled (vs : list colorData) (w : world) :
  finish_all saturation lightness (Settled <$> vs) w = (w, inr <$> vs).
Proof.
  induction vs as [|v vs IH]; [done|]. rewrite !fmap_cons.
  cbn [finish_all fetchColorData_finish ret]. by rewrite IH.
Qed.

(** A chunk whose hues are all cached settles at once: nothing is looked
    up, nothing is stored, and the values are the cached objects. *)
Lemma Promise_all_cached (chunk : list Z) (w : world) :
  (∀ h, h ∈ chunk → is_Some (cache w !! key h)) →
  ∃ vs, Promise_all remote signal saturation lightness chunk w = (w, inr vs)
        ∧ Forall2 (λ h v, cache w !! key h = Some v) chunk vs.
Proof.
  intros Hall. destruct (start_all_cached chunk w Hall) as (vs & Hrun & Hvs).
  exists vs. split; [|done]. unfold Promise_all.
  rewrite Hrun, finish_all_settled. f_equal. by apply all_settled_inr.
Qed.

Lemma chunk_loop_general (fuel : nat) (hues : list Z) (i : nat)
    (results : list colorData) (w w' : world)
    (out : js_error + list colorData) :
  (length hues - i ≤ fuel)%nat →
  chunk_loop remote fuel signal saturation lightness hues i results w
    = (w', out) →
  cache w ⊆ cache w' ∧
  requests w `prefix_of` requests w' ∧
  (cache_keyed w → cache_keyed w') ∧
  ∀ vs', out = inr vs' →
    ∃ vs, vs' = results ++ vs ∧
      length vs = length (drop i hues) ∧
      (∀ h, h ∈ drop i hues → is_Some (cache w' !! key h)) ∧
      (cache_keyed w → Forall2 (is_for saturation lightness) (drop i hues) vs).
Proof.
  revert i results w. induction fuel as [|fuel IH];
    intros i results w Hfuel Hrun; simpl in Hrun.
  { injection Hrun as <- <-. rewrite drop_ge by lia.
    repeat split; try done. intros vs' [= <-]. exists [].
    rewrite app_nil_r. repeat split; try done.
    by intros ? ?%elem_of_nil. }
  case_bool_decide as Hi; cycle 1.
  { injection Hrun as <- <-. rewrite drop_ge by lia.
    repeat split; try done. intros vs' [= <-]. exists [].
    rewrite app_nil_r. repeat split; try done.
    by intros ? ?%elem_of_nil. }
  unfold bind in Hrun.
  destruct (Promise_all remote signal saturation lightness
              (take BATCH_SIZE (drop i hues)) w) as [w1 out1] eqn:Hchunk.
  apply Promise_all_general in Hchunk as (Hsub1 & Hr1 & Hk1 & Hvs1).
  destruct out1 as [e|vs1].
  { injection Hrun as <- <-. split; [done|].
    split; [rewrite Hr1; by apply prefix_app_r|]. split; [done|].
    by intros. }
  apply IH in Hrun as (Hsub2 & Hr2 & Hk2 & Hvs2);
    [|unfold BATCH_SIZE; lia].
  split; [by etrans|]. split.
  { etrans; [|done]. rewrite Hr1. by apply prefix_app_r. }
  split; [auto|]. intros vs' ->.
  destruct (Hvs2 _ eq_refl) as (vs2 & Heq & Hlen2 & Hc2 & Hf2).
  destruct (Hvs1 _ eq_refl) as (Hlen1 & Hc1 & Hf1).
  exists (vs1 ++ vs2). split; [by rewrite Heq, app_assoc|].
  assert (drop i hues = take BATCH_SIZE (drop i hues)
                        ++ drop (i + BATCH_SIZE) hues) as Hsplit.
  { by rewrite <-drop_drop, take_drop. }
  rewrite Hsplit. split; [by rewrite !length_app, Hlen1, Hlen2|]. split.
  - intros h [Hh|Hh]%elem_of_app; [|by apply Hc2].
    destruct (Hc1 h Hh) as [v Hv]. exists v. by eapply lookup_weaken.
  - intros Hw. apply Forall2_app; auto.
Qed.

End MoreRuns.

(** ** fetchMultipleColors *)

(** X2.  When [fetchMultipleColors] succeeds on a cache that keys its
    objects properly, it returns one object per requested hue, in the order
    of the request, each carrying the requested hue, saturation and
    lightness; afterwards every requested hue is cached
    ([areAllColorsCached] answers true), the cache has only grown and it
    still keys its objects properly. *)
Theorem fetchMultipleColors_success
    (remote : nat → Z → Z → Z → fetch_result) (hues : list Z) (s l : Z)
    (w w' : world) (results : list colorData) :
  cache_keyed w →
  fetchMultipleColors remote hues s l w = (w', inr results) →
  Forall2 (is_for s l) hues results ∧
  areAllColorsCached hues s l w' = true ∧
  cache w ⊆ cache w' ∧
  cache_keyed w'.
Proof.
  intros Hw Hrun. unfold fetchMultipleColors in Hrun.
  apply chunk_loop_general in Hrun as (Hsub & _ & Hk & Hvs); [|lia].
  destruct (Hvs _ eq_refl) as (vs & -> & _ & Hc & Hf).
  rewrite drop_0 in *. simpl. split; [auto|]. split; [|auto].
  by apply areAllColorsCached_true.
Qed.

Lemma cache_keyed_empty : cache_keyed empty_world.
Proof. intros k v Hk. vm_compute in Hk. discriminate Hk. Qed.

Lemma fetchMultipleColors_success_witness :
  cache_keyed empty_world ∧
  ∃ w' results,
    fetchMultipleColors numbering_remote [7; 7; 8] 50 50 empty_world
      = (w', inr results) ∧
    Forall2 (is_for 50 50) [7; 7; 8] results.
Proof.
  split; [exact cache_keyed_empty|]. eexists _, _.
  assert (fetchMultipleColors numbering_remote [7; 7; 8] 50 50 empty_world
          = ((fetchMultipleColors numbering_remote [7; 7; 8] 50 50
                empty_world).1,
             inr (match (fetchMultipleColors numbering_remote [7; 7; 8]
                           50 50 empty_world).2 with
                  | inr vs => vs
                  | inl _ => []
                  end))) as Hrun
    by (vm_compute; reflexivity).
  split; [exact Hrun|].
  exact (proj1 (fetchMultipleColors_success _ _ _ _ _ _ _
                  cache_keyed_empty Hrun)).
Defined.

Lemma chunk_loop_cached (remote : nat → Z → Z → Z → fetch_result)
    (signal : option AbortSignal) (s l : Z) (fuel : nat) (hues : list Z)
    (i : nat) (results : list colorData) (w : world) :
  (length hues - i ≤ fuel)%nat →
  (∀ h, h ∈ drop i hues → is_Some (cache w !! cacheKey h s l)) →
  ∃ vs, chunk_loop remote fuel signal s l hues i results w
        = (w, inr (results ++ vs))
        ∧ Forall2 (λ h v, cache w !! cacheKey h s l = Some v)
            (drop i hues) vs.
Proof.
  revert i results. induction fuel as [|fuel IH];
    intros i results Hfuel Hall; simpl.
  { exists []. rewrite app_nil_r, drop_ge by lia. split; [done|]. constructor. }
  case_bool_decide as Hi; cycle 1.
  { exists []. rewrite app_nil_r, drop_ge by lia. split; [done|]. constructor. }
  assert (drop i hues = take BATCH_SIZE (drop i hues)
                        ++ drop (i + BATCH_SIZE) hues) as Hsplit.
  { by rewrite <-drop_drop, take_drop. }
  destruct (Promise_all_cached remote signal s l
              (take BATCH_SIZE (drop i hues)) w) as (vs1 & Hrun1 & Hvs1).
  { intros h Hh. apply Hall. rewrite Hsplit. apply elem_of_app. by left. }
  destruct (IH (i + BATCH_SIZE)%nat (results ++ vs1)) as (vs2 & Hrun2 & Hvs2).
  { unfold BATCH_SIZE. lia. }
  { intros h Hh. apply Hall. rewrite Hsplit. apply elem_of_app. by right. }
  exists (vs1 ++ vs2). unfold bind. rewrite Hrun1, Hrun2, Hsplit.
  split; [by rewrite app_assoc|]. by apply Forall2_app.
Qed.

Lemma chunk_loop_requests_grow (remote : nat → Z → Z → Z → fetch_result)
    (signal : option AbortSignal) (s l : Z) (fuel : nat) (hues : list Z)
    (i : nat) (results : list colorData) (w w' : world)
    (out : js_error + list colorData) (h : Z) :
  (length hues - i ≤ fuel)%nat →
  h ∈ drop i hues → cache w !! cacheKey h s l = None →
  chunk_loop remote fuel signal s l hues i results w = (w', out) →
  (length (requests w) < length (requests w'))%nat.
Proof.
  revert i results w. induction fuel as [|fuel IH];
    intros i results w Hfuel Hh Hnone Hrun; simpl in Hrun.
  { rewrite drop_ge in Hh by lia. by apply elem_of_nil in Hh. }
  case_bool_decide as Hi; cycle 1.
  { rewrite drop_ge in Hh by lia. by apply elem_of_nil in Hh. }
  assert (drop i hues = take BATCH_SIZE (drop i hues)
                        ++ drop (i + BATCH_SIZE) hues) as Hsplit.
  { by rewrite <-drop_drop, take_drop. }
  unfold bind in Hrun.
  destruct (Promise_all remote signal s l (take BATCH_SIZE (drop i hues)) w)
    as [w1 out1] eqn:Hchunk.
  pose proof Hchunk as Hchunk'.
  apply Promise_all_general in Hchunk' as (Hsub1 & Hr1 & _ & _).
  assert (length (requests w1) ≤ length (requests w'))%nat as Hmono.
  { destruct out1 as [e|vs1]; [by injection Hrun as <- _|].
    apply chunk_loop_general in Hrun as (_ & Hpre & _);
      [|unfold BATCH_SIZE; lia].
    by apply prefix_length. }
  rewrite Hsplit in Hh. apply elem_of_app in Hh as [Hh|Hh].
  - assert (h ∈ filter (uncached s l (cache w))
                  (take BATCH_SIZE (drop i hues))) as Hin
      by (by apply list_elem_of_filter).
    assert (0 < length (filter (uncached s l (cache w))
                          (take BATCH_SIZE (drop i hues))))%nat as Hpos.
    { destruct (filter _ _); [by apply elem_of_nil in Hin|simpl; lia]. }
    rewrite Hr1, length_app, length_fmap in Hmono. lia.
  - destruct (decide (Forall (λ h', is_Some (cache w !! cacheKey h' s l))
                        (take BATCH_SIZE (drop i hues))))
      as [Hall|Hnot]; rewrite Forall_forall in *.
    + destruct (Promise_all_cached remote signal s l _ w Hall)
        as (vs1 & Hrun1 & _).
      rewrite Hrun1 in Hchunk. injection Hchunk as <- <-.
      eapply IH; [|done|done|done]. unfold BATCH_SIZE. lia.
    + assert (filter (uncached s l (cache w))
                (take BATCH_SIZE (drop i hues)) ≠ []) as Hne.
      { intros Hnil. apply Hnot. intros h' Hh'.
        destruct (cache w !! cacheKey h' s l) as [v|] eqn:Hv; [eauto|].
        assert (h' ∈ filter (uncached s l (cache w))
                       (take BATCH_SIZE (drop i hues))) as Hin
          by (by apply list_elem_of_filter).
        rewrite Hnil in Hin. by apply elem_of_nil in Hin. }
      rewrite Hr1, length_app, length_fmap in Hmono.
      destruct (filter _ _); [done|simpl in Hmono; lia].
Qed.

Lemma areAllColorsCached_false (hues : list Z) (s l : Z) (w : world) :
  areAllColorsCached hues s l w = false →
  ∃ h, h ∈ hues ∧ cache w !! cacheKey h s l = None.
Proof.
  unfold areAllColorsCached. induction hues as [|h hues IH]; [done|].
  simpl. intros [Hh|Hrest]%andb_false_iff.
  - exists h. split; [by left|]. apply bool_decide_eq_false in Hh.
    by apply eq_None_not_Some.
  - destruct (IH Hrest) as (h' & Hh' & Hnone). exists h'.
    split; [by right|done].
Qed.

(** X3.  [areAllColorsCached] tells whether [fetchMultipleColors] will go
    to the network.  If it answers true, [fetchMultipleColors] leaves the
    world as it is and returns the cached objects, in the order of the
    request; if it answers false, [fetchMultipleColors] issues at least one
    remote lookup, whatever the classifier. *)
Theorem areAllColorsCached_decides_lookups
    (remote : nat → Z → Z → Z → fetch_result) (hues : list Z) (s l : Z)
    (w : world) :
  (areAllColorsCached hues s l w = true →
   ∃ results,
     fetchMultipleColors remote hues s l w = (w, inr results) ∧
     Forall2 (λ h v, cache w !! cacheKey h s l = Some v) hues results) ∧
  (areAllColorsCached hues s l w = false →
   (length (requests w)
    < length (requests (fetchMultipleColors remote hues s l w).1))%nat).
Proof.
  split.
  - intros Hall. pose proof (proj1 (areAllColorsCached_true _ _ _ _) Hall)
      as Hall'. clear Hall. rename Hall' into Hall.
    unfold fetchMultipleColors.
    destruct (chunk_loop_cached remote None s l (length hues) hues 0 [] w)
      as (vs & Hrun & Hvs); [lia|by rewrite drop_0|].
    rewrite drop_0 in Hvs. eauto.
  - intros Hfalse.
    destruct (areAllColorsCached_false _ _ _ _ Hfalse) as (h & Hh & Hnone).
    destruct (fetchMultipleColors remote hues s l w) as [w' out] eqn:Hrun.
    simpl. unfold fetchMultipleColors in Hrun.
    eapply chunk_loop_requests_grow; [|by rewrite drop_0|done|done]. lia.
Qed.

Lemma areAllColorsCached_decides_lookups_witness :
  areAllColorsCached [0; 10; 359] 50 50 warm_world = true ∧
  (fetchMultipleColors failing_remote [0; 10; 359] 50 50 warm_world).1
  = warm_world ∧
  areAllColorsCached [0; 10; 5] 50 50 warm_world = false ∧
  Nat.lt (length (requests warm_world))
    (length (requests (fetchMultipleColors failing_remote [0; 10; 5] 50 50
                         warm_world).1)).
Proof.
  assert (areAllColorsCached [0; 10; 359] 50 50 warm_world = true) as Ht
    by (vm_compute; reflexivity).
  assert (areAllColorsCached [0; 10; 5] 50 50 warm_world = false) as Hf
    by (vm_compute; reflexivity).
  split; [exact Ht|]. split; [|split; [exact Hf|]].
  - destruct (proj1 (areAllColorsCached_decides_lookups failing_remote
                       [0; 10; 359] 50 50 warm_world) Ht)
      as (results & Hrun & _).
    exact (f_equal fst Hrun).
  - exact (proj2 (areAllColorsCached_decides_lookups failing_remote
                    [0; 10; 5] 50 50 warm_world) Hf).
Defined.

(** ** fetchColorData: failures are not cached *)

(** X4.  A call of [fetchColorData] that fails was a cache miss; it has
    issued exactly one remote lookup, whose answer was the failure, and has
    stored nothing.  The next call for the same key therefore goes to the
    network again, whatever the classifier and the signal then are. *)
Theorem fetchColorData_failure_not_cached
    (remote remote' : nat → Z → Z → Z → fetch_result) (h s l : Z)
    (signal signal' : option AbortSignal) (w w' : world) (e : js_error) :
  fetchColorData remote h s l signal w = (w', inl e) →
  cache w !! cacheKey h s l = None ∧
  cache w' = cache w ∧
  requests w' = requests w ++ [(h, s, l)] ∧
  response_of remote signal s l (length (requests w)) h = inl e ∧
  requests (fetchColorData remote' h s l signal' w').1
  = requests w' ++ [(h, s, l)].
Proof.
  unfold fetchColorData, fetchColorData_start, response_of.
  destruct (cache w !! cacheKey h s l) as [v|] eqn:Hc; simpl; [done|].
  destruct (fetchColorData_response h s l
              (fetch remote signal (length (requests w)) h s l))
    as [e'|cd] eqn:Hres; simpl; [|done].
  intros [= <- <-]. simpl. rewrite Hc. simpl.
  do 4 (split; [done|]).
  by destruct (fetchColorData_response h s l
                 (fetch remote' signal' _ h s l)).
Qed.

Lemma fetchColorData_failure_not_cached_witness :
  ∃ w',
    fetchColorData failing_remote 7 50 50 None empty_world
      = (w', inl (TypeError "Failed to fetch")) ∧
    requests (fetchColorData numbering_remote 7 50 50 None w').1
    = [(7, 50, 50); (7, 50, 50)].
Proof.
  eexists.
  assert (fetchColorData failing_remote 7 50 50 None empty_world
          = ((fetchColorData failing_remote 7 50 50 None empty_world).1,
             inl (TypeError "Failed to fetch"))) as Hrun
    by (vm_compute; reflexivity).
  split; [exact Hrun|].
  exact (proj2 (proj2 (proj2 (proj2
           (fetchColorData_failure_not_cached failing_remote
              numbering_remote 7 50 50 None None _ _ _ Hrun))))).
Defined.

(** ** How many lookups a call issues *)

(** Every hue Phases 1 and 3 can ever sample. *)
Definition allHues : list Z := coarseHues ++ flat_map fillHues coarsePairs.

Lemma allHues_range : ∀ h, h ∈ allHues → 0 ≤ h < 360.
Proof.
  apply Forall_forall.
  apply (bool_decide_unpack (Forall (λ h, 0 ≤ h < 360) allHues)).
  vm_compute. exact I.
Qed.

Lemma length_allHues : length allHues = 360%nat.
Proof. reflexivity. Qed.

Lemma neededHues_allHues (s l : Z) (c : gmap string colorData) (h : Z) :
  h ∈ neededHues s l c → h ∈ allHues.
Proof.
  unfold neededHues, allHues. intros [Hh|Hh]%elem_of_app.
  - apply elem_of_app. by left.
  - apply elem_of_app. right.
    eapply elem_of_sublist; [done|].
    apply flat_map_sublist, boundaryRanges_sublist.
Qed.

(** Whether they succeed or not, Phases 1 to 3 only look up hues of the
    circle. *)
Lemma samplePhases_lookups_in_range
    (remote : nat → Z → Z → Z → fetch_result) (signal : option AbortSignal)
    (s l : Z) (w w' : world) (out : js_error + gmap Z colorData) :
  samplePhases remote s l signal w = (w', out) →
  ∃ looked_up,
    lookups remote signal s l w w' looked_up ∧
    ∀ h, h ∈ looked_up → h ∈ allHues.
Proof.
  unfold samplePhases, bind. intros Hrun.
  destruct (fetchBatch remote signal s l coarseHues ∅ w) as [w1 out1]
    eqn:Hbatch.
  apply fetchBatch_spec in Hbatch as (looked1 & Hl1 & Hpre1 & Hres1);
    [|apply NoDup_coarseHues].
  assert (∀ h, h ∈ looked1 → h ∈ allHues) as Hin1.
  { intros h Hh. apply elem_of_app. left.
    eapply elem_of_prefix in Hh; [|done].
    by apply list_elem_of_filter in Hh as [_ ?]. }
  unfold stretch_result in Hres1.
  destruct (all_settled (responses remote signal s l (length (requests w))
                           looked1)) as [e|vs] eqn:Hvs.
  { subst out1. injection Hrun as <- <-. eauto. }
  destruct Hres1 as (m1 & -> & _ & Hcached & Hm1).
  pose proof (lookups_subseteq _ _ _ _ _ _ _ Hl1) as Hsub1.
  assert (resolved s l m1 (cache w1) coarseHues) as Hres1.
  { apply (resolved_app s l ∅ m1 (cache w) (cache w1) [] coarseHues);
      [apply resolved_nil|done..]. }
  pose proof (NoDup_sampled m1) as Hnd.
  apply NoDup_app in Hnd as (_ & _ & Hndf).
  apply (fill_loop_spec _ _ _ _ _ _ coarseHues) in Hrun
    as (looked2 & Hl2 & Hpre2 & _); [|done..].
  exists (looked1 ++ looked2). split; [by eapply lookups_app|].
  intros h [Hh|Hh]%elem_of_app; [by apply Hin1|].
  apply elem_of_app. right.
  eapply elem_of_prefix in Hh; [|done].
  apply list_elem_of_filter in Hh as [_ Hh].
  eapply elem_of_sublist; [done|].
  apply flat_map_sublist, boundaryRanges_sublist.
Qed.

(** X5.  Whatever its outcome, a call of [fetchDistinctColors] issues at
    most 360 remote lookups, none of them twice, each for a hue of the
    circle whose key was not cached when the call started. *)
Theorem lookups_per_call_bounded
    (remote : nat → Z → Z → Z → fetch_result) (s l : Z)
    (signal : option AbortSignal) (w w' : world)
    (out : js_error + list colorData) :
  fetchDistinctColors remote s l signal w = (w', out) →
  (length (requests w') ≤ length (requests w) + 360)%nat ∧
  requests w `prefix_of` requests w' ∧
  NoDup (drop (length (requests w)) (requests w')) ∧
  ∀ i h, issued s l w w' i h →
         0 ≤ h < 360 ∧ cache w !! cacheKey h s l = None.
Proof.
  intros Hrun.
  assert (∃ out', samplePhases remote s l signal w = (w', out'))
    as [out' Hphases].
  { destruct out as [e|vs].
    - apply fetchDistinctColors_inl in Hrun. eauto.
    - apply fetchDistinctColors_inr in Hrun as (m & Hrun & _). eauto. }
  apply samplePhases_lookups_in_range in Hphases as (looked & Hl & Hin).
  pose proof (lookups_length _ _ _ _ _ _ _ Hl) as Hlen.
  pose proof Hl as [Hr _ Hnd Hmiss].
  split; [|split; [|split]].
  - rewrite Hlen, <-length_allHues. apply Nat.add_le_mono_l.
    apply submseteq_length, NoDup_submseteq; done.
  - rewrite Hr. by apply prefix_app_r.
  - by eapply NoDup_issued.
  - intros i h Hi. eapply issued_lookups in Hi as (j & -> & Hj); [|done].
    apply list_elem_of_lookup_2 in Hj. split.
    + by apply allHues_range, Hin.
    + by apply Hmiss.
Qed.

Lemma lookups_per_call_bounded_witness :
  fetchDistinctColors red_orange_remote 50 50 (Some fires_at_40) empty_world
    = (cancelled_world, inl AbortError) ∧
  (length (requests cancelled_world) ≤ length (requests empty_world) + 360)%nat.
Proof.
  assert (fetchDistinctColors red_orange_remote 50 50 (Some fires_at_40)
            empty_world = (cancelled_world, inl AbortError)) as Hrun
    by (vm_compute; reflexivity).
  split; [exact Hrun|].
  exact (proj1 (lookups_per_call_bounded _ _ _ _ _ _ _ Hrun)).
Defined.

Lemma length_fillHues_coarsePair (range : boundaryRange) :
  range ∈ coarsePairs → fillHues range = seqZ (range_start range + 1) 9.
Proof.
  revert range. apply Forall_forall.
  apply (bool_decide_unpack
           (Forall (λ range, fillHues range
                             = seqZ (range_start range + 1) 9) coarsePairs)).
  vm_compute. exact I.
Qed.

Lemma length_flat_map_fillHues (ranges : list boundaryRange) :
  (∀ range, range ∈ ranges → range ∈ coarsePairs) →
  length (flat_map fillHues ranges) = (9 * length ranges)%nat.
Proof.
  induction ranges as [|range ranges IH]; intros Hall; [done|].
  simpl. rewrite length_app, IH by (intros; apply Hall; by right).
  rewrite length_fillHues_coarsePair by (apply Hall; by left).
  rewrite length_seqZ. lia.
Qed.

Lemma filter_uncached_empty (s l : Z) (hues : list Z) :
  filter (uncached s l ∅) hues = hues.
Proof.
  induction hues as [|h hues IH]; [done|].
  rewrite filter_cons_True; [by f_equal|]. apply lookup_empty.
Qed.

(** X6.  A call that succeeds has looked up exactly the needed hues that
    were not cached when it started, the coarse ones first: 36 coarse hues
    and nine interior hues for each of the [k] ranges of Phase 2, [k] being
    at most 36.  From an empty cache that makes [36 + 9 * k] lookups. *)
Theorem lookups_of_successful_call
    (remote : nat → Z → Z → Z → fetch_result) (s l : Z)
    (signal : option AbortSignal) (w w' : world)
    (distinctColors : list colorData) :
  fetchDistinctColors remote s l signal w = (w', inr distinctColors) →
  ∃ colorsByHue,
    samplePhases remote s l signal w = (w', inr colorsByHue) ∧
    let k := length (boundaryRanges colorsByHue) in
    requests w'
    = requests w
      ++ ((λ h, (h, s, l))
          <$> filter (uncached s l (cache w))
                (coarseHues ++ flat_map fillHues (boundaryRanges colorsByHue)))
    ∧ length (coarseHues ++ flat_map fillHues (boundaryRanges colorsByHue))
      = (36 + 9 * k)%nat
    ∧ (k ≤ 36)%nat
    ∧ (cache w = ∅ →
       length (requests w') = (length (requests w) + (36 + 9 * k))%nat).
Proof.
  intros Hrun.
  apply fetchDistinctColors_inr in Hrun as (m & Hrun & _).
  exists m. split; [done|].
  apply samplePhases_spec in Hrun as (looked & Hl & Hres).
  unfold stretch_result in Hres. destruct (all_settled _); [done|].
  destruct Hres as (m' & [= <-] & -> & Hcached & Hm).
  assert (boundaryRanges (with_cached s l (cache w') coarseHues ∅)
          = boundaryRanges m) as Hranges.
  { apply boundaryRanges_names. intros h Hh.
    rewrite Hm, with_cached_lookup.
    assert (h ∈ neededHues s l (cache w')) as Hin
      by (apply elem_of_app; by left).
    rewrite !decide_True; [done|done|by auto]. }
  unfold neededHues in *. rewrite Hranges in *.
  assert (length (coarseHues ++ flat_map fillHues (boundaryRanges m))
          = (36 + 9 * length (boundaryRanges m))%nat) as Hlen.
  { rewrite length_app, length_coarseHues. f_equal.
    apply length_flat_map_fillHues. intros range Hr.
    eapply elem_of_sublist; [done|apply boundaryRanges_sublist]. }
  cbv zeta. split; [by destruct Hl as [-> _ _ _]|]. split; [done|]. split.
  - exact (sublist_length _ _ (boundaryRanges_sublist m)).
  - intros Hempty. rewrite (lookups_length _ _ _ _ _ _ _ Hl). f_equal.
    rewrite <-Hlen. f_equal. rewrite Hempty. apply filter_uncached_empty.
Qed.

Lemma lookups_of_successful_call_witness :
  ∃ distinctColors colorsByHue,
    fetchDistinctColors red_orange_remote 50 50 None empty_world
      = (warm_world, inr distinctColors) ∧
    samplePhases red_orange_remote 50 50 None empty_world
      = (warm_world, inr colorsByHue) ∧
    length (requests warm_world)
    = (length (requests empty_world)
       + (36 + 9 * length (boundaryRanges colorsByHue)))%nat.
Proof.
  assert (fetchDistinctColors red_orange_remote 50 50 None empty_world
          = (warm_world,
             inr (match (fetchDistinctColors red_orange_remote 50 50 None
                           empty_world).2 with
                  | inr vs => vs
                  | inl _ => []
                  end))) as Hrun
    by (vm_compute; reflexivity).
  destruct (lookups_of_successful_call _ _ _ _ _ _ _ Hrun)
    as (m & Hphases & Hreq & Hlen & Hk & Hcold).
  eexists _, m. split; [exact Hrun|]. split; [exact Hphases|].
  exact (Hcold eq_refl).
Defined.

(** ** More on Phase 4 *)

Lemma collect_loop_sublist (colors : list colorData) (seenNames : gset string)
    (distinctColors : list colorData) :
  ∃ added,
    collect_loop colors seenNames distinctColors = distinctColors ++ added ∧
    added `sublist_of` colors.
Proof.
  revert seenNames distinctColors.
  induction colors as [|color rest IH]; intros seen acc; simpl.
  { exists []. by rewrite app_nil_r. }
  repeat case_bool_decide.
  - destruct (IH seen acc) as (added & -> & Hsub). exists added.
    split; [done|]. by apply sublist_cons.
  - destruct (IH seen acc) as (added & -> & Hsub). exists added.
    split; [done|]. by apply sublist_cons.
  - destruct (IH ({[name color]} ∪ seen) (acc ++ [color]))
      as (added & -> & Hsub).
    exists (color :: added). split; [by rewrite <-app_assoc|].
    by apply sublist_skip.
Qed.

Lemma collect_loop_complete (colors : list colorData)
    (seenNames : gset string) (distinctColors : list colorData)
    (color : colorData) :
  color ∈ colors → name color ≠ "" → name color ≠ "Unnamed" →
  name color ∉ seenNames →
  name color ∈ name <$> collect_loop colors seenNames distinctColors.
Proof.
  revert seenNames distinctColors.
  induction colors as [|head rest IH]; intros seen acc Hin Hn1 Hn2 Hseen.
  { by apply elem_of_nil in Hin. }
  simpl. apply elem_of_cons in Hin as [<-|Hin].
  - rewrite bool_decide_eq_false_2 by (by intros [?|?]).
    rewrite bool_decide_eq_false_2 by done.
    destruct (collect_loop_sublist rest ({[name color]} ∪ seen)
                (acc ++ [color])) as (added & -> & _).
    rewrite !fmap_app. apply elem_of_app. left. apply elem_of_app. right.
    by left.
  - repeat case_bool_decide; try by apply IH.
    destruct (decide (name color = name head)) as [Heq|Hne].
    + destruct (collect_loop_sublist rest ({[name head]} ∪ seen)
                  (acc ++ [head])) as (added & -> & _).
      rewrite !fmap_app, Heq. apply elem_of_app. left. apply elem_of_app.
      right. by left.
    + apply IH; try done. intros [Hx|Hx]%elem_of_union; [|done].
      apply elem_of_singleton in Hx. done.
Qed.

Lemma collectDistinct_complete (colorsByHue : gmap Z colorData) (h : Z)
    (color : colorData) :
  colorsByHue !! h = Some color → name color ≠ "" →
  name color ≠ "Unnamed" →
  name color ∈ name <$> collectDistinct colorsByHue.
Proof.
  intros Hh Hn1 Hn2. unfold collectDistinct.
  apply collect_loop_complete; [|done|done|apply not_elem_of_empty].
  apply list_elem_of_omap. exists h. split; [|done].
  apply elem_of_sortedHues. eauto.
Qed.

(** X7.  The sequence a successful call returns misses no name of the
    session: every name other than "" and "Unnamed" that the cache holds for
    a needed hue is the name of an entry of the sequence. *)
Theorem every_session_name_collected
    (remote : nat → Z → Z → Z → fetch_result) (s l : Z)
    (signal : option AbortSignal) (w w' : world)
    (distinctColors : list colorData) (h : Z) (color : colorData) :
  fetchDistinctColors remote s l signal w = (w', inr distinctColors) →
  h ∈ neededHues s l (cache w') →
  cache w' !! cacheKey h s l = Some color →
  name color ≠ "" → name color ≠ "Unnamed" →
  name color ∈ name <$> distinctColors.
Proof.
  intros Hrun Hh Hc Hn1 Hn2.
  apply fetchDistinctColors_spec in Hrun as (looked & Hl & Hres).
  unfold stretch_result in Hres. destruct (all_settled _); [done|].
  destruct Hres as (out & [= <-] & _ & m & [_ Hm] & ->).
  apply (collectDistinct_complete m h); [|done..].
  by rewrite Hm, decide_True.
Qed.

Lemma every_session_name_collected_witness :
  ∃ distinctColors color,
    fetchDistinctColors red_orange_remote 50 50 None empty_world
      = (warm_world, inr distinctColors) ∧
    355 ∈ neededHues 50 50 (cache warm_world) ∧
    cache warm_world !! cacheKey 355 50 50 = Some color ∧
    name color = "Orange" ∧
    name color ∈ name <$> distinctColors.
Proof.
  assert (fetchDistinctColors red_orange_remote 50 50 None empty_world
          = (warm_world,
             inr (match (fetchDistinctColors red_orange_remote 50 50 None
                           empty_world).2 with
                  | inr vs => vs
                  | inl _ => []
                  end))) as Hrun
    by (vm_compute; reflexivity).
  assert (355 ∈ neededHues 50 50 (cache warm_world)) as Hh.
  { apply (bool_decide_unpack (355 ∈ neededHues 50 50 (cache warm_world))).
    vm_compute. exact I. }
  assert (cache warm_world !! cacheKey 355 50 50
          = Some {| hue := 355; saturation := 50; lightness := 50;
                    name := "Orange";
                    rgb := {| red := Some 191; green := Some 64;
                              blue := Some 64 |};
                    hex := Some "#BF4040";
                    hsl := Some "hsl(0, 50%, 50%)" |}) as Hc
    by (vm_compute; reflexivity).
  eexists _, _. split; [exact Hrun|]. split; [exact Hh|].
  split; [exact Hc|]. split; [reflexivity|].
  apply (every_session_name_collected _ _ _ _ _ _ _ _ _ Hrun Hh Hc);
    by intros [=].
Defined.

(** ** The order and the fields of the result *)

Lemma StronglySorted_sublist {A} (R : relation A) (l1 l2 : list A) :
  l1 `sublist_of` l2 → StronglySorted R l2 → StronglySorted R l1.
Proof.
  induction 1 as [|x l1 l2 Hsub IH|x l1 l2 Hsub IH]; intros Hs.
  - done.
  - apply StronglySorted_inv in Hs as [Hs Hall]. constructor; [auto|].
    rewrite Forall_forall in *. intros y Hy. apply Hall.
    by eapply elem_of_sublist.
  - apply StronglySorted_inv in Hs as [Hs _]. auto.
Qed.

Lemma StronglySorted_le_lt (l : list Z) :
  StronglySorted Z.le l → NoDup l → StronglySorted Z.lt l.
Proof.
  induction 1 as [|x l Hs IH Hall]; intros Hnd; [constructor|].
  apply NoDup_cons in Hnd as [Hx Hnd]. constructor; [auto|].
  rewrite Forall_forall in *. intros y Hy.
  specialize (Hall y Hy). assert (x ≠ y) by (by intros ->). lia.
Qed.

Lemma sortedHues_NoDup (colorsByHue : gmap Z colorData) :
  NoDup (sortedHues colorsByHue).
Proof.
  unfold sortedHues. rewrite merge_sort_Permutation.
  apply NoDup_fst_map_to_list.
Qed.

Lemma hue_omap_lookup (colorsByHue : gmap Z colorData) (hues : list Z) :
  (∀ h c, colorsByHue !! h = Some c → hue c = h) →
  (∀ h, h ∈ hues → is_Some (colorsByHue !! h)) →
  hue <$> omap (λ h, colorsByHue !! h) hues = hues.
Proof.
  intros Hkey. induction hues as [|h hues IH]; intros Hall; [done|].
  destruct (Hall h) as [c Hc]; [by left|]. simpl. rewrite Hc. simpl.
  rewrite (Hkey _ _ Hc). f_equal. apply IH. intros; apply Hall. by right.
Qed.

Lemma stored_keyed (remote : nat → Z → Z → Z → fetch_result)
    (signal : option AbortSignal) (s l : Z) (n : nat) (hues : list Z)
    (c : gmap string colorData) :
  (∀ k v, c !! k = Some v →
          k = cacheKey (hue v) (saturation v) (lightness v)) →
  ∀ k v, stored remote signal s l n hues c !! k = Some v →
         k = cacheKey (hue v) (saturation v) (lightness v).
Proof.
  revert n c. induction hues as [|h hues IH]; intros n c Hc; simpl; [done|].
  apply IH. destruct (response_of remote signal s l n h) as [e|cd] eqn:Hr;
    [done|].
  intros k v. destruct (decide (cacheKey h s l = k)) as [<-|Hne].
  - rewrite lookup_insert_eq. intros [= <-].
    by apply fetchColorData_response_fields in Hr as (-> & -> & ->).
  - rewrite lookup_insert_ne by done. apply Hc.
Qed.

(** X8.  Starting from a cache that keys its objects properly, the
    sequence a successful call returns is in strictly ascending order of
    hue; every entry carries the saturation and lightness of the call and a
    hue of the circle, and is the object cached for that hue.  The cache
    still keys its objects properly. *)
Theorem result_sorted_by_hue
    (remote : nat → Z → Z → Z → fetch_result) (s l : Z)
    (signal : option AbortSignal) (w w' : world)
    (distinctColors : list colorData) :
  cache_keyed w →
  fetchDistinctColors remote s l signal w = (w', inr distinctColors) →
  StronglySorted Z.lt (hue <$> distinctColors) ∧
  (∀ color, color ∈ distinctColors →
     saturation color = s ∧ lightness color = l ∧ 0 ≤ hue color < 360 ∧
     cache w' !! cacheKey (hue color) s l = Some color) ∧
  cache_keyed w'.
Proof.
  intros Hw Hrun.
  apply fetchDistinctColors_spec in Hrun as (looked & Hl & Hres).
  unfold stretch_result in Hres. destruct (all_settled _); [done|].
  destruct Hres as (out & [= <-] & _ & m & [Hcached Hm] & ->).
  assert (cache_keyed w') as Hw'.
  { destruct Hl as [_ Hc _ _]. unfold cache_keyed. rewrite Hc.
    by apply stored_keyed. }
  assert (∀ h c, m !! h = Some c →
            h ∈ neededHues s l (cache w') ∧
            cache w' !! cacheKey h s l = Some c ∧ is_for s l h c) as Hsession.
  { intros h c Hh. rewrite Hm in Hh. case_decide as Hin; [|done].
    split; [done|]. split; [done|].
    apply Hw', cacheKey_eq_inv in Hh as (? & ? & ?).
    unfold is_for. by repeat split. }
  assert (collectDistinct m
          `sublist_of` omap (λ h, m !! h) (sortedHues m)) as Hsub.
  { unfold collectDistinct.
    by destruct (collect_loop_sublist
                   (omap (λ h, m !! h) (sortedHues m)) ∅ [])
      as (added & -> & ?). }
  split; [|split; [|done]].
  - apply (StronglySorted_sublist _ _
             (hue <$> omap (λ h, m !! h) (sortedHues m))).
    + by apply fmap_sublist.
    + rewrite hue_omap_lookup.
      * apply StronglySorted_le_lt;
          [apply sortedHues_sorted|apply sortedHues_NoDup].
      * intros h c Hh. by destruct (Hsession h c Hh) as (_ & _ & ? & _).
      * intros h. apply elem_of_sortedHues.
  - intros color Hc. eapply elem_of_sublist in Hc; [|done].
    apply list_elem_of_omap in Hc as (h & _ & Hh).
    destruct (Hsession h color Hh) as (Hin & Hcache & <- & <- & <-).
    repeat split; try done; by apply allHues_range, (neededHues_allHues _ _ _ _ Hin).
Qed.

Lemma result_sorted_by_hue_witness :
  cache_keyed empty_world ∧
  ∃ distinctColors,
    fetchDistinctColors red_orange_remote 50 50 None empty_world
      = (warm_world, inr distinctColors) ∧
    StronglySorted Z.lt (hue <$> distinctColors).
Proof.
  split; [exact cache_keyed_empty|].
  assert (fetchDistinctColors red_orange_remote 50 50 None empty_world
          = (warm_world,
             inr (match (fetchDistinctColors red_orange_remote 50 50 None
                           empty_world).2 with
                  | inr vs => vs
                  | inl _ => []
                  end))) as Hrun
    by (vm_compute; reflexivity).
  eexists. split; [exact Hrun|].
  exact (proj1 (result_sorted_by_hue _ _ _ _ _ _ _ cache_keyed_empty Hrun)).
Defined.

(** ** More on Phase 2 *)

Lemma NoDup_coarsePairs : NoDup coarsePairs.
Proof.
  apply (bool_decide_unpack (NoDup coarsePairs)). vm_compute. exact I.
Qed.

(** X9.  Every range Phase 2 records joins a coarse point to its cyclic
    successor, and Phase 3 samples exactly the nine hues that follow its
    start, the wrapping range from 350 to 0 included, never an end point;
    no range is recorded twice, and at most 36 are. *)
Theorem recorded_ranges_shape (colorsByHue : gmap Z colorData) :
  (∀ range, range ∈ boundaryRanges colorsByHue →
     range_start range ∈ coarseHues ∧
     range_end range = (range_start range + 10) `mod` 360 ∧
     fillHues range = seqZ (range_start range + 1) 9 ∧
     (range_start range ∉ fillHues range) ∧
     (range_end range ∉ fillHues range)) ∧
  NoDup (boundaryRanges colorsByHue) ∧
  (length (boundaryRanges colorsByHue) ≤ 36)%nat.
Proof.
  split; [|split].
  - intros range Hr.
    destruct (boundaryRanges_shape _ _ Hr) as (Hs & He & Hmod & Hend).
    assert (fillHues range = seqZ (range_start range + 1) 9) as Hfill.
    { apply length_fillHues_coarsePair.
      eapply elem_of_sublist; [done|apply boundaryRanges_sublist]. }
    split; [by apply elem_of_coarseHues|]. split; [done|].
    split; [done|]. rewrite Hfill. split.
    + intros Hin%elem_of_seqZ. lia.
    + intros Hin%elem_of_seqZ. rewrite Hend in Hin.
      destruct (decide (range_start range + 10 < 360)).
      * rewrite Z.mod_small in Hin by lia. lia.
      * assert (range_start range = 350) as Hst.
        { pose proof (Z_div_mod_eq_full (range_start range) 10). lia. }
        rewrite Hst in Hin. change ((350 + 10) `mod` 360) with 0 in Hin.
        lia.
  - eapply sublist_NoDup; [apply NoDup_coarsePairs|].
    apply boundaryRanges_sublist.
  - exact (sublist_length _ _ (boundaryRanges_sublist colorsByHue)).
Qed.

(** The name at the [i]-th coarse point, counting round the circle. *)
Definition coarse_name (colorsByHue : gmap Z colorData) (i : nat)
    : option string :=
  name <$> colorsByHue !! (10 * Z.of_nat (i `mod` 36)).

Lemma mod_36_succ (j : nat) : ((j `mod` 36 + 1) `mod` 36 = (j + 1) `mod` 36)%nat.
Proof. by rewrite Nat.Div0.add_mod_idemp_l. Qed.

(** X10.  Because the coarse points are paired round the circle, the names
    cannot change exactly once: when every coarse point is resolved with a
    name other than "Unnamed", Phase 2 never records exactly one range. *)
Theorem boundary_count_never_one (colorsByHue : gmap Z colorData) :
  (∀ h, h ∈ coarseHues →
     ∃ c, colorsByHue !! h = Some c ∧ name c ≠ "Unnamed") →
  length (boundaryRanges colorsByHue) ≠ 1%nat.
Proof.
  intros Hall Hlen.
  destruct (boundaryRanges colorsByHue) as [|range [|? ?]] eqn:Heq;
    try done. clear Hlen.
  assert (range ∈ boundaryRanges colorsByHue) as Hin
    by (rewrite Heq; by left).
  apply elem_of_boundaryRanges in Hin as (i0 & Hi0 & -> & Hchange).
  cbn [range_start range_end] in Hchange.
  assert (∀ j, (j < 36)%nat → 10 * Z.of_nat j ∈ coarseHues) as Hcoarse.
  { intros j Hj. apply elem_of_coarseHues. split; [lia|].
    rewrite Z.mul_comm. apply Z_mod_mult. }
  (* away from [i0] consecutive names agree *)
  assert (∀ j, (j `mod` 36 ≠ i0)%nat →
            coarse_name colorsByHue j = coarse_name colorsByHue (j + 1))
    as Hsame.
  { intros j Hj. unfold coarse_name. rewrite <-(mod_36_succ j).
    assert (j `mod` 36 < 36)%nat as Hlt by (apply Nat.mod_upper_bound; lia).
    assert ((j `mod` 36 + 1) `mod` 36 < 36)%nat as Hlt'
      by (apply Nat.mod_upper_bound; lia).
    generalize dependent (j `mod` 36)%nat. intros i Hi Hlt Hlt'.
    destruct (Hall _ (Hcoarse i Hlt)) as (c1 & Hc1 & Hn1).
    destruct (Hall _ (Hcoarse _ Hlt')) as (c2 & Hc2 & _).
    rewrite Hc1, Hc2. simpl. f_equal.
    destruct (decide (name c1 = name c2)) as [|Hne]; [done|].
    exfalso.
    assert (mk_range (10 * Z.of_nat i) (10 * Z.of_nat ((i + 1) `mod` 36))
            ∈ boundaryRanges colorsByHue) as Hin.
    { apply elem_of_boundaryRanges. exists i. split; [done|].
      split; [done|]. exists c1, c2. by repeat split. }
    rewrite Heq in Hin. apply list_elem_of_singleton in Hin.
    injection Hin as Hin _. lia. }
  (* so the name after [i0] is carried all the way round to [i0] *)
  assert (∀ k, (k ≤ 35)%nat →
            coarse_name colorsByHue (i0 + 1 + k)
            = coarse_name colorsByHue (i0 + 1)) as Hround.
  { induction k as [|k IH]; intros Hk; [by rewrite Nat.add_0_r|].
    rewrite <-IH by lia.
    replace (i0 + 1 + S k)%nat with (i0 + 1 + k + 1)%nat by lia.
    symmetry. apply Hsame.
    destruct (decide (i0 + 1 + k < 36)%nat).
    - rewrite Nat.mod_small by lia. lia.
    - replace (i0 + 1 + k)%nat with ((i0 + 1 + k - 36) + 1 * 36)%nat by lia.
      rewrite Nat.Div0.mod_add, Nat.mod_small by lia. lia. }
  specialize (Hround 35%nat ltac:(lia)).
  unfold coarse_name in Hround.
  replace (i0 + 1 + 35)%nat with (i0 + 1 * 36)%nat in Hround by lia.
  rewrite Nat.Div0.mod_add, (Nat.mod_small i0) in Hround by lia.
  destruct Hchange as (c1 & c2 & Hc1 & Hc2 & _ & Hne).
  rewrite Hc1, Hc2 in Hround. simpl in Hround. by injection Hround.
Qed.

Lemma boundary_count_never_one_witness :
  (∀ h, h ∈ coarseHues →
     ∃ c, red_red_orange !! h = Some c ∧ name c ≠ "Unnamed") ∧
  length (boundaryRanges red_red_orange) ≠ 1%nat.
Proof.
  assert (∀ h, h ∈ coarseHues →
            ∃ c, red_red_orange !! h = Some c ∧ name c ≠ "Unnamed") as Hall.
  { intros h Hh. pose proof (red_red_orange_names h Hh) as Hn.
    destruct (red_red_orange !! h) as [c|]; [|done].
    exists c. split; [done|]. injection Hn as ->.
    by case_bool_decide. }
  split; [exact Hall|].
  exact (boundary_count_never_one red_red_orange Hall).
Defined.

(** ** When the coarse samples all agree *)

(** X11.  If a call succeeds and every coarse point got the same name,
    Phase 2 records no range and Phase 3 looks nothing up: the remote
    lookups are those for the coarse hues that were not cached, and the
    names between the coarse points are never seen.  The sequence returned
    is empty when that name is "Unnamed" (or empty), and otherwise consists
    of the object of hue 0 alone. *)
Theorem uniform_coarse_names
    (remote : nat → Z → Z → Z → fetch_result) (s l : Z)
    (signal : option AbortSignal) (w w' : world)
    (distinctColors : list colorData) (n : string) :
  fetchDistinctColors remote s l signal w = (w', inr distinctColors) →
  (∀ h, h ∈ coarseHues →
     ∃ c, cache w' !! cacheKey h s l = Some c ∧ name c = n) →
  neededHues s l (cache w') = coarseHues ∧
  requests w'
  = requests w
    ++ ((λ h, (h, s, l)) <$> filter (uncached s l (cache w)) coarseHues) ∧
  (n = "" ∨ n = "Unnamed" → distinctColors = []) ∧
  (n ≠ "" → n ≠ "Unnamed" →
   ∃ c0, cache w' !! cacheKey 0 s l = Some c0 ∧ distinctColors = [c0]).
Proof.
  intros Hrun Hnames.
  assert (neededHues s l (cache w') = coarseHues) as Hneeded.
  { unfold neededHues.
    destruct (boundaryRanges (with_cached s l (cache w') coarseHues ∅))
      as [|range ranges] eqn:Heq; [by rewrite app_nil_r|].
    exfalso.
    assert (range ∈ boundaryRanges
                      (with_cached s l (cache w') coarseHues ∅)) as Hin
      by (rewrite Heq; by left).
    pose proof (boundaryRanges_shape _ _ Hin) as (Hs & He & Hmod & Hend).
    apply elem_of_boundaryRanges in Hin
      as (i & Hi & _ & c1 & c2 & Hc1 & Hc2 & _ & Hne).
    assert (∀ h c, h ∈ coarseHues →
              with_cached s l (cache w') coarseHues ∅ !! h = Some c →
              name c = n) as Hn.
    { intros h c Hh Hc. rewrite with_cached_lookup in Hc.
      destruct (Hnames h Hh) as (c' & Hc' & <-).
      rewrite decide_True in Hc by eauto. by simplify_eq. }
    assert (range_start range ∈ coarseHues) as Hs1
      by (by apply elem_of_coarseHues).
    assert (range_end range ∈ coarseHues) as He1.
    { apply elem_of_coarseHues. split; [done|].
      rewrite Hend. destruct (decide (range_start range + 10 < 360)).
      - rewrite (Z.mod_small (range_start range + 10) 360) by lia.
        rewrite <-Z.add_mod_idemp_l, Hmod by lia. done.
      - assert (range_start range = 350) as Hst.
        { pose proof (Z_div_mod_eq_full (range_start range) 10). lia. }
        by rewrite Hst. }
    apply Hne. by rewrite (Hn _ _ Hs1 Hc1), (Hn _ _ He1 Hc2). }
  apply fetchDistinctColors_spec in Hrun as (looked & Hl & Hres).
  unfold stretch_result in Hres. destruct (all_settled _); [done|].
  destruct Hres as (out & [= <-] & -> & m & [Hcached Hm] & ->).
  rewrite Hneeded in *.
  split; [done|]. split; [by destruct Hl as [-> _ _ _]|].
  destruct (collectDistinct_spec m) as (Hsent & Hnd & Hfirst).
  assert (∀ h c, m !! h = Some c → h ∈ coarseHues ∧ name c = n) as Hsession.
  { intros h c Hh. rewrite Hm in Hh. case_decide as Hin; [|done].
    split; [done|]. destruct (Hnames h Hin) as (c' & Hc' & <-).
    by simplify_eq. }
  assert (∀ c, c ∈ collectDistinct m → name c = n) as Hall.
  { intros c Hc. destruct (Hfirst c Hc) as (h & Hh & _).
    by destruct (Hsession h c Hh). }
  split.
  - intros Hn. destruct (collectDistinct m) as [|c cs] eqn:Hout; [done|].
    exfalso. destruct (Hsent c) as [H1 H2]; [by left|].
    rewrite (Hall c) in H1, H2 by (by left). by destruct Hn.
  - intros Hn1 Hn2.
    assert (0 ∈ coarseHues) as H0 by (by apply elem_of_coarseHues).
    destruct (Hnames 0 H0) as (c0 & Hc0 & Hname0).
    assert (m !! 0 = Some c0) as Hm0 by (by rewrite Hm, decide_True).
    exists c0. split; [done|].
    assert (name c0 ∈ name <$> collectDistinct m) as Hin.
    { apply (collectDistinct_complete m 0); [done|by rewrite Hname0..]. }
    destruct (collectDistinct m) as [|c cs] eqn:Hout.
    { by apply elem_of_nil in Hin. }
    destruct cs as [|c' cs].
    + f_equal. destruct (Hfirst c) as (h & Hh & Hmin); [by left|].
      assert (h = 0) as ->.
      { destruct (Hsession h c Hh) as [Hhc Hcn].
        apply elem_of_coarseHues in Hhc.
        specialize (Hmin 0 c0 Hm0 ltac:(by rewrite Hname0, Hcn)). lia. }
      by simplify_eq.
    + exfalso. rewrite !fmap_cons in Hnd.
      apply NoDup_cons in Hnd as [Hnotin _]. apply Hnotin.
      rewrite (Hall c), <-(Hall c') by (by repeat constructor). by left.
Qed.

(** A classifier that names every coarse hue "Teal" and every other hue
    after its number. *)
Definition teal_remote (n : nat) (h s l : Z) : fetch_result :=
  api_answer (Some (if bool_decide (h `mod` 10 = 0) then "Teal"
                    else pretty h)).

Lemma uniform_coarse_names_witness :
  ∃ w' distinctColors,
    fetchDistinctColors teal_remote 50 50 None empty_world
      = (w', inr distinctColors) ∧
    (∀ h, h ∈ coarseHues →
       ∃ c, cache w' !! cacheKey h 50 50 = Some c ∧ name c = "Teal") ∧
    neededHues 50 50 (cache w') = coarseHues.
Proof.
  assert (fetchDistinctColors teal_remote 50 50 None empty_world
          = ((fetchDistinctColors teal_remote 50 50 None empty_world).1,
             inr (match (fetchDistinctColors teal_remote 50 50 None
                           empty_world).2 with
                  | inr vs => vs
                  | inl _ => []
                  end))) as Hrun
    by (vm_compute; reflexivity).
  assert (∀ h, h ∈ coarseHues →
            ∃ c, cache (fetchDistinctColors teal_remote 50 50 None
                          empty_world).1 !! cacheKey h 50 50 = Some c
                 ∧ name c = "Teal") as Hnames.
  { intros h Hh.
    assert (name <$> cache (fetchDistinctColors teal_remote 50 50 None
                              empty_world).1 !! cacheKey h 50 50
            = Some "Teal") as Hn.
    { revert h Hh. apply Forall_forall.
      apply (bool_decide_unpack
               (Forall (λ h, name <$> cache (fetchDistinctColors teal_remote
                                               50 50 None empty_world).1
                                      !! cacheKey h 50 50 = Some "Teal")
                  coarseHues)).
      vm_compute. exact I. }
    destruct (cache _ !! cacheKey h 50 50) as [c|]; [|done].
    exists c. split; [done|]. by injection Hn. }
  eexists _, _. split; [exact Hrun|]. split; [exact Hnames|].
  exact (proj1 (uniform_coarse_names _ _ _ _ _ _ _ _ Hrun Hnames)).
Defined.

(** * The caller: handleValuesChange of App.jsx *)

(** The state of [App]: [colors], [isLoading] and [error] (its three
    [useState] cells; [null] is [None]). *)
Record appState : Type := mk_appState {
  colors : list colorData;
  isLoading : bool;
  error : option string
}.

(** [s.startsWith(sub)] *)
Fixpoint starts_with (s sub : string) : bool :=
  match sub, s with
  | EmptyString, _ => true
  | String _ _, EmptyString => false
  | String c sub', String d s' => bool_decide (c = d) && starts_with s' sub'
  end.

(** [s.includes(sub)] *)
Fixpoint includes (s sub : string) : bool :=
  starts_with s sub
  || match s with
     | EmptyString => false
     | String _ rest => includes rest sub
     end.

(** [err.message] of the errors that reach the [catch] block with a name
    other than [AbortError]. *)
Definition message (e : js_error) : string :=
  match e with
  | AbortError => ""
  | TypeError m | SyntaxError m | Error m => m
  end.

(** The message built in the [catch] block from [err.message]. *)
Definition errorMessage (msg : string) : string :=
  "Failed to load colors. "
  +:+ (if includes msg "Failed to fetch" then
         "Please check your internet connection and try again."
       else if includes msg "CORS" then
         "There was an issue connecting to the color service. Please try again."
       else match msg with
            | EmptyString => "Please try again."
            | String _ _ => msg
            end).

(** The handler up to its [await]: [setIsLoading(true); setError(null)].
    (Aborting the controller of the previous call is what makes that call's
    signal fire.) *)
Definition handleValuesChange_start (st : appState) : appState :=
  {| colors := colors st; isLoading := true; error := None |}.

(** The handler from the moment [fetchDistinctColors] settles; [aborted] is
    [abortController.signal.aborted] at that moment.  The [finally] block
    clears [isLoading] unless the signal has fired. *)
Definition handleValuesChange_settle (out : js_error + list colorData)
    (aborted : bool) (st : appState) : appState :=
  let finally (st' : appState) : appState :=
    if aborted then st'
    else {| colors := colors st'; isLoading := false; error := error st' |} in
  match out with
  | inr distinctColors =>
      if aborted then finally st
      else finally {| colors := distinctColors; isLoading := isLoading st;
                      error := None |}
  | inl AbortError => finally st
  | inl e =>
      finally {| colors := colors st; isLoading := isLoading st;
                 error := Some (errorMessage (message e)) |}
  end.

(** [handleValuesChange({ saturation, lightness })] when no other call of
    the handler settles in between; an [undefined] argument is [None]. *)
Definition handleValuesChange (remote : nat → Z → Z → Z → fetch_result)
    (saturation lightness : option Z) (signal : AbortSignal) (aborted : bool)
    (st : appState) (w : world) : appState * world :=
  match saturation, lightness with
  | Some s, Some l =>
      let '(w', out) := fetchDistinctColors remote s l (Some signal) w in
      (handleValuesChange_settle out aborted (handleValuesChange_start st),
       w')
  | _, _ => (st, w)
  end.

(** X12.  The colours on display are replaced exactly when the call
    succeeded and its signal has not fired.  The handler then displays the
    sequence of that call, whose names are pairwise distinct and never ""
    or "Unnamed", and clears the loading flag and the error.  When the call
    failed, or the signal has fired by the time it settles, the colours
    stay as they were; when an argument is undefined nothing changes and
    nothing is looked up. *)
Theorem colors_replaced_only_on_success
    (remote : nat → Z → Z → Z → fetch_result) (s l : Z)
    (signal : AbortSignal) (aborted : bool) (st : appState)
    (w w' : world) (out : js_error + list colorData) :
  fetchDistinctColors remote s l (Some signal) w = (w', out) →
  ∃ st',
    handleValuesChange remote (Some s) (Some l) signal aborted st w
      = (st', w') ∧
    (∀ distinctColors,
       out = inr distinctColors → aborted = false →
       st' = {| colors := distinctColors; isLoading := false;
                error := None |} ∧
       NoDup (name <$> distinctColors) ∧
       ∀ color, color ∈ distinctColors →
                name color ≠ "" ∧ name color ≠ "Unnamed") ∧
    (aborted = true ∨ (∃ e, out = inl e) → colors st' = colors st) ∧
    handleValuesChange remote None (Some l) signal aborted st w = (st, w) ∧
    handleValuesChange remote (Some s) None signal aborted st w = (st, w) ∧
    handleValuesChange remote None None signal aborted st w = (st, w).
Proof.
  intros Hcall. unfold handleValuesChange. rewrite Hcall.
  eexists. split; [reflexivity|]. split; [|split; [|done]].
  - intros distinctColors -> ->. split; [done|].
    apply fetchDistinctColors_inr in Hcall as (m & _ & ->).
    destruct (collectDistinct_spec m) as (Hsent & Hnd & _). by split.
  - intros [->|[e ->]].
    + by destruct out as [[]|].
    + by destruct e, aborted.
Qed.

Lemma colors_replaced_only_on_success_witness :
  ∃ distinctColors,
    name <$> distinctColors = ["Red"; "Orange"] ∧
    handleValuesChange red_orange_remote (Some 50) (Some 50) (λ _, false)
      false {| colors := []; isLoading := false; error := Some "old" |}
      empty_world
    = ({| colors := distinctColors; isLoading := false; error := None |},
       warm_world).
Proof.
  pose (out := (fetchDistinctColors red_orange_remote 50 50
                  (Some (λ _, false)) empty_world).2).
  assert (fetchDistinctColors red_orange_remote 50 50 (Some (λ _, false))
            empty_world
          = (warm_world,
             inr (match out with inr vs => vs | inl _ => [] end))) as Hrun
    by (vm_compute; reflexivity).
  destruct (colors_replaced_only_on_success red_orange_remote 50 50
              (λ _, false) false
              {| colors := []; isLoading := false; error := Some "old" |}
              _ _ _ Hrun) as (st' & Hhandled & Hshown & _).
  pose proof (proj1 (Hshown (match out with inr vs => vs | inl _ => [] end)
                       eq_refl eq_refl)) as Hst'.
  exists (match out with inr vs => vs | inl _ => [] end).
  split; [vm_compute; reflexivity|].
  exact (eq_trans Hhandled (f_equal (λ shown, (shown, warm_world)) Hst')).
Defined.

(** X13.  A cancelled call is silent.  If the signal has fired by the time
    one of the call's lookups settles (and so has fired when the call
    settles), and no lookup failed for another reason, the handler leaves
    the colours as they were, shows no error and keeps the loading flag
    set. *)
Theorem cancelled_call_is_silent
    (remote : nat → Z → Z → Z → fetch_result) (s l : Z)
    (signal : AbortSignal) (st st' : appState) (w w' : world)
    (i : nat) (h : Z) :
  (∀ n h', ∃ v, fetchColorData_response h' s l (remote n h' s l) = inr v) →
  handleValuesChange remote (Some s) (Some l) signal true st w = (st', w') →
  issued s l w w' i h →
  signal i = true →
  st' = {| colors := colors st; isLoading := true; error := None |}.
Proof.
  unfold handleValuesChange. intros Hok Hrun Hi Hab.
  destruct (fetchDistinctColors remote s l (Some signal) w) as [w1 out]
    eqn:Hcall.
  injection Hrun as <- <-.
  apply fetchDistinctColors_spec in Hcall as (looked & Hl & Hres).
  assert (response_of remote (Some signal) s l i h = inl AbortError) as He.
  { unfold response_of, fetch. by rewrite Hab. }
  destruct (stretch_result_failed _ _ _ _ _ _ _ _ _ _ _ _ Hl Hres Hi He)
    as [e' ->].
  destruct (stretch_result_inl _ _ _ _ _ _ _ _ _ Hl Hres)
    as (i' & h' & _ & He').
  assert (e' = AbortError) as ->.
  { unfold response_of, fetch in He'. destruct (signal i').
    - by injection He'.
    - destruct (Hok i' h') as [v Hv]. by rewrite Hv in He'. }
  done.
Qed.

Lemma cancelled_call_is_silent_witness :
  (∀ n h', ∃ v,
     fetchColorData_response h' 50 50 (red_orange_remote n h' 50 50) = inr v) ∧
  handleValuesChange red_orange_remote (Some 50) (Some 50) fires_at_40 true
    {| colors := []; isLoading := false; error := Some "old" |} empty_world
  = ({| colors := []; isLoading := true; error := None |}, cancelled_world).
Proof.
  assert (∀ n h', ∃ v,
            fetchColorData_response h' 50 50 (red_orange_remote n h' 50 50)
            = inr v) as Hok
    by (intros n h'; eexists; reflexivity).
  split; [exact Hok|].
  assert (handleValuesChange red_orange_remote (Some 50) (Some 50)
            fires_at_40 true
            {| colors := []; isLoading := false; error := Some "old" |}
            empty_world
          = ((handleValuesChange red_orange_remote (Some 50) (Some 50)
                fires_at_40 true
                {| colors := []; isLoading := false; error := Some "old" |}
                empty_world).1, cancelled_world)) as Hrun
    by (vm_compute; reflexivity).
  assert (issued 50 50 empty_world cancelled_world 40 15) as Hi
    by (split; [simpl; lia|vm_compute; reflexivity]).
  pose proof (cancelled_call_is_silent _ _ _ _ _ _ _ _ _ _ Hok Hrun Hi
                eq_refl) as Hst.
  rewrite Hrun, Hst. reflexivity.
Defined.

(** X14.  When the classification service cannot be reached (every [fetch]
    rejects with a [TypeError] whose message contains "Failed to fetch"),
    the signal never fires and some coarse hue is not cached, the handler
    keeps the colours on display, clears the loading flag and shows the
    connectivity message. *)
Theorem unreachable_service_message
    (remote : nat → Z → Z → Z → fetch_result) (s l : Z) (msg : string)
    (st st' : appState) (w w' : world) :
  (∀ n h, remote n h s l = FetchThrows (TypeError msg)) →
  includes msg "Failed to fetch" = true →
  areAllColorsCached coarseHues s l w = false →
  handleValuesChange remote (Some s) (Some l) (λ _, false) false st w
    = (st', w') →
  st' = {| colors := colors st; isLoading := false;
           error := Some "Failed to load colors. Please check your internet connection and try again." |}
  ∧ cache w' = cache w.
Proof.
  unfold handleValuesChange. intros Hdown Hmsg Hmiss Hrun.
  destruct (fetchDistinctColors remote s l (@Some AbortSignal (λ _, false)) w)
    as [w1 out] eqn:Hcall.
  injection Hrun as <- <-.
  apply fetchDistinctColors_spec in Hcall as (looked & Hl & Hres).
  assert (∀ i h, response_of remote (@Some AbortSignal (λ _, false)) s l i h
                 = inl (TypeError msg)) as Hfail.
  { intros i h. unfold response_of, fetch. by rewrite Hdown. }
  assert (cache w1 = cache w) as Hcache.
  { assert (∀ hues c n,
              stored remote (@Some AbortSignal (λ _, false)) s l n hues c = c)
      as Hkept.
    { induction hues as [|h hues IH]; intros c n; [done|].
      simpl. by rewrite Hfail, IH. }
    destruct Hl as [_ -> _ _]. apply Hkept. }
  split; [|done].
  destruct (areAllColorsCached_false _ _ _ _ Hmiss) as (h & Hh & Hnone).
  assert (∃ e, out = inl e) as [e ->].
  { destruct out as [e|vs]; [eauto|]. exfalso.
    unfold stretch_result in Hres.
    destruct (all_settled _) as [?|vs'] eqn:Hall; [done|].
    destruct Hres as (a & _ & -> & _).
    apply all_settled_inr in Hall.
    match type of Hall with
    | responses _ _ _ _ _ ?hues = _ => assert (h ∈ hues) as Hin
    end.
    { apply list_elem_of_filter. split; [done|].
      apply elem_of_app. by left. }
    apply list_elem_of_lookup in Hin as [j Hj].
    pose proof (responses_lookup remote (@Some AbortSignal (λ _, false)) s l
                  (length (requests w)) _ _ _ Hj) as Hr.
    rewrite Hall, list_lookup_fmap, Hfail in Hr.
    by destruct (vs' !! j). }
  destruct (stretch_result_inl _ _ _ _ _ _ _ _ _ Hl Hres)
    as (i' & h' & _ & He').
  rewrite Hfail in He'. injection He' as <-.
  unfold handleValuesChange_settle, handleValuesChange_start, errorMessage.
  simpl. by rewrite Hmsg.
Qed.

Lemma unreachable_service_message_witness :
  (∀ n h, failing_remote n h 50 50
          = FetchThrows (TypeError "Failed to fetch")) ∧
  includes "Failed to fetch" "Failed to fetch" = true ∧
  areAllColorsCached coarseHues 50 50 empty_world = false ∧
  ∃ st' w',
    handleValuesChange failing_remote (Some 50) (Some 50) (λ _, false) false
      {| colors := []; isLoading := false; error := None |} empty_world
    = (st', w') ∧
    error st'
    = Some "Failed to load colors. Please check your internet connection and try again.".
Proof.
  assert (∀ n h, failing_remote n h 50 50
                 = FetchThrows (TypeError "Failed to fetch")) as Hdown
    by reflexivity.
  assert (includes "Failed to fetch" "Failed to fetch" = true) as Hmsg
    by reflexivity.
  assert (areAllColorsCached coarseHues 50 50 empty_world = false) as Hmiss
    by reflexivity.
  split; [exact Hdown|]. split; [exact Hmsg|]. split; [exact Hmiss|].
  eexists _, _.
  assert (handleValuesChange failing_remote (Some 50) (Some 50) (λ _, false)
            false {| colors := []; isLoading := false; error := None |}
            empty_world
          = ((handleValuesChange failing_remote (Some 50) (Some 50)
                (λ _, false) false
                {| colors := []; isLoading := false; error := None |}
                empty_world).1,
             (handleValuesChange failing_remote (Some 50) (Some 50)
                (λ _, false) false
                {| colors := []; isLoading := false; error := None |}
                empty_world).2)) as Hrun
    by (vm_compute; reflexivity).
  split; [exact Hrun|].
  rewrite (proj1 (unreachable_service_message _ _ _ _ _ _ _ _
                    Hdown Hmsg Hmiss Hrun)).
  reflexivity.
Defined.

(** * clearCache *)

(** X15.  [clearCache] forgets every colour.  A call of
    [fetchDistinctColors] that succeeds right after it has looked up every
    hue it sampled, the 36 coarse hues first, whatever was cached before;
    and the cache then holds the objects of the sampled hues and nothing
    else. *)
Theorem call_after_clearCache
    (remote : nat → Z → Z → Z → fetch_result) (s l : Z)
    (signal : option AbortSignal) (w w' : world)
    (distinctColors : list colorData) :
  fetchDistinctColors remote s l signal (clearCache w)
    = (w', inr distinctColors) →
  requests w'
  = requests w ++ ((λ h, (h, s, l)) <$> neededHues s l (cache w')) ∧
  ∀ k, is_Some (cache w' !! k)
       ↔ ∃ h, h ∈ neededHues s l (cache w') ∧ k = cacheKey h s l.
Proof.
  intros Hrun.
  apply fetchDistinctColors_inr in Hrun as (m & Hrun & _).
  apply samplePhases_spec in Hrun as (looked & Hl & Hres).
  unfold stretch_result in Hres. destruct (all_settled _); [done|].
  destruct Hres as (m' & _ & Hlooked & Hcached & _).
  simpl in Hlooked. rewrite filter_uncached_empty in Hlooked. subst looked.
  split; [by destruct Hl as [-> _ _ _]|].
  intros k. split.
  - intros Hk.
    destruct (decide (Exists (λ h, k = cacheKey h s l)
                        (neededHues s l (cache w')))) as [Hex|Hno].
    + apply Exists_exists in Hex as (h & Hh & ->). eauto.
    + exfalso. destruct Hl as [_ Hc _ _]. rewrite Hc in Hk.
      rewrite stored_lookup_other in Hk.
      * simpl in Hk. rewrite lookup_empty in Hk. by destruct Hk.
      * intros h Hh ->. apply Hno, Exists_exists. eauto.
  - intros (h & Hh & ->). by apply Hcached.
Qed.

Lemma call_after_clearCache_witness :
  ∃ w' distinctColors,
    fetchDistinctColors red_orange_remote 50 50 None (clearCache warm_world)
      = (w', inr distinctColors) ∧
    requests w'
    = requests warm_world
      ++ ((λ h, (h, 50, 50)) <$> neededHues 50 50 (cache w')) ∧
    ¬ is_Some (cache w' !! cacheKey 45 50 50).
Proof.
  pose (out := fetchDistinctColors red_orange_remote 50 50 None
                 (clearCache warm_world)).
  assert (fetchDistinctColors red_orange_remote 50 50 None
            (clearCache warm_world)
          = (out.1, inr (match out.2 with inr vs => vs | inl _ => [] end)))
    as Hrun by (vm_compute; reflexivity).
  destruct (call_after_clearCache _ _ _ _ _ _ _ Hrun) as [Hreq Hcache].
  exists out.1, (match out.2 with inr vs => vs | inl _ => [] end).
  split; [exact Hrun|]. split; [exact Hreq|].
  apply (bool_decide_unpack (¬ is_Some (cache out.1 !! cacheKey 45 50 50))).
  vm_compute. exact I.
Defined.

(** * generateHues *)

(** A JavaScript number is an IEEE 754 binary64 value, as a primitive
    float is. *)
Definition number : Set := PrimFloat.float.

(** The number of an integer literal or loop counter (exact below 2^53). *)
Definition number_of_Z (n : Z) : number :=
  PrimFloat.of_uint63 (Uint63Axioms.of_Z n).

(** [Math.round(x)] as an integer: the integer closest to [x], a tie going
    towards +∞, that is [⌊x + 1/2⌋] computed exactly on [x = ± m * 2^e];
    [None] when [x] is [NaN] or infinite (and [Math.round] returns [x]). *)
Definition Math_round (x : number) : option Z :=
  match FloatOps.Prim2SF x with
  | SpecFloat.S754_zero _ => Some 0
  | SpecFloat.S754_finite sign m e =>
      let n := if sign then Z.neg m else Z.pos m in
      Some (if bool_decide (0 ≤ e) then n ≪ e
            else (2 * n + 1 ≪ (- e)) ≫ (1 - e))
  | SpecFloat.S754_infinity _ | SpecFloat.S754_nan => None
  end.

(** The body of the loop, [Math.round(i * step) % 360]; [None] is [NaN]. *)
Definition hue_at (step : number) (i : Z) : option Z :=
  r ← Math_round (PrimFloat.mul (number_of_Z i) step);
  Some (r `rem` 360).

(** [for (let i = 0; i < count; i++) hues.push(...)] with [n] iterations
    left. *)
Fixpoint generateHues_loop (n : nat) (i : Z) (step : number)
    : list (option Z) :=
  match n with
  | O => []
  | S n => hue_at step i :: generateHues_loop n (i + 1) step
  end.

(** [generateHues(count)] for an integer [count]. *)
Definition generateHues (count : Z) : list (option Z) :=
  let step := PrimFloat.div (number_of_Z 360) (number_of_Z count) in
  generateHues_loop (Z.to_nat count) 0 step.

(** The hues [360 * i / count] rounded to the nearest integer (a tie going
    up) in exact arithmetic, for comparison. *)
Definition roundedHues (count : Z) : list (option Z) :=
  (λ i, Some (((720 * i + count) `div` (2 * count)) `rem` 360))
  <$> seqZ 0 count.

(** The shifts of [Math_round] are the multiplication and the floored
    division they stand for. *)
Lemma Math_round_shifts (n e : Z) :
  e < 0 →
  (2 * n + 1 ≪ (- e)) ≫ (1 - e) = (2 * n + 2 ^ (- e)) `div` (2 * 2 ^ (- e)).
Proof.
  intros He. rewrite Z.shiftr_div_pow2, Z.shiftl_1_l by lia.
  replace (1 - e) with (Z.succ (- e)) by lia.
  by rewrite Z.pow_succ_r by lia.
Qed.

Lemma mapM_id_Some {A} (l : list (option A)) (k : list A) :
  mapM id l = Some k → l = Some <$> k.
Proof.
  intros Hl. apply mapM_Some in Hl.
  induction Hl as [|x y l k Hx _ IH]; [done|].
  simpl in Hx. by rewrite Hx, IH.
Qed.

Lemma generateHues_nonpos (count : Z) : count ≤ 0 → generateHues count = [].
Proof. intros Hc. unfold generateHues. by rewrite Z2Nat.nonpos. Qed.

(** What is checked, count by count, by running [generateHues]. *)
Definition ascending (count : Z) (hues : list Z) : Prop :=
  Z.of_nat (length hues) = count ∧
  Forall (λ h, 0 ≤ h < 360) hues ∧
  hues !! 0%nat = Some 0 ∧
  Sorted Z.le hues ∧
  (count ≤ 360 → Sorted Z.lt hues) ∧
  (360 `mod` count = 0 →
   hues = (λ i, i * (360 `div` count)) <$> seqZ 0 count).

#[local] Instance ascending_dec (count : Z) (hues : list Z) :
  Decision (ascending count hues).
Proof. unfold ascending. apply _. Defined.

Definition ascending_check (count : Z) : bool :=
  match mapM id (generateHues count) with
  | Some hues => bool_decide (ascending count hues)
  | None => false
  end.

Lemma ascending_check_upto_719 :
  Forall (λ count, ascending_check count = true) (seqZ 1 719).
Proof.
  apply (bool_decide_unpack
           (Forall (λ count, ascending_check count = true)
              (seqZ 1 719))).
  vm_compute. exact I.
Qed.



Lemma Sorted_le_StronglySorted (hues : list Z) :
  Sorted Z.le hues → StronglySorted Z.le hues.
Proof. apply Sorted_StronglySorted. intros x y z. lia. Qed.

Lemma Sorted_lt_StronglySorted (hues : list Z) :
  Sorted Z.lt hues → StronglySorted Z.lt hues.
Proof. apply Sorted_StronglySorted. intros x y z. lia. Qed.

(** X16.  For every integer [count] up to 719, [generateHues] returns
    [count] integer hues (none for a [count] of zero or less), each from 0
    to 359, in ascending order and beginning with 0; they are pairwise
    distinct when [count] is at most 360, and the exact multiples of
    [360 / count] when [count] divides 360 (every hue once for the default
    of 360). *)
Theorem generateHues_in_order (count : Z) :
  count ≤ 719 →
  ∃ hues,
    generateHues count = Some <$> hues ∧
    Z.of_nat (length hues) = Z.max 0 count ∧
    Forall (λ h, 0 ≤ h < 360) hues ∧
    (0 < count → hues !! 0%nat = Some 0) ∧
    StronglySorted Z.le hues ∧
    (count ≤ 360 → StronglySorted Z.lt hues) ∧
    (0 < count → 360 `mod` count = 0 →
     hues = (λ i, i * (360 `div` count)) <$> seqZ 0 count).
Proof.
  intros Hle. destruct (decide (count ≤ 0)) as [Hneg|Hpos].
  - exists []. rewrite generateHues_nonpos by done.
    repeat split; try constructor; simpl; lia.
  - assert (count ∈ seqZ 1 719) as Hin by (apply elem_of_seqZ; lia).
    pose proof ascending_check_upto_719 as Hall.
    rewrite Forall_forall in Hall.
    specialize (Hall count Hin). unfold ascending_check in Hall.
    destruct (mapM id (generateHues count)) as [hues|] eqn:Hhues; [|done].
    apply mapM_id_Some in Hhues.
    apply bool_decide_eq_true in Hall
      as (Hlen & Hrange & Hhead & Hsorted & Hstrict & Hexact).
    exists hues. split; [done|]. split; [lia|]. split; [done|].
    split; [done|]. split; [by apply Sorted_le_StronglySorted|].
    split; [|done]. intros H360. by apply Sorted_lt_StronglySorted, Hstrict.
Qed.

Lemma generateHues_in_order_witness :
  generateHues 36 = Some <$> coarseHues.
Proof.
  destruct (generateHues_in_order 36 ltac:(lia))
    as (hues & -> & _ & _ & _ & _ & _ & Hexact).
  rewrite Hexact by (done || lia). reflexivity.
Defined.

(** Where binary64 rounding shows. *)
Definition rounding_check (count : Z) : bool :=
  bool_decide (generateHues count = roundedHues count ↔ count ≠ 304).

Lemma rounding_check_upto_360 :
  Forall (λ count, rounding_check count = true) (seqZ 1 360).
Proof.
  apply (bool_decide_unpack
           (Forall (λ count, rounding_check count = true) (seqZ 1 360))).
  vm_compute. exact I.
Qed.

(** X17.  For a [count] from 1 to 360, the hues of [generateHues] are the
    exact values [360 * i / count] rounded to the nearest integer (a tie
    going up), with one exception: for a [count] of 304 a binary64 product
    [i * step] falls below a tie, and a hue is one less than the rounded
    exact value. *)
Theorem generateHues_rounding (count : Z) :
  1 ≤ count ≤ 360 →
  generateHues count = roundedHues count ↔ count ≠ 304.
Proof.
  intros Hc.
  assert (count ∈ seqZ 1 360) as Hin by (apply elem_of_seqZ; lia).
  pose proof rounding_check_upto_360 as Hall.
  rewrite Forall_forall in Hall. specialize (Hall count Hin).
  by apply bool_decide_eq_true in Hall.
Qed.

Lemma generateHues_rounding_witness :
  generateHues 7 = Some <$> [0; 51; 103; 154; 206; 257; 309].
Proof.
  assert (7 ≠ 304) as Hne by lia.
  apply (generateHues_rounding 7 ltac:(lia)) in Hne.
  rewrite Hne. reflexivity.
Defined.

Lemma generateHues_loop_lookup (n : nat) (i : Z) (step : number) (k : nat) :
  (k < n)%nat →
  generateHues_loop n i step !! k = Some (hue_at step (i + Z.of_nat k)).
Proof.
  revert i k. induction n as [|n IH]; intros i [|k] Hk; try lia.
  - simpl. by rewrite Z.add_0_r.
  - simpl. rewrite IH by lia. do 2 f_equal. lia.
Qed.

Lemma length_generateHues_loop (n : nat) (i : Z) (step : number) :
  length (generateHues_loop n i step) = n.
Proof. revert i. induction n as [|n IH]; intros i; simpl; [done|by rewrite IH]. Qed.

Lemma generateHues_lookup (count i : Z) :
  0 ≤ i < count →
  generateHues count !! Z.to_nat i
  = Some (hue_at (PrimFloat.div (number_of_Z 360) (number_of_Z count)) i).
Proof.
  intros Hi. unfold generateHues.
  rewrite generateHues_loop_lookup by lia. do 2 f_equal. lia.
Qed.

(** The last hue and the hue at index [⌈359 * count / 360⌉]. *)
Definition wraps_check (count : Z) : bool :=
  let step := PrimFloat.div (number_of_Z 360) (number_of_Z count) in
  bool_decide (hue_at step (count - 1) = Some 0
               ∧ hue_at step ((359 * count + 359) `div` 360) = Some 359).

Lemma wraps_check_720_10000 :
  Forall (λ count, wraps_check count = true) (seqZ 720 9281).
Proof.
  apply (bool_decide_unpack
           (Forall (λ count, wraps_check count = true) (seqZ 720 9281))).
  vm_compute. exact I.
Qed.

(** X18.  From a [count] of 720 on (checked up to 10000) the hues are no
    longer in ascending order: the last product rounds to 360, so the last
    hue wraps to 0, after the hue 359 has been produced. *)
Theorem generateHues_wraps (count : Z) :
  720 ≤ count ≤ 10000 →
  last (generateHues count) = Some (Some 0) ∧
  ∃ i, 0 ≤ i < count - 1 ∧ generateHues count !! Z.to_nat i = Some (Some 359).
Proof.
  intros Hc.
  assert (count ∈ seqZ 720 9281) as Hin by (apply elem_of_seqZ; lia).
  pose proof wraps_check_720_10000 as Hall.
  rewrite Forall_forall in Hall. specialize (Hall count Hin).
  apply bool_decide_eq_true in Hall as [Hlast H359]. split.
  - rewrite last_lookup. unfold generateHues at 1.
    rewrite length_generateHues_loop.
    replace (pred (Z.to_nat count)) with (Z.to_nat (count - 1)) by lia.
    rewrite generateHues_lookup by lia. by rewrite Hlast.
  - exists ((359 * count + 359) `div` 360).
    assert (0 ≤ (359 * count + 359) `div` 360 < count - 1) as Hi.
    { split; [apply Z.div_pos; lia|].
      apply Z.div_lt_upper_bound; lia. }
    split; [done|]. rewrite generateHues_lookup by lia. by rewrite H359.
Qed.

Lemma generateHues_wraps_witness :
  last (generateHues 720) = Some (Some 0) ∧
  ∃ i, 0 ≤ i < 720 - 1 ∧ generateHues 720 !! Z.to_nat i = Some (Some 359).
Proof. apply (generateHues_wraps 720). lia. Defined.

End ColorApi.
